(** * Codebase Explorer: the server-side analyzer (server.js)

    A shallow embedding of the analysis backend: the upload filter and
    route, safe ZIP extraction, the file-tree builder, the local-import
    resolver, the dependency graph, the statistics and the cleanup of a
    job, followed by the properties proved about them.

    JavaScript strings are modelled as [string] (8-bit code units);
    numbers that count bytes or files are [Z]; a JS [Set] used only for
    membership is a [gset string]; a JS [Set] or [Map] whose iteration
    order is observed is an insertion-ordered list. *)

From Stdlib Require Import ZArith Lia Bool Ascii String List.
From Stdlib Require Import Permutation Sorted.
From stdpp Require Import base decidable list gmap strings sorting.

Import ListNotations.
Local Open Scope string_scope.
Local Open Scope Z_scope.

(* ================================================================== *)
(** ** JavaScript string primitives used by server.js *)
(* ================================================================== *)

Module Js.

Definition slash : ascii := "/"%char.
Definition backslash : ascii := "\"%char.

(** [s.replace(/\\/g, "/")] *)
Fixpoint replaceBackslashes (s : string) : string :=
  match s with
  | EmptyString => EmptyString
  | String c s' =>
      String (if Ascii.eqb c backslash then slash else c) (replaceBackslashes s')
  end.

(** [s.startsWith(p)] *)
Fixpoint startsWith (s p : string) {struct p} : bool :=
  match p, s with
  | EmptyString, _ => true
  | String a p', String b s' => Ascii.eqb a b && startsWith s' p'
  | String _ _, EmptyString => false
  end.

(** [s.includes(sub)] *)
Fixpoint includes (s sub : string) : bool :=
  startsWith s sub ||
  match s with
  | EmptyString => false
  | String _ s' => includes s' sub
  end.

(** [s.split("/")]: always at least one piece. *)
Fixpoint splitSlash (s : string) : list string :=
  match s with
  | EmptyString => [EmptyString]
  | String c s' =>
      if Ascii.eqb c slash then EmptyString :: splitSlash s'
      else match splitSlash s' with
           | [] => [String c EmptyString]
           | p :: ps => String c p :: ps
           end
  end.

(** [parts.join("/")] *)
Fixpoint joinSlash (l : list string) : string :=
  match l with
  | [] => EmptyString
  | [p] => p
  | p :: ps => p ++ "/" ++ joinSlash ps
  end.

Definition isEmpty (s : string) : bool :=
  match s with EmptyString => true | _ => false end.

(** [arr.filter(Boolean)] on an array of strings: drops the empty ones. *)
Definition filterBoolean (l : list string) : list string :=
  List.filter (fun p => negb (isEmpty p)) l.

(** The capitals among the 8-bit code units: A to Z, and the Latin-1
    capitals U+00C0 to U+00DE without the multiplication sign U+00D7.
    The small letter of each is 32 code units above it. *)
Definition isCapital (n : nat) : bool :=
  (((65 <=? n)%nat && (n <=? 90)%nat)
   || ((192 <=? n)%nat && (n <=? 222)%nat && negb (n =? 215)%nat))%bool.

Definition lowerChar (c : ascii) : ascii :=
  let n := nat_of_ascii c in
  if isCapital n then ascii_of_nat (n + 32) else c.

(** [s.toLowerCase()] on the code units modelled here. *)
Fixpoint toLowerCase (s : string) : string :=
  match s with
  | EmptyString => EmptyString
  | String c s' => String (lowerChar c) (toLowerCase s')
  end.

Definition lastChar (s : string) : option ascii :=
  match String.length s with
  | O => None
  | S n => String.get n s
  end.

End Js.

(* ================================================================== *)
(** ** Node's [path] module, POSIX flavour

    [path] is part of the Node runtime, not of this repository.  The
    functions below follow the documented behaviour of [path.posix]
    segment by segment: the separator is "/", "." and empty segments
    are dropped, ".." removes the segment before it. *)
(* ================================================================== *)

Module path.

Definition sep : string := "/".

Definition isDotDot (p : string) : bool := String.eqb p "..".
Definition isSkipped (p : string) : bool := Js.isEmpty p || String.eqb p ".".

(** One step of [normalizeString]: [stack] holds the segments kept so
    far, last one first. *)
Definition normStep (allowAboveRoot : bool) (stack : list string) (p : string)
  : list string :=
  if isSkipped p then stack
  else if isDotDot p then
    match stack with
    | top :: rest =>
        if isDotDot top then (if allowAboveRoot then p :: stack else stack)
        else rest
    | [] => if allowAboveRoot then [p] else []
    end
  else p :: stack.

Definition normSegments (allowAboveRoot : bool) (segs : list string) : list string :=
  rev (fold_left (normStep allowAboveRoot) segs []).

Definition normalizeString (p : string) (allowAboveRoot : bool) : string :=
  Js.joinSlash (normSegments allowAboveRoot (Js.splitSlash p)).

Definition isAbsolute (p : string) : bool := Js.startsWith p "/".

Definition hasTrailingSep (p : string) : bool :=
  match Js.lastChar p with
  | Some c => Ascii.eqb c Js.slash
  | None => false
  end.

Definition normalize (p : string) : string :=
  if Js.isEmpty p then "."
  else
    let abs := isAbsolute p in
    let trailing := hasTrailingSep p in
    let body := normalizeString p (negb abs) in
    if Js.isEmpty body then
      (if abs then "/" else if trailing then "./" else ".")
    else
      let body' := if trailing then body ++ "/" else body in
      if abs then "/" ++ body' else body'.

(** [path.join(a, b)] *)
Definition join (a b : string) : string :=
  match Js.isEmpty a, Js.isEmpty b with
  | true, true => "."
  | false, true => normalize a
  | true, false => normalize b
  | false, false => normalize (a ++ "/" ++ b)
  end.

(** [path.resolve(p)] with the process working directory [cwd]. *)
Definition resolve (cwd p : string) : string :=
  let '(raw, abs) :=
    if Js.isEmpty p then
      (if Js.isEmpty cwd then (EmptyString, false) else (cwd ++ "/", isAbsolute cwd))
    else if isAbsolute p then (p ++ "/", true)
    else if Js.isEmpty cwd then (p ++ "/", false)
    else (cwd ++ "/" ++ p ++ "/", isAbsolute cwd) in
  let body := normalizeString raw (negb abs) in
  if abs then "/" ++ body
  else if Js.isEmpty body then "." else body.

(** Segments of a resolved path (the text after the leading "/"). *)
Definition resolvedSegments (cwd p : string) : list string :=
  Js.filterBoolean (Js.splitSlash (resolve cwd p)).

Fixpoint dropCommon (a b : list string) : list string * list string :=
  match a, b with
  | x :: a', y :: b' => if String.eqb x y then dropCommon a' b' else (a, b)
  | _, _ => (a, b)
  end.

(** [path.relative(from, to)]: resolve both, drop the common leading
    segments, climb out of what is left of [from], descend into what
    is left of [to]. *)
Definition relative (cwd from to : string) : string :=
  if String.eqb from to then EmptyString
  else
    let '(f, t) := dropCommon (resolvedSegments cwd from) (resolvedSegments cwd to) in
    Js.joinSlash (List.map (fun _ => "..") f ++ t).

(** Drops the trailing separators of [p]. *)
Fixpoint stripTrailingSeps (p : string) : string :=
  match p with
  | EmptyString => EmptyString
  | String c p' =>
      let r := stripTrailingSeps p' in
      if Js.isEmpty r && Ascii.eqb c Js.slash then EmptyString else String c r
  end.

(** The last component of [p], trailing separators ignored. *)
Definition lastComponent (p : string) : string :=
  List.last (Js.splitSlash (stripTrailingSeps p)) EmptyString.

(** Splits [s] at its last ".": [Some (before, fromDot)]. *)
Fixpoint splitLastDot (s : string) : option (string * string) :=
  match s with
  | EmptyString => None
  | String c s' =>
      match splitLastDot s' with
      | Some (pre, ext) => Some (String c pre, ext)
      | None => if Ascii.eqb c "."%char then Some (EmptyString, s) else None
      end
  end.

(** [path.extname(p)]: from the last "." of the last component; empty
    when there is no dot, when the only dot leads the component, or
    when the component is "..". *)
Definition extname (p : string) : string :=
  let b := lastComponent p in
  if isDotDot b then EmptyString
  else match splitLastDot b with
       | Some (pre, ext) => if Js.isEmpty pre then EmptyString else ext
       | None => EmptyString
       end.

(** Splits [s] at its last "/": [Some (before, fromSlash)]. *)
Fixpoint splitLastSlash (s : string) : option (string * string) :=
  match s with
  | EmptyString => None
  | String c s' =>
      match splitLastSlash s' with
      | Some (pre, rest) => Some (String c pre, rest)
      | None => if Ascii.eqb c Js.slash then Some (EmptyString, s) else None
      end
  end.

(** [path.dirname(p)]: everything before the separator that precedes
    the last component; the first character is never taken for that
    separator. *)
Definition dirname (p : string) : string :=
  if Js.isEmpty p then "."
  else
    match splitLastSlash (stripTrailingSeps p) with
    | Some (pre, _) =>
        if Js.isEmpty pre then "/"
        else if String.eqb pre "/" then "//"
        else pre
    | None => if isAbsolute p then "/" else "."
    end.

End path.

(* ================================================================== *)
(** ** Errors, results and the disk *)
(* ================================================================== *)

(** A JavaScript [Error]: its [message], and the [code] that Node and
    multer set on the errors they raise (empty when absent). *)
Record JsError := { message : string; code : string }.

(** [new Error(msg)] *)
Definition Error (msg : string) : JsError := {| message := msg; code := "" |}.

Definition ZIP_LIMITS_EXCEEDED : string := "ZIP_LIMITS_EXCEEDED".
Definition UNSAFE_ZIP_PATH : string := "UNSAFE_ZIP_PATH".
Definition INVALID_FILE_TYPE : string := "INVALID_FILE_TYPE".

(** An error raised by the file system, e.g. EISDIR. *)
Definition fsError (c : string) : JsError := {| message := c; code := c |}.

Inductive Result (A : Type) : Type :=
| Ok (a : A)
| Throw (e : JsError).
Arguments Ok {A} a.
Arguments Throw {A} e.

Inductive DiskNode : Type :=
| DirNode
| FileNode (content : string).

(** The disk: resolved absolute path to node. *)
Abbreviation Disk := (gmap string DiskNode).

(** A computation that reads and writes the disk and may throw; the
    disk survives a throw, as files written before a failure stay. *)
Definition M (A : Type) : Type := Disk -> Result A * Disk.

Definition ret {A} (a : A) : M A := fun d => (Ok a, d).
Definition throw {A} (e : JsError) : M A := fun d => (Throw e, d).
Definition bind {A B} (c : M A) (k : A -> M B) : M B :=
  fun d => match c d with
           | (Ok a, d') => k a d'
           | (Throw e, d') => (Throw e, d')
           end.

Notation "x <- c ;; k" := (bind c (fun x => k))
  (at level 100, c at next level, right associativity).
Notation "c ;;; k" := (bind c (fun _ => k))
  (at level 100, right associativity).

Definition bytes (s : string) : Z := Z.of_nat (String.length s).

Module Fs.

Definition absOf (segs : list string) : string := "/" ++ Js.joinSlash segs.

(** Creates the directories [base/s1], [base/s1/s2], ... in turn;
    fails when one of them is an existing file. *)
Fixpoint mkdirFrom (base segs : list string) (d : Disk) : Result unit * Disk :=
  match segs with
  | [] => (Ok tt, d)
  | s :: rest =>
      let here := (base ++ [s])%list in
      match d !! absOf here with
      | Some (FileNode _) =>
          (Throw (fsError (match rest with [] => "EEXIST" | _ => "ENOTDIR" end)), d)
      | _ => mkdirFrom here rest (<[absOf here := DirNode]> d)
      end
  end.

(** [fs.promises.mkdir(p, { recursive: true })] *)
Definition mkdirRecursive (cwd p : string) : M unit :=
  mkdirFrom [] (path.resolvedSegments cwd p).

(** Opening [fs.createWriteStream(p)]: the file is created or
    truncated; a directory cannot be opened for writing. *)
Definition openWrite (cwd p : string) : M string :=
  fun d =>
    let key := path.resolve cwd p in
    if path.hasTrailingSep p then (Throw (fsError "EISDIR"), d)
    else match d !! key with
         | Some DirNode => (Throw (fsError "EISDIR"), d)
         | _ =>
             if String.eqb key "/" then (Throw (fsError "EISDIR"), d)
             else match d !! path.dirname key with
                  | Some DirNode => (Ok key, <[key := FileNode EmptyString]> d)
                  | _ =>
                      if String.eqb (path.dirname key) "/"
                      then (Ok key, <[key := FileNode EmptyString]> d)
                      else (Throw (fsError "ENOENT"), d)
                  end
         end.

(** One chunk reaching the open file at [key]. *)
Definition appendChunk (key chunk : string) : M unit :=
  fun d =>
    match d !! key with
    | Some (FileNode c) => (Ok tt, <[key := FileNode (c ++ chunk)]> d)
    | _ => (Ok tt, d)
    end.

(** [fs.promises.readFile(p, "utf8")] *)
Definition readFile (cwd p : string) (d : Disk) : Result string :=
  match d !! path.resolve cwd p with
  | Some (FileNode c) => Ok c
  | Some DirNode => Throw (fsError "EISDIR")
  | None => Throw (fsError "ENOENT")
  end.

End Fs.

(* ================================================================== *)
(** ** Safe ZIP extraction *)
(* ================================================================== *)

Inductive EntryType : Type := Directory | File.

(** What an entry's read stream delivers, in order, before it ends: data
    chunks, or an error (of the read side or of the write side; both
    are wired to [reject]). *)
Inductive StreamEvent : Type :=
| Data (chunk : string)
| StreamError (e : JsError).

(** An entry of [zipDirectory.files].  [uncompressedSize] is the size
    declared by the archive's directory, [None] when absent; [stream]
    is what [entry.stream()] really delivers. *)
Record Entry := {
  type : EntryType;
  entryPath : string;
  uncompressedSize : option Z;
  stream : list StreamEvent
}.

Record Limits := { maxFiles : Z; maxFileBytes : Z; maxTotalBytes : Z }.

(** The two counters of the extraction loop. *)
Record Counters := { extractedTotalBytes : Z; extractedFilesCount : Z }.

Definition isDirectory (e : Entry) : bool :=
  match type e with Directory => true | File => false end.

(** [Number(entry.uncompressedSize || 0)] *)
Definition declaredSize (e : Entry) : Z :=
  match uncompressedSize e with
  | Some n => n
  | None => 0
  end.

(** [path.posix.normalize(entry.path.replace(/\\/g, "/"))] *)
Definition normalizedRelPathOf (e : Entry) : string :=
  path.normalize (Js.replaceBackslashes (entryPath e)).

(** The first Zip Slip guard. *)
Definition unsafeRelPath (normalizedRelPath : string) : bool :=
  Js.startsWith normalizedRelPath ".." ||
  Js.includes normalizedRelPath "/../" ||
  path.isAbsolute normalizedRelPath.

(** The second guard, on resolved paths. *)
Definition insideDir (resolvedTargetDir resolvedDestinationPath : string) : bool :=
  Js.startsWith resolvedDestinationPath (resolvedTargetDir ++ path.sep) ||
  String.eqb resolvedDestinationPath resolvedTargetDir.

(** The promise around the piped streams: the [data] handler counts the
    bytes; the chunk that crosses the limit destroys both streams before
    the pipe hands it to the file. *)
Fixpoint pipeWithLimit (limits : Limits) (key : string) (writtenBytes : Z)
  (events : list StreamEvent) : M unit :=
  match events with
  | [] => ret tt
  | Data chunk :: rest =>
      let writtenBytes' := writtenBytes + bytes chunk in
      if writtenBytes' >? maxFileBytes limits then throw (Error ZIP_LIMITS_EXCEEDED)
      else Fs.appendChunk key chunk ;;; pipeWithLimit limits key writtenBytes' rest
  | StreamError e :: _ => throw e
  end.

Section Extraction.

(** The working directory of the server process. *)
Variable cwd : string.

(** The body of the [for] loop of [safeExtractZip], for one entry. *)
Definition extractEntry (targetDir : string) (limits : Limits)
  (st : Counters) (entry : Entry) : M Counters :=
  if isDirectory entry then ret st
  else
    let count := extractedFilesCount st + 1 in
    if count >? maxFiles limits then throw (Error ZIP_LIMITS_EXCEEDED)
    else
      let size := declaredSize entry in
      if size >? maxFileBytes limits then throw (Error ZIP_LIMITS_EXCEEDED)
      else
        let total := extractedTotalBytes st + size in
        if total >? maxTotalBytes limits then throw (Error ZIP_LIMITS_EXCEEDED)
        else
          let normalizedRelPath := normalizedRelPathOf entry in
          if unsafeRelPath normalizedRelPath then throw (Error UNSAFE_ZIP_PATH)
          else
            let destinationPath := path.join targetDir normalizedRelPath in
            let resolvedTargetDir := path.resolve cwd targetDir in
            let resolvedDestinationPath := path.resolve cwd destinationPath in
            if negb (insideDir resolvedTargetDir resolvedDestinationPath)
            then throw (Error UNSAFE_ZIP_PATH)
            else
              Fs.mkdirRecursive cwd (path.dirname destinationPath) ;;;
              key <- Fs.openWrite cwd destinationPath ;;
              pipeWithLimit limits key 0 (stream entry) ;;;
              ret {| extractedTotalBytes := total; extractedFilesCount := count |}.

Fixpoint extractEntries (targetDir : string) (limits : Limits)
  (st : Counters) (entries : list Entry) : M Counters :=
  match entries with
  | [] => ret st
  | entry :: rest =>
      st' <- extractEntry targetDir limits st entry ;;
      extractEntries targetDir limits st' rest
  end.

(** [safeExtractZip(zipPath, targetDir, limits)]; [zipDirectory] is
    the outcome of [unzipper.Open.file(zipPath)]. *)
Definition safeExtractZip (zipDirectory : Result (list Entry))
  (targetDir : string) (limits : Limits) : M unit :=
  Fs.mkdirRecursive cwd targetDir ;;;
  match zipDirectory with
  | Throw e => throw e
  | Ok files =>
      extractEntries targetDir limits
        {| extractedTotalBytes := 0; extractedFilesCount := 0 |} files ;;;
      ret tt
  end.

End Extraction.

(* ================================================================== *)
(** ** [Array.prototype.sort]

    The sort is stable; with a consistent comparator its result is the
    arrangement in which every element sits after the elements that
    compare less than or equal to it and came before it.  It is
    computed here by insertion. *)
(* ================================================================== *)

Section JsSort.

Context {A : Type}.
Variable compareFn : A -> A -> Z.

(** Puts [x] before the first element that compares greater. *)
Fixpoint insertSorted (x : A) (l : list A) : list A :=
  match l with
  | [] => [x]
  | y :: l' => if compareFn y x >? 0 then x :: l else y :: insertSorted x l'
  end.

Definition jsSort (l : list A) : list A :=
  fold_left (fun acc x => insertSorted x acc) l [].

End JsSort.

(* ================================================================== *)
(** ** The file tree *)
(* ================================================================== *)

(** A node of the tree sent to the frontend:
    [{ name, type: "folder", children }] or
    [{ name, type: "file", path }]. *)
Inductive TreeNode : Type :=
| Folder (name : string) (children : list TreeNode)
| FileLeaf (name : string) (relPath : string).

Definition nodeName (t : TreeNode) : string :=
  match t with
  | Folder n _ => n
  | FileLeaf n _ => n
  end.

Definition isFolder (t : TreeNode) : bool :=
  match t with
  | Folder _ _ => true
  | FileLeaf _ _ => false
  end.

Section TreeBuilder.

(** [a.localeCompare(b)]: the collation of the JavaScript engine,
    which is not part of this repository. *)
Variable localeCompare : string -> string -> Z.

(** The comparator given to [children.sort]: folders first, then
    files, both by name. *)
Definition compareNodes (a b : TreeNode) : Z :=
  if Bool.eqb (isFolder a) (isFolder b)
  then localeCompare (nodeName a) (nodeName b)
  else if isFolder a then -1 else 1.

Definition sortChildren (children : list TreeNode) : list TreeNode :=
  jsSort compareNodes children.

(** The predicate of [parentNode.children.find(...)]. *)
Definition isFolderNamed (folderName : string) (child : TreeNode) : bool :=
  isFolder child && String.eqb (nodeName child) folderName.

Definition hasFolder (folderName : string) (children : list TreeNode) : bool :=
  existsb (isFolderNamed folderName) children.

(** Applies [f] to the children of the first folder called
    [folderName]: the walk continues inside the node that [find]
    returned. *)
Fixpoint inFolder (folderName : string)
  (f : list TreeNode -> list TreeNode) (children : list TreeNode)
  : list TreeNode :=
  match children with
  | [] => []
  | Folder n c :: rest =>
      if String.eqb n folderName then Folder n (f c) :: rest
      else Folder n c :: inFolder folderName f rest
  | t :: rest => t :: inFolder folderName f rest
  end.

(** [getOrCreateFolderNode(parentNode, folderName)], as the new list
    of children of [parentNode]. *)
Definition getOrCreateFolderNode (folderName : string)
  (children : list TreeNode) : list TreeNode :=
  if hasFolder folderName children then children
  else sortChildren (children ++ [Folder folderName []]).

(** The inner [for] loop over [parts], from the children of
    [currentNode] downwards. *)
Fixpoint insertParts (relPath : string) (parts : list string)
  (children : list TreeNode) : list TreeNode :=
  match parts with
  | [] => children
  | [name] => children ++ [FileLeaf name relPath]
  | name :: rest =>
      inFolder name (insertParts relPath rest)
        (getOrCreateFolderNode name children)
  end.

(** [sortTree(node)].  The source sorts [node.children] and then
    descends into each child; the recursion below descends first so
    that it is structural.  The comparator reads only the type and the
    name of a node, which the descent leaves alone, and
    [sortTree_unfold] below proves the source's order of the two steps
    gives the same tree. *)
Fixpoint sortTree (node : TreeNode) : TreeNode :=
  match node with
  | Folder n children => Folder n (sortChildren (List.map sortTree children))
  | FileLeaf n p => FileLeaf n p
  end.

(** The working directory of the server process. *)
Variable cwd : string.

(** [path.relative(rootDir, absPath).replace(/\\/g, "/")] *)
Definition relPathOf (rootDir absPath : string) : string :=
  Js.replaceBackslashes (path.relative cwd rootDir absPath).

(** [relPath.split("/").filter(Boolean)] *)
Definition partsOf (relPath : string) : list string :=
  Js.filterBoolean (Js.splitSlash relPath).

(** One round of the outer loop. *)
Definition insertPath (rootDir : string) (children : list TreeNode)
  (absPath : string) : list TreeNode :=
  let relPath := relPathOf rootDir absPath in
  insertParts relPath (partsOf relPath) children.

Definition buildFileTreeFromPaths (rootDir : string) (filePathsAbs : list string)
  : TreeNode :=
  sortTree (Folder "root" (fold_left (insertPath rootDir) filePathsAbs [])).

End TreeBuilder.

(* ================================================================== *)
(** ** The three regular expressions of [extractImportSpecifiers]

    Each of them is a sequence of literals and of character classes
    under a quantifier, with one capture group around a class.  [exec]
    is the backtracking search of the engine on such sequences. *)
(* ================================================================== *)

Module Re.

Inductive Quant : Type :=
| One        (** exactly one *)
| Plus       (** one or more, greedy *)
| Star       (** zero or more, greedy *)
| StarLazy.  (** zero or more, lazy *)

Inductive Atom : Type :=
| Lit (s : string)
| Class (p : ascii -> bool) (q : Quant) (captured : bool).

Definition Regex := list Atom.

Fixpoint stripPrefix (p s : string) {struct p} : option string :=
  match p, s with
  | EmptyString, _ => Some s
  | String a p', String b s' => if Ascii.eqb a b then stripPrefix p' s' else None
  | String _ _, EmptyString => None
  end.

(** Every way of cutting a run of class characters off the front of
    [s]: [(run, rest)] from the shortest run to the longest. *)
Fixpoint runs (p : ascii -> bool) (s : string) : list (string * string) :=
  (EmptyString, s) ::
  match s with
  | String c s' =>
      if p c then List.map (fun '(r, t) => (String c r, t)) (runs p s') else []
  | EmptyString => []
  end.

Definition choices (p : ascii -> bool) (q : Quant) (s : string)
  : list (string * string) :=
  match q with
  | One => List.filter (fun '(r, _) => Nat.eqb (String.length r) 1) (runs p s)
  | Plus => rev (List.tl (runs p s))
  | Star => rev (runs p s)
  | StarLazy => runs p s
  end.

(** The first alternative that lets the rest of the pattern match. *)
Fixpoint firstSome {A B} (f : A -> option B) (l : list A) : option B :=
  match l with
  | [] => None
  | x :: l' => match f x with Some b => Some b | None => firstSome f l' end
  end.

(** Matches [r] at the start of [s]: the capture and the text left
    after the match. *)
Fixpoint matchHere (r : Regex) (s : string) (cap : string)
  : option (string * string) :=
  match r with
  | [] => Some (cap, s)
  | Lit l :: r' =>
      match stripPrefix l s with
      | Some s' => matchHere r' s' cap
      | None => None
      end
  | Class p q captured :: r' =>
      firstSome
        (fun '(run, rest) => matchHere r' rest (if captured then run else cap))
        (choices p q s)
  end.

(** The [while ((match = RE.exec(content)))] loop of a global regex:
    the leftmost match from [lastIndex], then on from its end.
    [skip] counts the characters still covered by the last match. *)
Fixpoint execAll (r : Regex) (s : string) (skip : nat) : list string :=
  match skip with
  | S k =>
      match s with
      | EmptyString => []
      | String _ s' => execAll r s' k
      end
  | O =>
      match matchHere r s EmptyString with
      | Some (cap, rest) =>
          let consumed := (String.length s - String.length rest)%nat in
          cap ::
          match s with
          | EmptyString => []
          | String _ s' => execAll r s' (consumed - 1)
          end
      | None =>
          match s with
          | EmptyString => []
          | String _ s' => execAll r s' 0
          end
      end
  end.

Definition isOneOf (l : list nat) (c : ascii) : bool :=
  existsb (Nat.eqb (nat_of_ascii c)) l.

(** [\s] on 8-bit code units: tab, LF, VT, FF, CR, space, NBSP. *)
Definition ws : ascii -> bool := isOneOf [9; 10; 11; 12; 13; 32; 160]%nat.
(** The class of the two quote characters. *)
Definition quote : ascii -> bool := isOneOf [34; 39]%nat.
Definition notQuote (c : ascii) : bool := negb (quote c).
(** [[^;]] *)
Definition notSemicolon (c : ascii) : bool := negb (isOneOf [59]%nat c).

Definition IMPORT_FROM_RE : Regex :=
  [Lit "import"; Class ws Plus false; Class notSemicolon StarLazy false;
   Class ws One false; Lit "from"; Class ws Plus false;
   Class quote One false; Class notQuote Plus true; Class quote One false].

Definition IMPORT_BARE_RE : Regex :=
  [Lit "import"; Class ws Plus false;
   Class quote One false; Class notQuote Plus true; Class quote One false].

Definition REQUIRE_RE : Regex :=
  [Lit "require("; Class ws Star false;
   Class quote One false; Class notQuote Plus true; Class quote One false;
   Class ws Star false; Lit ")"].

End Re.

(* ================================================================== *)
(** ** Import specifiers and their resolution *)
(* ================================================================== *)

(** [specs.add(x)] on a [Set] whose iteration order is observed. *)
Definition setAdd (specs : list string) (x : string) : list string :=
  if existsb (String.eqb x) specs then specs else (specs ++ [x])%list.

(** [isLocalImportSpecifier(spec)] *)
Definition isLocalImportSpecifier (spec : string) : bool :=
  Js.startsWith spec "./" || Js.startsWith spec "../".

(** [extractImportSpecifiers(fileContent)] *)
Definition extractImportSpecifiers (fileContent : string) : list string :=
  let specs := [] in
  let specs := fold_left setAdd (Re.execAll Re.IMPORT_FROM_RE fileContent 0) specs in
  let specs := fold_left setAdd (Re.execAll Re.IMPORT_BARE_RE fileContent 0) specs in
  let specs := fold_left setAdd (Re.execAll Re.REQUIRE_RE fileContent 0) specs in
  specs.

(** The probes of [resolveImportToRelativeFile], in their order. *)
Definition importCandidates (fromFileRelPath importSpec : string) : list string :=
  let fromDir := path.dirname (Js.replaceBackslashes fromFileRelPath) in
  let base := path.normalize (path.join fromDir (Js.replaceBackslashes importSpec)) in
  [ base;
    base ++ ".js";
    base ++ ".jsx";
    base ++ ".ts";
    base ++ ".tsx";
    path.join base "index.js";
    path.join base "index.jsx";
    path.join base "index.ts";
    path.join base "index.tsx" ].

(** [resolveImportToRelativeFile(fromFileRelPath, importSpec,
    existingRelPathsSet)]; [None] is the source's [null]. *)
Definition resolveImportToRelativeFile (fromFileRelPath importSpec : string)
  (existingRelPathsSet : gset string) : option string :=
  List.find (fun candidate => bool_decide (candidate ∈ existingRelPathsSet))
    (importCandidates fromFileRelPath importSpec).

(* ================================================================== *)
(** ** The local-imports graph *)
(* ================================================================== *)

Record GraphNode := { id : string }.
Record Edge := { source : string; target : string }.
Record Graph := { nodes : list GraphNode; edges : list Edge }.

Definition CODE_EXTENSIONS : gset string := list_to_set [".js"; ".jsx"; ".ts"; ".tsx"].

Definition isCodeFile (absPath : string) : bool :=
  bool_decide (Js.toLowerCase (path.extname absPath) ∈ CODE_EXTENSIONS).

(** [`${fromRelPath}=>${targetRelPath}`] *)
Definition edgeKeyOf (fromRelPath targetRelPath : string) : string :=
  fromRelPath ++ "=>" ++ targetRelPath.

(** What the graph loops carry: [edges] and [edgeKeySet]. *)
Definition EdgeState : Type := list Edge * gset string.

(** The body of the loop over [localImportSpecs]. *)
Definition addImport (fromRelPath : string) (relPathsSet : gset string)
  (st : EdgeState) (spec : string) : EdgeState :=
  match resolveImportToRelativeFile fromRelPath spec relPathsSet with
  | None => st
  | Some targetRelPath =>
      if Js.isEmpty targetRelPath then st
      else
        let edgeKey := edgeKeyOf fromRelPath targetRelPath in
        if bool_decide (edgeKey ∈ st.2) then st
        else ((st.1 ++ [{| source := fromRelPath; target := targetRelPath |}])%list,
              {[edgeKey]} ∪ st.2)
  end.

Definition localImportSpecsOf (fileContent : string) : list string :=
  List.filter isLocalImportSpecifier (extractImportSpecifiers fileContent).

Section Analysis.

Variable cwd : string.
(** The disk the analysis reads. *)
Variable disk : Disk.

(** The body of the loop over [codeFilesAbs]; an unreadable file is
    skipped by the [catch]. *)
Definition scanFile (relPathsSet : gset string) (st : EdgeState)
  (file : string * string) : EdgeState :=
  let '(absPath, fromRelPath) := file in
  match Fs.readFile cwd absPath disk with
  | Throw _ => st
  | Ok fileContent =>
      fold_left (addImport fromRelPath relPathsSet) (localImportSpecsOf fileContent) st
  end.

(** [buildLocalImportsGraph(rootDir, filePathsAbs)] *)
Definition buildLocalImportsGraph (rootDir : string) (filePathsAbs : list string)
  : Graph :=
  let codeFilesAbs := List.filter isCodeFile filePathsAbs in
  let relPaths := List.map (relPathOf cwd rootDir) codeFilesAbs in
  let relPathsSet : gset string := list_to_set relPaths in
  let nodes := List.map (fun i => {| id := i |}) relPaths in
  let st := fold_left (scanFile relPathsSet) (combine codeFilesAbs relPaths) ([], ∅) in
  {| nodes := nodes; edges := st.1 |}.

End Analysis.

(* ================================================================== *)
(** ** Stats *)
(* ================================================================== *)

(** A JS [Map] (or plain object with string keys), in insertion order. *)
Definition JsMap : Type := list (string * Z).

Fixpoint mapGet (k : string) (m : JsMap) : option Z :=
  match m with
  | [] => None
  | (k', v) :: m' => if String.eqb k' k then Some v else mapGet k m'
  end.

(** [m.set(k, v)]: a present key keeps its place. *)
Fixpoint mapSet (k : string) (v : Z) (m : JsMap) : JsMap :=
  match m with
  | [] => [(k, v)]
  | (k', v') :: m' => if String.eqb k' k then (k', v) :: m' else (k', v') :: mapSet k v m'
  end.

(** [m.get(k) || 0] *)
Definition getOrZero (k : string) (m : JsMap) : Z :=
  match mapGet k m with
  | Some v => v
  | None => 0
  end.

Definition bump (m : JsMap) (k : string) : JsMap := mapSet k (getOrZero k m + 1) m.

Record DegreeEntry := { entryId : string; degree : Z }.

Record GraphStats := {
  nodesCount : Z;
  edgesCount : Z;
  topDegree : list DegreeEntry
}.

Record AnalysisStats := { exts : JsMap; graph : GraphStats }.

(** [path.extname(relPath).toLowerCase() || "(none)"] *)
Definition extLabel (relPath : string) : string :=
  let ext := Js.toLowerCase (path.extname relPath) in
  if Js.isEmpty ext then "(none)" else ext.

(** The degree map after the two loops of [buildAnalysisStats]. *)
Definition degreeByNodeOf (g : Graph) : JsMap :=
  let m := fold_left (fun m node => mapSet (id node) 0 m) (nodes g) [] in
  fold_left (fun m edge => bump (bump m (source edge)) (target edge)) (edges g) m.

(** [(a, b) => b[1] - a[1]] *)
Definition byDegreeDesc (a b : string * Z) : Z := b.2 - a.2.

Definition topDegreeOf (g : Graph) : list DegreeEntry :=
  List.map (fun '(i, d) => {| entryId := i; degree := d |})
    (firstn 8 (jsSort byDegreeDesc (degreeByNodeOf g))).

(** [buildAnalysisStats(rootDir, filePathsAbs, graph)] *)
Definition buildAnalysisStats (cwd rootDir : string) (filePathsAbs : list string)
  (g : Graph) : AnalysisStats :=
  let countByExtension :=
    fold_left (fun m absPath => bump m (extLabel (relPathOf cwd rootDir absPath)))
      filePathsAbs [] in
  {| exts := countByExtension;
     graph := {| nodesCount := Z.of_nat (List.length (nodes g));
                 edgesCount := Z.of_nat (List.length (edges g));
                 topDegree := topDegreeOf g |} |}.

(* ================================================================== *)
(** ** The upload route and the central error handler *)
(* ================================================================== *)

Definition MAX_EXTRACTED_TOTAL_BYTES : Z := 1500 * 1024 * 1024.
Definition MAX_EXTRACTED_FILE_BYTES : Z := 30 * 1024 * 1024.
Definition MAX_EXTRACTED_FILES : Z := 15000.

Definition serverLimits : Limits :=
  {| maxFiles := MAX_EXTRACTED_FILES;
     maxFileBytes := MAX_EXTRACTED_FILE_BYTES;
     maxTotalBytes := MAX_EXTRACTED_TOTAL_BYTES |}.

(** [req.file], as multer leaves it. *)
Record UploadedFile := {
  originalname : string;
  size : Z;
  filename : string;
  filePath : string
}.

Record BaseResponse := {
  respOriginalName : string;
  respSize : Z;
  respStoredAs : string;
  respExt : string
}.

Inductive Body : Type :=
| ErrorBody (error : string)
| SavedBody (base : BaseResponse) (note : string)
| AnalysisBody (base : BaseResponse) (jobId : string) (filesCount : Z)
    (stats : AnalysisStats) (tree : TreeNode) (graph : Graph).

(** [res.status(status).json(body)] *)
Record Response := { status : Z; body : Body }.

(** The central error handler. *)
Definition errorHandler (err : JsError) : Response :=
  if String.eqb (message err) INVALID_FILE_TYPE then
    {| status := 400; body := ErrorBody "Only ZIP / RAR / 7Z files are allowed." |}
  else if String.eqb (code err) "LIMIT_FILE_SIZE" then
    {| status := 413; body := ErrorBody "File is too large (limit: 100MB)." |}
  else if String.eqb (message err) UNSAFE_ZIP_PATH then
    {| status := 400;
       body := ErrorBody "Invalid ZIP: unsafe file path found inside the archive." |}
  else if String.eqb (message err) ZIP_LIMITS_EXCEEDED then
    {| status := 413;
       body := ErrorBody "ZIP exceeds extraction limits (too many files or extracted size too large)." |}
  else {| status := 500; body := ErrorBody "Server error" |}.

Definition ignoredFolderNames : list string :=
  ["node_modules"; ".git"; "dist"; "build"; "coverage"; ".next"; ".nuxt";
   ".svelte-kit"; ".cache"; ".turbo"; ".vite"; "out"].

(** The predicate of [allExtractedFilesAbs.filter]. *)
Definition isAnalyzed (cwd extractionTargetDir absPath : string) : bool :=
  let relPath := relPathOf cwd extractionTargetDir absPath in
  negb (existsb (fun folder => existsb (String.eqb folder) (Js.splitSlash relPath))
          ignoredFolderNames).

(** The server's state: the disk and the cleanups waiting for their
    timer, each an archive path and an extraction directory. *)
Record World := { disk : Disk; timers : list (string * string) }.

Section Server.

Variable localeCompare : string -> string -> Z.
Variable cwd : string.
(** [__dirname] *)
Variable dirname__ : string.
(** [unzipper.Open.file]: the entries of the archive stored at a path. *)
Variable openZip : string -> Result (list Entry).

Definition EXTRACTED_DIR : string := path.join dirname__ "extracted".

(** [walkDirectoryFiles(dir)]: the files below [dir], which the
    source collects directory by directory.  The order in which
    [readdir] lists a directory is the file system's; the order of the
    disk map stands for it. *)
Definition walkDirectoryFiles (dir : string) (d : Disk) : list string :=
  let prefix := path.resolve cwd dir ++ path.sep in
  List.map fst
    (List.filter
       (fun '(k, n) => match n with
                       | FileNode _ => Js.startsWith k prefix
                       | DirNode => false
                       end)
       (map_to_list d)).

(** The [/upload] route after multer, with the central error handler
    behind [next(err)].  [jobId] is what [crypto.randomUUID()] gave. *)
Definition uploadRoute (file : option UploadedFile) (jobId : string) (w : World)
  : Response * World :=
  match file with
  | None => ({| status := 400; body := ErrorBody "No file uploaded" |}, w)
  | Some f =>
      let uploadedExtension := Js.toLowerCase (path.extname (originalname f)) in
      let baseResponse :=
        {| respOriginalName := originalname f; respSize := size f;
           respStoredAs := filename f; respExt := uploadedExtension |} in
      if negb (String.eqb uploadedExtension ".zip") then
        ({| status := 200;
            body := SavedBody baseResponse
              "RAR/7Z were saved on the server. Currently, analysis (tree/graph) is enabled only for ZIP. RAR/7Z extraction can be added later." |},
         w)
      else
        let archivePath := filePath f in
        let extractionTargetDir := path.join EXTRACTED_DIR jobId in
        match safeExtractZip cwd (openZip archivePath) extractionTargetDir
                serverLimits (disk w) with
        | (Throw err, d') => (errorHandler err, {| disk := d'; timers := timers w |})
        | (Ok _, d') =>
            let allExtractedFilesAbs := walkDirectoryFiles extractionTargetDir d' in
            let analyzedFilesAbs :=
              List.filter (isAnalyzed cwd extractionTargetDir) allExtractedFilesAbs in
            let fileTree :=
              buildFileTreeFromPaths localeCompare cwd extractionTargetDir
                analyzedFilesAbs in
            let importsGraph :=
              buildLocalImportsGraph cwd d' extractionTargetDir analyzedFilesAbs in
            let stats :=
              buildAnalysisStats cwd extractionTargetDir analyzedFilesAbs importsGraph in
            ({| status := 200;
                body := AnalysisBody baseResponse jobId
                          (Z.of_nat (List.length analyzedFilesAbs))
                          stats fileTree importsGraph |},
             {| disk := d';
                timers := (timers w ++ [(archivePath, extractionTargetDir)])%list |})
        end
  end.

End Server.

(** Code-unit order on strings, a stand-in collation for examples. *)
Definition codeUnitCompare (a b : string) : Z :=
  match String.compare a b with
  | Lt => -1
  | Eq => 0
  | Gt => 1
  end.

(* ================================================================== *)
(** ** The upload filter and the cleanup of a job *)
(* ================================================================== *)

Definition ALLOWED_ARCHIVE_EXTENSIONS : list string := [".zip"; ".rar"; ".7z"].

(** The [fileFilter] given to multer: [callback(null, true)], or
    [callback(new Error("INVALID_FILE_TYPE"), false)]. *)
Definition fileFilter (originalname : string) : Result bool :=
  let ext := Js.toLowerCase (path.extname originalname) in
  if negb (existsb (String.eqb ext) ALLOWED_ARCHIVE_EXTENSIONS)
  then Throw (Error INVALID_FILE_TYPE)
  else Ok true.

(** [k] is the resolved path [p] or lies below it. *)
Definition atOrBelow (p k : string) : bool :=
  String.eqb k p ||
  Js.startsWith k (if String.eqb p "/" then "/" else p ++ path.sep).

(** [fs.existsSync(p)] *)
Definition existsSync (cwd p : string) (d : Disk) : bool :=
  let key := path.resolve cwd p in
  String.eqb key "/" ||
  match d !! key with
  | Some _ => true
  | None => false
  end.

(** [fs.promises.rm(p, { recursive: true, force: true })]: the node at
    [p] goes, with everything below it. *)
Definition rmRecursive (cwd p : string) : M unit :=
  fun d =>
    (Ok tt, filter (fun kn => negb (atOrBelow (path.resolve cwd p) kn.1)) d).

(** [safeRemovePath(targetPath)] *)
Definition safeRemovePath (cwd targetPath : string) : M unit :=
  if Js.isEmpty targetPath then ret tt
  else fun d =>
         if negb (existsSync cwd targetPath d) then (Ok tt, d)
         else rmRecursive cwd targetPath d.

(** The callback that [scheduleJobCleanup] hands to [setTimeout]: both
    removals inside a [try] whose [catch] drops the error. *)
Definition cleanupJob (cwd : string) (job : string * string) (d : Disk) : Disk :=
  let '(archivePath, extractionTargetDir) := job in
  (( safeRemovePath cwd archivePath ;;;
     safeRemovePath cwd extractionTargetDir ) d).2.

(* ================================================================== *)
(** * Vocabulary of the properties

    The predicates and the sample inputs that the statements below are
    written with. *)
(* ================================================================== *)

(** ** For the safe extraction *)

Fixpoint noSlash (s : string) : bool :=
  match s with
  | EmptyString => true
  | String c s' => negb (Ascii.eqb c Js.slash) && noSlash s'
  end.

(** [n] has ".." among its segments. *)
Definition hasParentSegment (n : string) : Prop := In ".." (Js.splitSlash n).

(** The shape of the stack of [normStep] when climbing above the start
    is allowed: names on top of a run of "..". *)
Definition dotsBelow (stack : list string) : Prop :=
  exists names k, stack = (names ++ repeat ".." k)%list /\ ~ In ".." names.

(** The entry gets past the count and declared-size checks. *)
Definition passesLimitChecks (limits : Limits) (st : Counters) (entry : Entry) : Prop :=
  extractedFilesCount st + 1 <= maxFiles limits /\
  declaredSize entry <= maxFileBytes limits /\
  extractedTotalBytes st + declaredSize entry <= maxTotalBytes limits.

(** From [d] to [d'] nothing changed at [k], or a directory appeared. *)
Definition keptOrNewDir (d d' : Disk) (k : string) : Prop :=
  d' !! k = d !! k \/ (d !! k = None /\ d' !! k = Some DirNode).

(** Outside [resolvedRoot] no file was created, changed or removed. *)
Definition writesOnlyInside (resolvedRoot : string) (d d' : Disk) : Prop :=
  forall k, insideDir resolvedRoot k = false -> keptOrNewDir d d' k.

Definition sumBytes (chunks : list string) : Z :=
  fold_right (fun c acc => bytes c + acc) 0 chunks.

(** The part of the loop body that follows the path guards: create the
    parent directories, open the file, pipe the stream. *)
Definition writeEntry (cwd : string) (limits : Limits) (destinationPath : string)
  (entry : Entry) (next : Counters) : M Counters :=
  Fs.mkdirRecursive cwd (path.dirname destinationPath) ;;;
  key <- Fs.openWrite cwd destinationPath ;;
  pipeWithLimit limits key 0 (stream entry) ;;;
  ret next.

Definition countersAfter (st : Counters) (entry : Entry) : Counters :=
  {| extractedTotalBytes := extractedTotalBytes st + declaredSize entry;
     extractedFilesCount := extractedFilesCount st + 1 |}.

(** The loop has reached [entry]: the target directory was created, the
    entries before it were extracted, and [entry] is a file that gets
    past the count and declared-size checks. *)
Definition reachesPathCheck (cwd targetDir : string) (limits : Limits)
  (before : list Entry) (entry : Entry) (d0 : Disk) (st : Counters) (d : Disk) : Prop :=
  (exists d1, Fs.mkdirRecursive cwd targetDir d0 = (Ok tt, d1) /\
     extractEntries cwd targetDir limits
       {| extractedTotalBytes := 0; extractedFilesCount := 0 |} before d1 = (Ok st, d))
  /\ type entry = File
  /\ passesLimitChecks limits st entry.

(** The loop has reached [entry] and opened its destination file at
    [key], leaving the disk [d2]: the stream is about to be piped. *)
Definition reachesStreaming (cwd targetDir : string) (limits : Limits)
  (before : list Entry) (entry : Entry) (d0 : Disk) (st : Counters)
  (key : string) (d2 : Disk) : Prop :=
  let destinationPath := path.join targetDir (normalizedRelPathOf entry) in
  exists d d1,
    reachesPathCheck cwd targetDir limits before entry d0 st d
    /\ unsafeRelPath (normalizedRelPathOf entry) = false
    /\ insideDir (path.resolve cwd targetDir) (path.resolve cwd destinationPath) = true
    /\ Fs.mkdirRecursive cwd (path.dirname destinationPath) d = (Ok tt, d1)
    /\ Fs.openWrite cwd destinationPath d1 = (Ok key, d2).

Definition tinyLimits : Limits := {| maxFiles := 10; maxFileBytes := 4; maxTotalBytes := 6 |}.

Definition sizeLiar (name : string) (declared : option Z) (chunks : list string) : Entry :=
  {| type := File; entryPath := name; uncompressedSize := declared;
     stream := List.map Data chunks |}.

(** The bytes held by the files at or below [resolvedRoot]. *)
Definition bytesUnder (resolvedRoot : string) (d : Disk) : Z :=
  map_fold
    (fun k n acc =>
       match n with
       | FileNode c => if insideDir resolvedRoot k then bytes c + acc else acc
       | DirNode => acc
       end) 0 d.

(** Two entries that declare no size and stream 4 bytes each. *)
Definition spoofedArchive : list Entry :=
  [sizeLiar "a.bin" (Some 0) ["aaaa"]; sizeLiar "b.bin" None ["bbbb"]].

Definition isZipUpload (f : UploadedFile) : Prop :=
  Js.toLowerCase (path.extname (originalname f)) = ".zip".

(** The extraction run by the route for [f] and [jobId] fails with
    [err], leaving the disk [d']. *)
Definition extractionFails (cwd dirname__ : string)
  (openZip : string -> Result (list Entry)) (f : UploadedFile) (jobId : string)
  (w : World) (err : JsError) (d' : Disk) : Prop :=
  safeExtractZip cwd (openZip (filePath f))
    (path.join (EXTRACTED_DIR dirname__) jobId) serverLimits (disk w)
  = (Throw err, d').

(** What the spec asks of the caller: once the failure is reported,
    nothing is left at or below the extraction directory. *)
Definition failedJobLeavesNoDirectory : Prop :=
  forall localeCompare cwd dirname__ openZip f jobId w err d',
    isZipUpload f ->
    extractionFails cwd dirname__ openZip f jobId w err d' ->
    forall k,
      insideDir (path.resolve cwd (path.join (EXTRACTED_DIR dirname__) jobId)) k = true ->
      disk (uploadRoute localeCompare cwd dirname__ openZip (Some f) jobId w).2 !! k = None.

Definition slipArchive : list Entry :=
  [ {| type := File; entryPath := "src/index.js"; uncompressedSize := Some 17;
       stream := [Data "require('./util')"] |};
    {| type := File; entryPath := "../evil"; uncompressedSize := Some 0; stream := [] |} ].

Definition slipUpload : UploadedFile :=
  {| originalname := "b.zip"; size := 100; filename := "2-b.zip";
     filePath := "/srv/uploads/2-b.zip" |}.

Definition emptyWorld : World := {| disk := ∅; timers := [] |}.

(** An archive with one safe entry: its extraction succeeds. *)
Definition plainArchive : list Entry :=
  [ {| type := File; entryPath := "src/index.js"; uncompressedSize := Some 17;
       stream := [Data "require('./util')"] |} ].

(** ** For the tree builder *)

(** [a] may stand before [b] in a sorted list. *)
Definition notAfter {A : Type} (cmp : A -> A -> Z) (a b : A) : Prop := cmp a b <= 0.

(** What a collation is: a consistent three-way comparison of names.
    Names that differ may compare equal, as they do for the engine's
    [localeCompare]. *)
Record collation (localeCompare : string -> string -> Z) : Prop := {
  co_refl : forall a, localeCompare a a = 0;
  co_flip : forall a b, localeCompare a b > 0 <-> localeCompare b a < 0;
  co_trans : forall a b c,
    localeCompare a b <= 0 -> localeCompare b c <= 0 -> localeCompare a c <= 0
}.

(** A collation under which only equal names compare equal. *)
Record totalOrderCompare (localeCompare : string -> string -> Z) : Prop := {
  lc_refl : forall a, localeCompare a a = 0;
  lc_eq : forall a b, localeCompare a b = 0 -> a = b;
  lc_flip : forall a b, localeCompare a b > 0 <-> localeCompare b a < 0;
  lc_trans : forall a b c,
    localeCompare a b <= 0 -> localeCompare b c <= 0 -> localeCompare a c <= 0
}.

(** A relative path made of non-empty segments with one "/" between
    them, as [path.relative] gives for a file below the root. *)
Definition canonicalRelPath (relPath : string) : Prop :=
  Js.joinSlash (partsOf relPath) = relPath.

(** Children in the order the source sorts them into. *)
Definition childrenSorted (localeCompare : string -> string -> Z)
  (children : list TreeNode) : Prop :=
  StronglySorted (fun a b => compareNodes localeCompare a b <= 0) children.

(** Every folder of the tree has its children in sorted order. *)
Inductive TreeSorted (localeCompare : string -> string -> Z) : TreeNode -> Prop :=
| TreeSorted_file n p : TreeSorted localeCompare (FileLeaf n p)
| TreeSorted_folder n children :
    childrenSorted localeCompare children ->
    Forall (TreeSorted localeCompare) children ->
    TreeSorted localeCompare (Folder n children).

(** Induction on trees, with the hypothesis for every child. *)
Fixpoint TreeNode_rect' (P : TreeNode -> Prop)
  (Hfile : forall n p, P (FileLeaf n p))
  (Hfolder : forall n children, Forall P children -> P (Folder n children))
  (t : TreeNode) : P t :=
  match t with
  | FileLeaf n p => Hfile n p
  | Folder n children =>
      Hfolder n children
        ((fix go (l : list TreeNode) : Forall P l :=
            match l with
            | [] => List.Forall_nil P
            | x :: l0 => @List.Forall_cons _ P x l0 (TreeNode_rect' P Hfile Hfolder x) (go l0)
            end) children)
  end.

(** The sorted form of a list of children, subtrees included. *)
Definition sortForest (localeCompare : string -> string -> Z)
  (children : list TreeNode) : list TreeNode :=
  sortChildren localeCompare (List.map (sortTree localeCompare) children).

(** [insertParts] on sorted children: the new node goes to its place. *)
Fixpoint placeParts (localeCompare : string -> string -> Z) (relPath : string)
  (parts : list string) (children : list TreeNode) : list TreeNode :=
  match parts with
  | [] => children
  | [name] => insertSorted (compareNodes localeCompare) (FileLeaf name relPath) children
  | name :: rest =>
      if hasFolder name children
      then inFolder name (placeParts localeCompare relPath rest) children
      else insertSorted (compareNodes localeCompare)
             (Folder name (placeParts localeCompare relPath rest [])) children
  end.

(** One round of the outer loop, on sorted children. *)
Definition placePath (localeCompare : string -> string -> Z) (cwd rootDir : string)
  (children : list TreeNode) (absPath : string) : list TreeNode :=
  let relPath := relPathOf cwd rootDir absPath in
  placeParts localeCompare relPath (partsOf relPath) children.

Fixpoint noBackslash (s : string) : bool :=
  match s with
  | EmptyString => true
  | String c s' => negb (Ascii.eqb c Js.backslash) && noBackslash s'
  end.

(** The claim as the spec has it: any arrangement of a list of distinct
    paths gives the same tree, whatever the collation. *)
Definition treeOrderIndependent : Prop :=
  forall localeCompare cwd rootDir (l1 l2 : list string),
    collation localeCompare ->
    List.NoDup l1 -> Permutation l1 l2 ->
    buildFileTreeFromPaths localeCompare cwd rootDir l1
    = buildFileTreeFromPaths localeCompare cwd rootDir l2.

(** The control character U+0001, to which the engine's collation
    gives no weight: a name and the same name followed by it compare
    equal. *)
Definition ctrlA : string := String (ascii_of_nat 1) EmptyString.

(** [s] without the code units U+0001. *)
Fixpoint dropWeightless (s : string) : string :=
  match s with
  | EmptyString => EmptyString
  | String c s' =>
      if Ascii.eqb c (ascii_of_nat 1) then dropWeightless s'
      else String c (dropWeightless s')
  end.

(** A collation that, like the engine's, gives no weight to U+0001; it
    orders what is left of the names by code unit. *)
Definition weightlessCompare (a b : string) : Z :=
  codeUnitCompare (dropWeightless a) (dropWeightless b).

(** The parts of the relative form of every path of the list. *)
Definition partsOfAll (cwd rootDir : string) (filePathsAbs : list string)
  : list (list string) :=
  List.map (fun p => partsOf (relPathOf cwd rootDir p)) filePathsAbs.

(** [a] and [b] name two nodes of one kind under one parent: two paths
    run through the same names [above], then through [a] and [b], and
    both end there (two files) or both go on (two folders). *)
Definition siblingNames (allParts : list (list string)) (a b : string) : Prop :=
  exists above below below',
    In (above ++ a :: below)%list allParts
    /\ In (above ++ b :: below')%list allParts
    /\ (below = [] <-> below' = []).

(** The collation tells apart the names that the sort has to order:
    sibling names of one kind that compare equal are the same name. *)
Definition separatesSiblings (localeCompare : string -> string -> Z)
  (allParts : list (list string)) : Prop :=
  forall a b, siblingNames allParts a b -> localeCompare a b = 0 -> a = b.

(** The collation with its ties broken by code unit. *)
Definition tieBroken (localeCompare : string -> string -> Z) (a b : string) : Z :=
  if localeCompare a b =? 0 then codeUnitCompare a b else localeCompare a b.

(** Every node below [t] stands for a path of [allParts]: a file at
    the names [above] for a path that ends there, a folder for a path
    that goes on. *)
Inductive Covers (allParts : list (list string)) : list string -> TreeNode -> Prop :=
| Covers_file above n p :
    In (above ++ [n])%list allParts -> Covers allParts above (FileLeaf n p)
| Covers_folder above n children :
    (exists below, below <> [] /\ In (above ++ n :: below)%list allParts) ->
    Forall (Covers allParts (above ++ [n])%list) children ->
    Covers allParts above (Folder n children).

(** Two comparators order the nodes of [children] alike. *)
Definition siblingsAgree (localeCompare localeCompare' : string -> string -> Z)
  (children : list TreeNode) : Prop :=
  forall x y, In x children -> In y children ->
    compareNodes localeCompare x y = compareNodes localeCompare' x y.

(** ** For the import resolver and the graph *)

(** The double-quote character, and [import "spec"] written with it. *)
Definition dquote : string := String (ascii_of_nat 34) EmptyString.

Definition importBare (spec : string) : string :=
  "import " ++ dquote ++ spec ++ dquote.

Definition exampleDisk (content : string) : Disk :=
  list_to_map [("/r/a/b.js", FileNode content); ("/r/a/c.js", FileNode "")].

(** What the loops keep true of [edges] and [edgeKeySet]: no edge twice,
    and the key of every edge is in the set. *)
Definition edgesTracked (st : EdgeState) : Prop :=
  NoDup st.1 /\
  forall e, In e st.1 -> edgeKeyOf (source e) (target e) ∈ st.2.

(** Every edge was added for a file of the scan that could be read. *)
Definition sourcesReadable (cwd : string) (d : Disk)
  (files : list (string * string)) (st : EdgeState) : Prop :=
  forall e, In e st.1 ->
    exists absPath fileContent,
      In (absPath, source e) files /\ Fs.readFile cwd absPath d = Ok fileContent.

Definition unreadable (cwd : string) (d : Disk) (absPath : string) : Prop :=
  exists err, Fs.readFile cwd absPath d = Throw err.

(** The edge that an import of [fromRelPath] stands for, when its
    specifier resolves. *)
Definition resolvedImport (known : gset string) (fromRelPath spec : string)
  : list Edge :=
  match resolveImportToRelativeFile fromRelPath spec known with
  | Some targetRelPath =>
      if Js.isEmpty targetRelPath then []
      else [{| source := fromRelPath; target := targetRelPath |}]
  | None => []
  end.

(** The imports of the scan that resolve, as edges, in the order in
    which the two loops meet them; an edge is there once for every
    specifier that gives it. *)
Definition resolvedImports (cwd : string) (d : Disk) (rootDir : string)
  (filePathsAbs : list string) : list Edge :=
  let codeFilesAbs := List.filter isCodeFile filePathsAbs in
  let relPaths := List.map (relPathOf cwd rootDir) codeFilesAbs in
  let known : gset string := list_to_set relPaths in
  flat_map
    (fun '(absPath, fromRelPath) =>
       match Fs.readFile cwd absPath d with
       | Ok fileContent =>
           flat_map (resolvedImport known fromRelPath) (localImportSpecsOf fileContent)
       | Throw _ => []
       end)
    (combine codeFilesAbs relPaths).

Definition sameEdge (e e' : Edge) : bool :=
  String.eqb (source e) (source e') && String.eqb (target e) (target e').

(** The edge list as the claim has it: of a list of edges, one edge
    for every ordered (source, target) pair, at the place where the
    pair comes first. *)
Definition addPair (acc : list Edge) (e : Edge) : list Edge :=
  if existsb (sameEdge e) acc then acc else (acc ++ [e])%list.

Definition onePerPair (imports : list Edge) : list Edge :=
  fold_left addPair imports [].

(** The id holds no "=>". *)
Definition noArrow (relPath : string) : Prop := Js.includes relPath "=>" = false.

(** What the loops keep true of [edges] and [edgeKeySet] while no
    source holds "=>": the set holds the keys of the edges and nothing
    else. *)
Definition keysAreEdges (st : EdgeState) : Prop :=
  (forall e, In e st.1 -> edgeKeyOf (source e) (target e) ∈ st.2)
  /\ (forall k, k ∈ st.2 -> exists e, In e st.1 /\ edgeKeyOf (source e) (target e) = k)
  /\ (forall e, In e st.1 -> noArrow (source e)).

(** Four source-code files: p.js imports the file called q.js=>r.js,
    and the file called p.js=>q.js names r.js in an import statement
    and in a require call. *)
Definition collisionContent : string :=
  "import r from './r.js'; const again = require('./r.js');".

Definition collisionDisk : Disk :=
  list_to_map
    [("/r/p.js", FileNode "import q from './q.js=>r.js';");
     ("/r/p.js=>q.js", FileNode collisionContent);
     ("/r/q.js=>r.js", FileNode "");
     ("/r/r.js", FileNode "")].

Definition collisionFiles : list string :=
  ["/r/p.js"; "/r/p.js=>q.js"; "/r/q.js=>r.js"; "/r/r.js"].

(** ** For the stats *)

Definition keysOf (m : JsMap) : list string := List.map fst m.

(** The number of ends of [e] that are [i]. *)
Definition endsAt (i : string) (e : Edge) : Z :=
  (if String.eqb (source e) i then 1 else 0) +
  (if String.eqb (target e) i then 1 else 0).

Definition outDegree (g : Graph) (i : string) : Z :=
  Z.of_nat (List.length (List.filter (fun e => String.eqb (source e) i) (edges g))).

Definition inDegree (g : Graph) (i : string) : Z :=
  Z.of_nat (List.length (List.filter (fun e => String.eqb (target e) i) (edges g))).

Definition nodeIds (g : Graph) : list string := List.map id (nodes g).

(** Every edge runs between nodes of the graph. *)
Definition graphClosed (g : Graph) : Prop :=
  forall e, In e (edges g) -> In (source e) (nodeIds g) /\ In (target e) (nodeIds g).

Definition bumpEnds (m : JsMap) (edge : Edge) : JsMap :=
  bump (bump m (source edge)) (target edge).

(** The place of the first occurrence of [i] in [ids]. *)
Fixpoint firstSeen (ids : list string) (i : string) : nat :=
  match ids with
  | [] => O
  | x :: rest => if String.eqb x i then O else S (firstSeen rest i)
  end.

(** [a] ranks before [b]: a greater degree, or the same degree and seen
    earlier in the node list. *)
Definition ranksBefore (g : Graph) (a b : string * Z) : Prop :=
  a.2 > b.2 \/
  (a.2 = b.2 /\ (firstSeen (nodeIds g) a.1 < firstSeen (nodeIds g) b.1)%nat).

Definition seenBefore (ids : list string) (a b : string) : Prop :=
  (firstSeen ids a < firstSeen ids b)%nat.

(** Every edge ends at a path of the analyzed set. *)
Definition targetsKnown (known : gset string) (st : EdgeState) : Prop :=
  forall e, In e st.1 -> target e ∈ known.

Definition threeNodeGraph : Graph :=
  {| nodes := [{| id := "A" |}; {| id := "B" |}; {| id := "C" |}];
     edges := [{| source := "A"; target := "B" |};
               {| source := "B"; target := "C" |};
               {| source := "A"; target := "C" |}] |}.

(** An entry of [topDegree] made of a pair of the degree map. *)
Definition degreeEntryOf (kv : string * Z) : DegreeEntry :=
  {| entryId := kv.1; degree := kv.2 |}.

(** [ranked] is the ranking that the claim describes for [g]: every
    node id once with its incoming plus its outgoing edge count, a
    greater degree first, equal degrees in the order the nodes were
    first seen. *)
Definition isDegreeRanking (g : Graph) (ranked : list (string * Z)) : Prop :=
  (forall i, In i (List.map fst ranked) <-> In i (nodeIds g))
  /\ List.NoDup (List.map fst ranked)
  /\ (forall i d, In (i, d) ranked -> d = inDegree g i + outDegree g i)
  /\ StronglySorted (ranksBefore g) ranked.

(** The code units of the capital and of the small e with acute accent,
    U+00C9 and U+00E9. *)
Definition capitalEAcute : string := String (ascii_of_nat 201) EmptyString.
Definition smallEAcute : string := String (ascii_of_nat 233) EmptyString.

(** ** For the further properties of the extraction *)

(** The entries that the loop does not skip. *)
Definition fileEntries (entries : list Entry) : list Entry :=
  List.filter (fun e => negb (isDirectory e)) entries.

(** The sum of the sizes that the file entries declare. *)
Definition declaredTotal (entries : list Entry) : Z :=
  fold_right (fun e acc => declaredSize e + acc) 0 (fileEntries entries).

Definition zeroCounters : Counters :=
  {| extractedTotalBytes := 0; extractedFilesCount := 0 |}.

(** Where the loop writes [entry]. *)
Definition destinationOf (targetDir : string) (entry : Entry) : string :=
  path.join targetDir (normalizedRelPathOf entry).

(** The entry gets past both path guards. *)
Definition passesPathGuards (cwd targetDir : string) (entry : Entry) : Prop :=
  unsafeRelPath (normalizedRelPathOf entry) = false /\
  insideDir (path.resolve cwd targetDir)
    (path.resolve cwd (destinationOf targetDir entry)) = true.

(** The text of the data chunks of a stream, in order. *)
Fixpoint streamedContent (events : list StreamEvent) : string :=
  match events with
  | [] => EmptyString
  | Data chunk :: rest => chunk ++ streamedContent rest
  | StreamError _ :: rest => streamedContent rest
  end.

(** A file of [d'] is a file of [d], or holds at most [cap] bytes. *)
Definition filesKeptOrCapped (cap : Z) (d d' : Disk) : Prop :=
  forall k c, d' !! k = Some (FileNode c) ->
              d !! k = Some (FileNode c) \/ bytes c <= cap.

(** No file entry of [entries] is written where [entry] is. *)
Definition notOverwrittenBy (cwd targetDir : string) (entry : Entry)
  (entries : list Entry) : Prop :=
  Forall (fun e => path.resolve cwd (destinationOf targetDir e)
                   <> path.resolve cwd (destinationOf targetDir entry))
    (fileEntries entries).

(** No file of [d] lies at or below [resolvedRoot]. *)
Definition noFileUnder (resolvedRoot : string) (d : Disk) : Prop :=
  forall k c, d !! k = Some (FileNode c) -> insideDir resolvedRoot k = false.

(** A file of [d'] is a file of [d], or is at one of [keys] and holds
    at most [cap] bytes. *)
Definition filesKeptOrAt (keys : list string) (cap : Z) (d d' : Disk) : Prop :=
  forall k c, d' !! k = Some (FileNode c) ->
              d !! k = Some (FileNode c) \/ (In k keys /\ bytes c <= cap).

(** The node counts for [bytesUnder]. *)
Definition isFileUnder (resolvedRoot : string) (kn : string * DiskNode) : bool :=
  match kn.2 with
  | FileNode _ => insideDir resolvedRoot kn.1
  | DirNode => false
  end.

(** The totals that the loop forms, one for every file entry: the
    total before it plus the size it declares. *)
Fixpoint runningTotals (total : Z) (entries : list Entry) : list Z :=
  match entries with
  | [] => []
  | entry :: rest =>
      if isDirectory entry then runningTotals total rest
      else (total + declaredSize entry)
             :: runningTotals (total + declaredSize entry) rest
  end.

(** The range in which the sizes of a run are integers that JavaScript
    adds without rounding: no declared size is negative, and a total
    within its cap plus a size within its cap stays within 2^53. *)
Definition addsWithoutRounding (limits : Limits) (entries : list Entry) : Prop :=
  maxFileBytes limits + maxTotalBytes limits <= 2 ^ 53
  /\ Forall (fun entry => 0 <= declaredSize entry) (fileEntries entries).

(** Two entries that declare what they stream: 2 and 3 bytes. *)
Definition honestArchive : list Entry :=
  [sizeLiar "a.bin" (Some 2) ["aa"]; sizeLiar "b.bin" (Some 3) ["bbb"]].

(** ** For the cleanup *)

(** From [d] to [d'] nodes were removed, none added or changed. *)
Definition onlyRemoves (d d' : Disk) : Prop :=
  forall k, d' !! k = d !! k \/ d' !! k = None.

(** ** For the answers of the route *)

(** The texts that the central error handler answers with. *)
Definition errorTexts : list string :=
  ["Only ZIP / RAR / 7Z files are allowed.";
   "File is too large (limit: 100MB).";
   "Invalid ZIP: unsafe file path found inside the archive.";
   "ZIP exceeds extraction limits (too many files or extracted size too large).";
   "Server error"].

(** An answer that reports a failure: 400, 413 or 500 with one of the
    fixed texts, or the 400 of the route for a request without file. *)
Definition isErrorAnswer (r : Response) : Prop :=
  In (status r) [400; 413; 500] /\
  exists text, body r = ErrorBody text /\ In text ("No file uploaded" :: errorTexts).

Definition isSuccessAnswer (r : Response) : Prop :=
  status r = 200 /\
  match body r with
  | ErrorBody _ => False
  | _ => True
  end.

(** ** For the leaves and the folders of the tree *)

(** The file leaves below [t], each with the names on the way down to
    it ([prefix] holds the names above [t]) and its [path]. *)
Fixpoint located (prefix : list string) (t : TreeNode) : list (list string * string) :=
  match t with
  | FileLeaf n p => [((prefix ++ [n])%list, p)]
  | Folder n children => flat_map (located (prefix ++ [n])%list) children
  end.

(** The file leaves of a tree, from the children of its root. *)
Definition leavesOf (t : TreeNode) : list (list string * string) :=
  match t with
  | FileLeaf _ _ => []
  | Folder _ children => flat_map (located []) children
  end.

(** The relative paths that the builder makes a leaf for: those with at
    least one part. *)
Definition placedRelPaths (cwd rootDir : string) (filePathsAbs : list string)
  : list string :=
  List.filter (fun r => match partsOf r with [] => false | _ => true end)
    (List.map (relPathOf cwd rootDir) filePathsAbs).

(** The names of the folders among [children]. *)
Definition folderNames (children : list TreeNode) : list string :=
  List.map nodeName (List.filter isFolder children).

(** No folder of the tree has two folders of one name as children. *)
Inductive FoldersUnique : TreeNode -> Prop :=
| FoldersUnique_file n p : FoldersUnique (FileLeaf n p)
| FoldersUnique_folder n children :
    List.NoDup (folderNames children) ->
    Forall FoldersUnique children ->
    FoldersUnique (Folder n children).

(** ** For the import scan *)

Fixpoint everyChar (p : ascii -> bool) (s : string) : bool :=
  match s with
  | EmptyString => true
  | String c s' => p c && everyChar p s'
  end.

(** What the capture group of the three expressions lets through: at
    least one character, none of them a quote. *)
Definition quoteFreeSpecifier (s : string) : Prop :=
  s <> EmptyString /\ everyChar Re.notQuote s = true.

(** Every capture group of [r] is the group of the specifier. *)
Definition capturesSpecifier (r : Re.Regex) : Prop :=
  Forall (fun a => match a with
                   | Re.Class p q true => p = Re.notQuote /\ q = Re.Plus
                   | _ => True
                   end) r.

Definition hasCapture (r : Re.Regex) : bool :=
  existsb (fun a => match a with Re.Class _ _ captured => captured | _ => false end) r.

(** The edge [e] stands for an import written in a file: a readable
    source-code file of the list has the id of its source, and one of
    the local specifiers found in its content resolves to its target. *)
Definition edgeFromImport (cwd : string) (d : Disk) (rootDir : string)
  (filePathsAbs : list string) (e : Edge) : Prop :=
  let known : gset string :=
    list_to_set (List.map (relPathOf cwd rootDir) (List.filter isCodeFile filePathsAbs)) in
  exists absPath fileContent spec,
    In absPath filePathsAbs /\ isCodeFile absPath = true
    /\ relPathOf cwd rootDir absPath = source e
    /\ Fs.readFile cwd absPath d = Ok fileContent
    /\ In spec (extractImportSpecifiers fileContent)
    /\ isLocalImportSpecifier spec = true
    /\ resolveImportToRelativeFile (source e) spec known = Some (target e).

(** ** For the counts *)

(** The sum of the values of a map. *)
Definition sumValues (m : JsMap) : Z := fold_right Z.add 0 (List.map snd m).

(** The files of the list that are counted under [label]. *)
Definition filesLabelled (cwd rootDir label : string) (filePathsAbs : list string)
  : list string :=
  List.filter (fun p => String.eqb (extLabel (relPathOf cwd rootDir p)) label)
    filePathsAbs.

Definition sumDegrees (l : list DegreeEntry) : Z :=
  fold_right Z.add 0 (List.map degree l).

(** ** For the analysis *)

(** None of the ignored folder names is among [segments]. *)
Definition noIgnoredFolder (segments : list string) : Prop :=
  forall folder, In folder ignoredFolderNames -> ~ In folder segments.

(* ================================================================== *)
(** * Properties of the safe extraction *)
(* ================================================================== *)

(** ** Splitting and joining on "/" *)

Lemma splitSlash_nonempty s : Js.splitSlash s <> [].
Proof.
  destruct s as [|c s]; simpl; [discriminate|].
  destruct (Ascii.eqb c Js.slash); [discriminate|].
  destruct (Js.splitSlash s); discriminate.
Qed.

Lemma splitSlash_noSlash s : Forall (fun p => noSlash p = true) (Js.splitSlash s).
Proof.
  induction s as [|c s IH]; simpl; [repeat constructor|].
  destruct (Ascii.eqb c Js.slash) eqn:E; [by constructor|].
  destruct (Js.splitSlash s) as [|p ps]; [repeat constructor; simpl; by rewrite E|].
  apply Forall_cons in IH as [Hp Hps]. constructor; [|exact Hps].
  simpl. by rewrite E, Hp.
Qed.

Lemma splitSlash_single p : noSlash p = true -> Js.splitSlash p = [p].
Proof.
  induction p as [|c p IH]; simpl; [reflexivity|].
  intros H. apply andb_prop in H as [Hc Hp]. apply negb_true_iff in Hc.
  by rewrite Hc, (IH Hp).
Qed.

Lemma splitSlash_app_slash p t :
  noSlash p = true -> Js.splitSlash (p ++ "/" ++ t) = p :: Js.splitSlash t.
Proof.
  induction p as [|c p IH]; simpl; [reflexivity|].
  intros H. apply andb_prop in H as [Hc Hp]. apply negb_true_iff in Hc.
  by rewrite Hc, (IH Hp).
Qed.

Lemma splitSlash_joinSlash segs :
  segs <> [] -> Forall (fun p => noSlash p = true) segs ->
  Js.splitSlash (Js.joinSlash segs) = segs.
Proof.
  induction segs as [|p segs IH]; [congruence|]. intros _ H.
  apply Forall_cons in H as [Hp Hsegs].
  destruct segs as [|q segs]; [by apply splitSlash_single|].
  change (Js.joinSlash (p :: q :: segs)) with (p ++ "/" ++ Js.joinSlash (q :: segs)).
  rewrite splitSlash_app_slash by exact Hp. f_equal. by apply IH.
Qed.

Lemma splitSlash_trailing s : Js.splitSlash (s ++ "/") = (Js.splitSlash s ++ [""])%list.
Proof.
  induction s as [|c s IH]; simpl; [reflexivity|].
  destruct (Ascii.eqb c Js.slash); [by rewrite IH|].
  rewrite IH. pose proof (splitSlash_nonempty s).
  destruct (Js.splitSlash s); [congruence|reflexivity].
Qed.

Lemma joinSlash_empty_inv segs :
  Js.isEmpty (Js.joinSlash segs) = false -> segs <> [].
Proof. intros H ->. discriminate H. Qed.

Lemma startsWith_app s p t : Js.startsWith s p = true -> Js.startsWith (s ++ t) p = true.
Proof.
  revert s. induction p as [|a p IH]; intros s; simpl; [reflexivity|].
  destruct s as [|b s]; simpl; [discriminate|].
  intros H. apply andb_prop in H as [H1 H2]. by rewrite H1, (IH _ H2).
Qed.

Lemma joinSlash_dotdot_head segs :
  Js.startsWith (Js.joinSlash (".." :: segs)) ".." = true.
Proof. destruct segs; reflexivity. Qed.

(** ** Normalization keeps ".." in front *)

Lemma isDotDot_true p : path.isDotDot p = true <-> p = "..".
Proof. apply String.eqb_eq. Qed.

Lemma isDotDot_false p : path.isDotDot p = false <-> p <> "..".
Proof. apply String.eqb_neq. Qed.

Lemma normStep_dotsBelow stack p :
  dotsBelow stack -> dotsBelow (path.normStep true stack p).
Proof.
  intros (names & k & -> & Hn). unfold path.normStep.
  destruct (path.isSkipped p); [by exists names, k|].
  destruct (path.isDotDot p) eqn:Ep.
  - apply isDotDot_true in Ep as ->.
    destruct names as [|top names]; simpl.
    + destruct k as [|k]; simpl.
      * exists [], 1%nat. split; [reflexivity|intros []].
      * exists [], (S (S k)). split; [reflexivity|intros []].
    + destruct (path.isDotDot top) eqn:Et.
      * apply isDotDot_true in Et as ->. destruct Hn. by left.
      * exists names, k. split; [reflexivity|]. intros H. apply Hn. by right.
  - apply isDotDot_false in Ep. exists (p :: names), k. split; [reflexivity|].
    intros [H|H]; [congruence|contradiction].
Qed.

Lemma fold_normStep_dotsBelow segs stack :
  dotsBelow stack -> dotsBelow (fold_left (path.normStep true) segs stack).
Proof.
  revert stack. induction segs as [|p segs IH]; intros stack H; simpl; [exact H|].
  by apply IH, normStep_dotsBelow.
Qed.

Lemma normSegments_dotdot_head segs :
  In ".." (path.normSegments true segs) ->
  exists rest, path.normSegments true segs = ".." :: rest.
Proof.
  unfold path.normSegments.
  destruct (fold_normStep_dotsBelow segs []) as (names & k & -> & Hn);
    [exists [], 0%nat; split; [reflexivity|intros []]|].
  rewrite rev_app_distr, rev_repeat. intros H.
  apply in_app_or in H as [H|H].
  - destruct k as [|k]; [destruct H|]. simpl. eauto.
  - apply in_rev in H. contradiction.
Qed.

Lemma normStep_subset above stack p x :
  In x (path.normStep above stack p) -> x = p \/ In x stack.
Proof.
  unfold path.normStep.
  destruct (path.isSkipped p); [auto|].
  destruct (path.isDotDot p).
  - destruct stack as [|top rest]; [destruct above; simpl; intuition congruence|].
    destruct (path.isDotDot top); [destruct above; simpl; intuition congruence|].
    intros H. right. by right.
  - simpl. intuition congruence.
Qed.

Lemma normSegments_subset above segs x :
  In x (path.normSegments above segs) -> In x segs.
Proof.
  unfold path.normSegments. intros H. apply in_rev in H. revert H.
  assert (G : forall stack, In x (fold_left (path.normStep above) segs stack) ->
                            In x segs \/ In x stack).
  { induction segs as [|p segs IH]; intros stack H; simpl in *; [auto|].
    apply IH in H as [H|H]; [auto|].
    apply normStep_subset in H as [->|H]; auto. }
  intros H. apply G in H as [H|[]]. exact H.
Qed.

Lemma normSegments_noSlash above s :
  Forall (fun p => noSlash p = true) (path.normSegments above (Js.splitSlash s)).
Proof.
  apply Forall_forall. intros x Hx. apply list_elem_of_In, normSegments_subset in Hx.
  pose proof (splitSlash_noSlash s) as H. rewrite Forall_forall in H.
  apply H. by apply list_elem_of_In.
Qed.

(** A normalized path with ".." among its segments starts with ".."
    or is absolute: the first guard of the extraction sees it. *)
Lemma normalize_parent_segment_unsafe p :
  hasParentSegment (path.normalize p) -> unsafeRelPath (path.normalize p) = true.
Proof.
  unfold hasParentSegment, unsafeRelPath, path.normalize.
  destruct (Js.isEmpty p); [simpl; intros [H|[]]; discriminate H|].
  destruct (path.isAbsolute p) eqn:Eabs; simpl negb.
  - intros _. destruct (Js.isEmpty (path.normalizeString p false));
      [reflexivity|]. simpl. by rewrite orb_true_r.
  - unfold path.normalizeString.
    set (sg := path.normSegments true (Js.splitSlash p)).
    destruct (Js.isEmpty (Js.joinSlash sg)) eqn:Eb.
    { destruct (path.hasTrailingSep p); simpl; intros H;
        repeat (destruct H as [H|H]; [discriminate H|]); destruct H. }
    apply joinSlash_empty_inv in Eb.
    pose proof (normSegments_noSlash true p) as Hns. fold sg in Hns.
    assert (HS : In ".." sg -> Js.startsWith (Js.joinSlash sg) ".." = true).
    { intros H. apply normSegments_dotdot_head in H as [rest Hrest].
      unfold sg. rewrite Hrest. apply joinSlash_dotdot_head. }
    destruct (path.hasTrailingSep p).
    + rewrite splitSlash_trailing, splitSlash_joinSlash by assumption.
      intros H. apply in_app_or in H as [H|[H|[]]]; [|discriminate H].
      by rewrite (startsWith_app _ _ _ (HS H)).
    + rewrite splitSlash_joinSlash by assumption.
      intros H. by rewrite (HS H).
Qed.

(** ** What the extraction may change on the disk *)

Lemma keptOrNewDir_refl d k : keptOrNewDir d d k.
Proof. by left. Qed.

Lemma keptOrNewDir_trans d1 d2 d3 k :
  keptOrNewDir d1 d2 k -> keptOrNewDir d2 d3 k -> keptOrNewDir d1 d3 k.
Proof.
  unfold keptOrNewDir. intros [H12|[H1 H2]] [H23|[H2' H3]].
  - left. congruence.
  - right. split; congruence.
  - right. split; congruence.
  - congruence.
Qed.

Lemma writesOnlyInside_refl R d : writesOnlyInside R d d.
Proof. intros k _. apply keptOrNewDir_refl. Qed.

Lemma writesOnlyInside_trans R d1 d2 d3 :
  writesOnlyInside R d1 d2 -> writesOnlyInside R d2 d3 -> writesOnlyInside R d1 d3.
Proof. intros H1 H2 k Hk. eapply keptOrNewDir_trans; [by apply H1|by apply H2]. Qed.

Lemma mkdirFrom_keeps base segs (d : Disk) r d' k :
  Fs.mkdirFrom base segs d = (r, d') -> keptOrNewDir d d' k.
Proof.
  revert base d. induction segs as [|s segs IH]; intros base d; simpl.
  - intros [= _ <-]. apply keptOrNewDir_refl.
  - destruct (d !! Fs.absOf (base ++ [s])) as [[|c]|] eqn:E.
    + intros H. apply IH in H. eapply keptOrNewDir_trans; [|exact H].
      left. destruct (decide (Fs.absOf (base ++ [s]) = k)) as [<-|Hne].
      * by rewrite lookup_insert_eq.
      * by rewrite lookup_insert_ne.
    + intros [= _ <-]. apply keptOrNewDir_refl.
    + intros H. apply IH in H. eapply keptOrNewDir_trans; [|exact H].
      destruct (decide (Fs.absOf (base ++ [s]) = k)) as [<-|Hne].
      * right. by rewrite lookup_insert_eq.
      * left. by rewrite lookup_insert_ne.
Qed.

Lemma mkdirRecursive_keeps cwd p (d : Disk) r d' R :
  Fs.mkdirRecursive cwd p d = (r, d') -> writesOnlyInside R d d'.
Proof. intros H k _. eapply mkdirFrom_keeps, H. Qed.

Lemma openWrite_inv cwd p (d : Disk) r d' :
  Fs.openWrite cwd p d = (r, d') ->
  (r = Ok (path.resolve cwd p) /\ d' = <[path.resolve cwd p := FileNode ""]> d)
  \/ ((exists e, r = Throw e) /\ d' = d).
Proof.
  unfold Fs.openWrite.
  destruct (path.hasTrailingSep p); [intros [= <- <-]; right; eauto|].
  destruct (d !! path.resolve cwd p) as [[|c]|];
    try (intros [= <- <-]; right; by eauto);
    (destruct (String.eqb (path.resolve cwd p) "/");
       [intros [= <- <-]; right; by eauto|]);
    (destruct (d !! path.dirname (path.resolve cwd p)) as [[|c']|];
       [intros [= <- <-]; by left | |]);
    (destruct (String.eqb (path.dirname (path.resolve cwd p)) "/");
       intros [= <- <-]; [by left|right; by eauto]).
Qed.

Lemma insert_only_at (d : Disk) key n k :
  k <> key -> keptOrNewDir d (<[key := n]> d) k.
Proof. intros H. left. by rewrite lookup_insert_ne. Qed.

Lemma appendChunk_inv key chunk (d : Disk) r d' :
  Fs.appendChunk key chunk d = (r, d') ->
  r = Ok tt /\ forall k, k <> key -> d' !! k = d !! k.
Proof.
  unfold Fs.appendChunk. destruct (d !! key) as [[|c]|]; intros [= <- <-];
    (split; [reflexivity|]); intros k Hk; [reflexivity| |reflexivity].
  by rewrite lookup_insert_ne.
Qed.

Lemma pipeWithLimit_only_key limits key w events (d : Disk) r d' k :
  pipeWithLimit limits key w events d = (r, d') -> k <> key -> d' !! k = d !! k.
Proof.
  revert w d. induction events as [|[chunk|e] events IH]; intros w d; simpl.
  - by intros [= _ <-].
  - destruct (w + bytes chunk >? maxFileBytes limits); [by intros [= _ <-]|].
    unfold bind. destruct (Fs.appendChunk key chunk d) as [r1 d1] eqn:E1.
    apply appendChunk_inv in E1 as [-> Hd1].
    intros H Hk. rewrite (IH _ _ H Hk). by apply Hd1.
  - by intros [= _ <-].
Qed.

Lemma gtb_false_le a b : a <= b -> (a >? b) = false.
Proof. intros H. destruct (Z.gtb_spec a b); [lia|reflexivity]. Qed.

Lemma gtb_true_gt a b : a > b -> (a >? b) = true.
Proof. intros H. destruct (Z.gtb_spec a b); [reflexivity|lia]. Qed.

(** Past the limit checks, the loop body is the two path guards and
    then the write. *)
Lemma extractEntry_guards cwd targetDir limits st entry :
  type entry = File -> passesLimitChecks limits st entry ->
  extractEntry cwd targetDir limits st entry =
    if unsafeRelPath (normalizedRelPathOf entry) then throw (Error UNSAFE_ZIP_PATH)
    else if negb (insideDir (path.resolve cwd targetDir)
                    (path.resolve cwd (path.join targetDir (normalizedRelPathOf entry))))
         then throw (Error UNSAFE_ZIP_PATH)
         else writeEntry cwd limits (path.join targetDir (normalizedRelPathOf entry))
                entry (countersAfter st entry).
Proof.
  intros Ht (Hc & Hs & Htot). unfold extractEntry, isDirectory. rewrite Ht.
  by rewrite (gtb_false_le _ _ Hc), (gtb_false_le _ _ Hs), (gtb_false_le _ _ Htot).
Qed.

Lemma writeEntry_inside cwd limits dest entry next R (d : Disk) r d' :
  insideDir R (path.resolve cwd dest) = true ->
  writeEntry cwd limits dest entry next d = (r, d') -> writesOnlyInside R d d'.
Proof.
  intros Hin. unfold writeEntry, bind.
  destruct (Fs.mkdirRecursive cwd (path.dirname dest) d) as [r1 d1] eqn:E1.
  pose proof (mkdirRecursive_keeps _ _ _ _ _ R E1) as H1.
  destruct r1 as [[]|e1]; [|by intros [= _ <-]].
  destruct (Fs.openWrite cwd dest d1) as [r2 d2] eqn:E2.
  apply openWrite_inv in E2 as [[-> ->]|[[e2 ->] ->]]; [|by intros [= _ <-]].
  destruct (pipeWithLimit limits (path.resolve cwd dest) 0 (stream entry)
              (<[path.resolve cwd dest := FileNode ""]> d1)) as [r3 d3] eqn:E3.
  intros H.
  assert (Hd : d' = d3) by (destruct r3; by injection H as _ <-).
  subst d'. eapply writesOnlyInside_trans; [exact H1|].
  intros k Hk. left.
  assert (Hne : k <> path.resolve cwd dest) by (intros ->; congruence).
  rewrite (pipeWithLimit_only_key _ _ _ _ _ _ _ _ E3 Hne).
  by rewrite lookup_insert_ne.
Qed.

(** A branch that returns or throws at once leaves the disk as it is. *)
Ltac disk_untouched := intros [= _ <-]; apply writesOnlyInside_refl.

Lemma extractEntry_inside cwd targetDir limits st entry (d : Disk) r d' :
  extractEntry cwd targetDir limits st entry d = (r, d') ->
  writesOnlyInside (path.resolve cwd targetDir) d d'.
Proof.
  unfold extractEntry.
  destruct (isDirectory entry); [disk_untouched|].
  destruct (_ >? maxFiles limits); [disk_untouched|].
  destruct (_ >? maxFileBytes limits); [disk_untouched|].
  destruct (_ >? maxTotalBytes limits); [disk_untouched|].
  destruct (unsafeRelPath _); [disk_untouched|].
  destruct (insideDir _ _) eqn:Ein; simpl negb; cbv iota; [|disk_untouched].
  apply (writeEntry_inside cwd limits _ entry _ _ d r d' Ein).
Qed.

Lemma extractEntries_inside cwd targetDir limits entries st (d : Disk) r d' :
  extractEntries cwd targetDir limits st entries d = (r, d') ->
  writesOnlyInside (path.resolve cwd targetDir) d d'.
Proof.
  revert st d. induction entries as [|entry entries IH]; intros st d; simpl.
  - disk_untouched.
  - unfold bind. destruct (extractEntry cwd targetDir limits st entry d) as [r1 d1] eqn:E1.
    apply extractEntry_inside in E1. destruct r1 as [st1|e1].
    + intros H. apply IH in H. by eapply writesOnlyInside_trans.
    + by intros [= _ <-].
Qed.

Lemma safeExtractZip_inside cwd zipDirectory targetDir limits (d : Disk) r d' :
  safeExtractZip cwd zipDirectory targetDir limits d = (r, d') ->
  writesOnlyInside (path.resolve cwd targetDir) d d'.
Proof.
  unfold safeExtractZip, bind.
  destruct (Fs.mkdirRecursive cwd targetDir d) as [r1 d1] eqn:E1.
  pose proof (mkdirRecursive_keeps _ _ _ _ _ (path.resolve cwd targetDir) E1) as H1.
  destruct r1 as [[]|e1]; [|by intros [= _ <-]].
  destruct zipDirectory as [files|e]; [|by intros [= _ <-]].
  destruct (extractEntries cwd targetDir limits _ files d1) as [r2 d2] eqn:E2.
  apply extractEntries_inside in E2. intros H.
  assert (d' = d2) as -> by (destruct r2; by injection H as _ <-).
  by eapply writesOnlyInside_trans.
Qed.

(** An entry that fails ends the loop with its error: the entries after
    it are not looked at. *)
Lemma extractEntries_stops cwd targetDir limits st0 before entry after
  (d0 d d' : Disk) st e :
  extractEntries cwd targetDir limits st0 before d0 = (Ok st, d) ->
  extractEntry cwd targetDir limits st entry d = (Throw e, d') ->
  extractEntries cwd targetDir limits st0 ((before ++ entry :: after)%list) d0 = (Throw e, d').
Proof.
  revert st0 d0. induction before as [|b before IH]; intros st0 d0; simpl.
  - intros [= -> ->] H. unfold bind. by rewrite H.
  - unfold bind. destruct (extractEntry cwd targetDir limits st0 b d0) as [[st1|e1] d1];
      [|discriminate]. apply IH.
Qed.

Lemma safeExtractZip_stops cwd targetDir limits before entry after
  (d0 d1 d d' : Disk) st e :
  Fs.mkdirRecursive cwd targetDir d0 = (Ok tt, d1) ->
  extractEntries cwd targetDir limits
    {| extractedTotalBytes := 0; extractedFilesCount := 0 |} before d1 = (Ok st, d) ->
  extractEntry cwd targetDir limits st entry d = (Throw e, d') ->
  safeExtractZip cwd (Ok ((before ++ entry :: after)%list)) targetDir limits d0 = (Throw e, d').
Proof.
  intros Hmk Hbefore Hentry. unfold safeExtractZip, bind. rewrite Hmk.
  by rewrite (extractEntries_stops _ _ _ _ _ _ _ _ _ _ _ _ Hbefore Hentry).
Qed.

(** C1. When the loop of safeExtractZip reaches a file entry whose
    normalized path has ".." as a segment (in front or anywhere), starts
    with "..", or is absolute, the extraction fails with
    UNSAFE_ZIP_PATH, writing nothing for that entry or any later one; it
    fails the same way when the destination, joined with the root and
    resolved, is neither the root nor below it.  Both guards are in the
    loop body, the one on the normalized path before the one on the
    resolved path, and the write comes after them.  Whatever the
    archive, outside the resolved root no file is created, changed or
    removed. *)
Theorem C1_zip_slip_guards (cwd targetDir : string) (limits : Limits) :
  (forall st entry,
     type entry = File -> passesLimitChecks limits st entry ->
     let n := normalizedRelPathOf entry in
     extractEntry cwd targetDir limits st entry =
       if unsafeRelPath n then throw (Error UNSAFE_ZIP_PATH)
       else if negb (insideDir (path.resolve cwd targetDir)
                       (path.resolve cwd (path.join targetDir n)))
            then throw (Error UNSAFE_ZIP_PATH)
            else writeEntry cwd limits (path.join targetDir n) entry
                   (countersAfter st entry))
  /\ (forall before entry after d0 st d,
     reachesPathCheck cwd targetDir limits before entry d0 st d ->
     let n := normalizedRelPathOf entry in
     (hasParentSegment n \/ Js.startsWith n ".." = true \/ path.isAbsolute n = true ->
      safeExtractZip cwd (Ok ((before ++ entry :: after)%list)) targetDir limits d0
      = (Throw (Error UNSAFE_ZIP_PATH), d))
     /\ (insideDir (path.resolve cwd targetDir)
           (path.resolve cwd (path.join targetDir n)) = false ->
         safeExtractZip cwd (Ok ((before ++ entry :: after)%list)) targetDir limits d0
         = (Throw (Error UNSAFE_ZIP_PATH), d)))
  /\ (forall zipDirectory d0 r d',
        safeExtractZip cwd zipDirectory targetDir limits d0 = (r, d') ->
        writesOnlyInside (path.resolve cwd targetDir) d0 d').
Proof.
  split; [intros st entry Htype Hlim; by apply extractEntry_guards|].
  split; [|intros; by eapply safeExtractZip_inside].
  intros before entry after d0 st d ((d1 & Hmk & Hbefore) & Htype & Hlim) n.
  pose proof (extractEntry_guards cwd targetDir limits st entry Htype Hlim) as Hg.
  fold n in Hg. split.
  - intros Hunsafe.
    assert (Hu : unsafeRelPath n = true).
    { destruct Hunsafe as [H|[H|H]].
      - by apply normalize_parent_segment_unsafe.
      - unfold unsafeRelPath. by rewrite H.
      - unfold unsafeRelPath. rewrite H. apply orb_true_r. }
    eapply safeExtractZip_stops; [exact Hmk|exact Hbefore|].
    by rewrite Hg, Hu.
  - intros Hout.
    eapply safeExtractZip_stops; [exact Hmk|exact Hbefore|].
    rewrite Hg, Hout. by destruct (unsafeRelPath n).
Qed.

(** After a.js is extracted, the entry a/../../evil is refused and c.js
    is never written. *)
Lemma C1_zip_slip_guards_witness :
  let d := <["/x/a.js" := FileNode "ab"]> (<["/x" := DirNode]> (∅ : Disk)) in
  normalizedRelPathOf (sizeLiar "a/../../evil" None ["x"]) = "../evil"
  /\ safeExtractZip "/"
       (Ok [sizeLiar "a.js" None ["ab"]; sizeLiar "a/../../evil" None ["x"];
            sizeLiar "c.js" None ["x"]])
       "/x" tinyLimits ∅
     = (Throw (Error UNSAFE_ZIP_PATH), d)
  /\ writesOnlyInside "/x" ∅ d.
Proof.
  intros d. split; [reflexivity|].
  destruct (C1_zip_slip_guards "/" "/x" tinyLimits) as (_ & Hguards & Hinside).
  assert (Hreach : reachesPathCheck "/" "/x" tinyLimits [sizeLiar "a.js" None ["ab"]]
                     (sizeLiar "a/../../evil" None ["x"]) ∅
                     {| extractedTotalBytes := 0; extractedFilesCount := 1 |} d).
  { split; [|split].
    - eexists. split; vm_compute; reflexivity.
    - reflexivity.
    - vm_compute. repeat split; discriminate. }
  destruct (Hguards [sizeLiar "a.js" None ["ab"]] (sizeLiar "a/../../evil" None ["x"])
              [sizeLiar "c.js" None ["x"]] ∅ _ d Hreach) as [Hfirst Hsecond].
  assert (Hthrow := Hfirst (or_introl (or_introl eq_refl))).
  split; [exact Hthrow|].
  exact (Hinside _ _ _ _ Hthrow).
Defined.

(** ** The streaming guard *)

Lemma bytes_append a b : bytes (a ++ b) = bytes a + bytes b.
Proof.
  unfold bytes. induction a as [|c a IH]; [reflexivity|].
  change (String c a ++ b) with (String c (a ++ b)).
  cbn [String.length]. lia.
Qed.

Lemma bytes_nonneg a : 0 <= bytes a.
Proof. unfold bytes. lia. Qed.

(** Once the chunks delivered add up to more than the cap, the promise
    is rejected with ZIP_LIMITS_EXCEEDED. *)
Lemma pipeWithLimit_exceeds limits key chunks rest w (d : Disk) :
  w <= maxFileBytes limits ->
  w + sumBytes chunks > maxFileBytes limits ->
  exists d', pipeWithLimit limits key w (List.map Data chunks ++ rest)%list d
             = (Throw (Error ZIP_LIMITS_EXCEEDED), d').
Proof.
  revert w d. induction chunks as [|c chunks IH]; intros w d Hw Hsum; simpl in *; [lia|].
  destruct (w + bytes c >? maxFileBytes limits) eqn:E; [by eexists|].
  unfold bind. destruct (Fs.appendChunk key c d) as [r1 d1] eqn:E1.
  apply appendChunk_inv in E1 as [-> _].
  apply IH; [|lia]. destruct (Z.gtb_spec (w + bytes c) (maxFileBytes limits)); [discriminate|lia].
Qed.

(** The file being written never holds more than the cap. *)
Lemma pipeWithLimit_bound limits key events w c (d : Disk) r d' :
  d !! key = Some (FileNode c) -> bytes c = w -> w <= maxFileBytes limits ->
  pipeWithLimit limits key w events d = (r, d') ->
  exists c', d' !! key = Some (FileNode c') /\ bytes c' <= maxFileBytes limits.
Proof.
  revert w c d. induction events as [|[chunk|e] events IH]; intros w c d Hc Hb Hw; simpl.
  - intros [= _ <-]. exists c. split; [exact Hc|lia].
  - destruct (w + bytes chunk >? maxFileBytes limits) eqn:E.
    + intros [= _ <-]. exists c. split; [exact Hc|lia].
    + unfold bind, Fs.appendChunk. rewrite Hc.
      apply (IH _ (c ++ chunk)).
      * by rewrite lookup_insert_eq.
      * rewrite bytes_append. lia.
      * destruct (Z.gtb_spec (w + bytes chunk) (maxFileBytes limits)); [discriminate|lia].
  - intros [= _ <-]. exists c. split; [exact Hc|lia].
Qed.



(** C2. The running total that safeExtractZip compares with
    maxTotalBytes adds up declared sizes only.  With a total cap of 6
    and a per-file cap of 4, two entries that declare 0 bytes (or
    nothing) and stream 4 bytes each are extracted without error and
    leave 8 bytes under the root. *)
Theorem C2_total_cap_ignores_streamed_bytes :
  exists d',
    safeExtractZip "/" (Ok spoofedArchive) "/x" tinyLimits ∅ = (Ok tt, d')
    /\ bytesUnder "/x" d' = 8
    /\ maxTotalBytes tinyLimits = 6.
Proof. eexists. split; [vm_compute; reflexivity|]. split; vm_compute; reflexivity. Qed.

(** ** The upload route when the extraction fails *)

(** C4. The failure path of the route keeps the partial extraction and
    never cleans it up.  The property that the claim asks for fails;
    whenever the extraction of a ZIP upload fails, the route answers
    with the error and leaves the world with the disk exactly as the
    failed extraction left it and with the pending cleanups as they
    were, so nothing is deleted and nothing is scheduled; the success
    path does schedule the cleanup of the job.  For the archive whose
    second entry climbs out of the root the answer is the 400 of the
    error handler, the file extracted first is still in the job's
    directory, and no cleanup is pending; for the same upload without
    the unsafe entry the cleanup is pending. *)
Theorem C4_failed_job_is_never_cleaned_up :
  ~ failedJobLeavesNoDirectory
  /\ (forall localeCompare cwd dirname__ openZip f jobId w err d',
        isZipUpload f ->
        extractionFails cwd dirname__ openZip f jobId w err d' ->
        uploadRoute localeCompare cwd dirname__ openZip (Some f) jobId w
        = (errorHandler err, {| disk := d'; timers := timers w |}))
  /\ (forall localeCompare cwd dirname__ openZip f jobId w d',
        isZipUpload f ->
        safeExtractZip cwd (openZip (filePath f))
          (path.join (EXTRACTED_DIR dirname__) jobId) serverLimits (disk w)
        = (Ok tt, d') ->
        (uploadRoute localeCompare cwd dirname__ openZip (Some f) jobId w).2
        = {| disk := d';
             timers := (timers w
                        ++ [(filePath f, path.join (EXTRACTED_DIR dirname__) jobId)])%list |})
  /\ (let answer := uploadRoute codeUnitCompare "/srv" "/srv" (fun _ => Ok slipArchive)
                      (Some slipUpload) "job2" emptyWorld in
      answer.1 = {| status := 400;
                    body := ErrorBody "Invalid ZIP: unsafe file path found inside the archive." |}
      /\ disk answer.2 !! "/srv/extracted/job2/src/index.js"
         = Some (FileNode "require('./util')")
      /\ timers answer.2 = [])
  /\ timers (uploadRoute codeUnitCompare "/srv" "/srv" (fun _ => Ok plainArchive)
               (Some slipUpload) "job2" emptyWorld).2
     = [("/srv/uploads/2-b.zip", "/srv/extracted/job2")].
Proof.
  split; [|split; [|split; [|split]]].
  - intros H.
    specialize (H codeUnitCompare "/srv" "/srv" (fun _ => Ok slipArchive) slipUpload
                  "job2" emptyWorld (Error UNSAFE_ZIP_PATH)
                  (uploadRoute codeUnitCompare "/srv" "/srv" (fun _ => Ok slipArchive)
                     (Some slipUpload) "job2" emptyWorld).2.(disk)
                  eq_refl).
    specialize (H ltac:(vm_compute; reflexivity) "/srv/extracted/job2/src/index.js"
                  ltac:(vm_compute; reflexivity)).
    vm_compute in H. discriminate H.
  - intros lc cwd dirname__ openZip f jobId w err d' Hzip Hfail.
    unfold uploadRoute. unfold isZipUpload in Hzip. rewrite Hzip.
    unfold extractionFails in Hfail. simpl. by rewrite Hfail.
  - intros lc cwd dirname__ openZip f jobId w d' Hzip Hok.
    unfold uploadRoute. unfold isZipUpload in Hzip. rewrite Hzip. simpl.
    by rewrite Hok.
  - vm_compute. repeat split.
  - vm_compute. reflexivity.
Qed.

(* ================================================================== *)
(** * Properties of the tree builder *)
(* ================================================================== *)

(** ** The insertion sort *)

Section JsSortFacts.

Context {A : Type} (cmp : A -> A -> Z).

Lemma insertSorted_perm x l : Permutation (insertSorted cmp x l) (x :: l).
Proof.
  induction l as [|y l IH]; simpl; [reflexivity|].
  destruct (cmp y x >? 0); [reflexivity|].
  rewrite IH. apply perm_swap.
Qed.

Lemma jsSort_snoc l x : jsSort cmp (l ++ [x]) = insertSorted cmp x (jsSort cmp l).
Proof. unfold jsSort. by rewrite fold_left_app. Qed.

Lemma jsSort_perm l : Permutation (jsSort cmp l) l.
Proof.
  induction l as [|x l IH] using rev_ind; [reflexivity|].
  rewrite jsSort_snoc, insertSorted_perm, IH.
  apply Permutation_cons_append.
Qed.

Lemma insertSorted_In x y l : In y (insertSorted cmp x l) <-> y = x \/ In y l.
Proof.
  split; intros H.
  - apply (Permutation_in _ (insertSorted_perm x l)) in H as [->|H]; auto.
  - apply (Permutation_in _ (Permutation_sym (insertSorted_perm x l))).
    destruct H as [->|H]; [by left|by right].
Qed.

End JsSortFacts.

(** ** Sorting with a comparator that is a total preorder *)

Section SortMap.

Context {A : Type} (cmp : A -> A -> Z) (f : A -> A).
Hypothesis f_keeps : forall a b, cmp (f a) (f b) = cmp a b.

Lemma insertSorted_map x l :
  List.map f (insertSorted cmp x l) = insertSorted cmp (f x) (List.map f l).
Proof.
  induction l as [|y l IH]; simpl; [reflexivity|].
  rewrite f_keeps. destruct (cmp y x >? 0); simpl; [reflexivity|by rewrite IH].
Qed.

Lemma jsSort_map l : List.map f (jsSort cmp l) = jsSort cmp (List.map f l).
Proof.
  induction l as [|x l IH] using rev_ind; [reflexivity|].
  rewrite List.map_app. simpl List.map.
  by rewrite !jsSort_snoc, insertSorted_map, IH.
Qed.

End SortMap.

Section SortOrder.

Context {A : Type} (cmp : A -> A -> Z).
Hypothesis cmp_flip : forall a b, cmp a b > 0 <-> cmp b a < 0.
Hypothesis cmp_trans : forall a b d, cmp a b <= 0 -> cmp b d <= 0 -> cmp a d <= 0.

Lemma gtb_pos a b : (cmp a b >? 0) = true <-> cmp a b > 0.
Proof. destruct (Z.gtb_spec (cmp a b) 0); split; (lia || congruence || auto). Qed.

Lemma gtb_nonpos a b : (cmp a b >? 0) = false <-> cmp a b <= 0.
Proof. destruct (Z.gtb_spec (cmp a b) 0); split; (lia || congruence || auto). Qed.

(** Two elements that do not compare equal can be inserted in either
    order. *)
Lemma insertSorted_comm x y l :
  cmp x y <> 0 ->
  insertSorted cmp x (insertSorted cmp y l) = insertSorted cmp y (insertSorted cmp x l).
Proof.
  intros Hne.
  pose proof (cmp_flip x y) as Hxy. pose proof (cmp_flip y x) as Hyx.
  assert (Hbase : forall t,
            (if cmp y x >? 0 then x :: y :: t else y :: x :: t)
            = (if cmp x y >? 0 then y :: x :: t else x :: y :: t)).
  { intros t. destruct (cmp y x >? 0) eqn:E1, (cmp x y >? 0) eqn:E2;
      try reflexivity;
      rewrite ?gtb_pos, ?gtb_nonpos in E1, E2; lia. }
  induction l as [|z l IH]; simpl.
  - destruct (cmp y x >? 0) eqn:E1, (cmp x y >? 0) eqn:E2;
      try reflexivity; rewrite ?gtb_pos, ?gtb_nonpos in E1, E2; lia.
  - destruct (cmp z y >? 0) eqn:Ezy, (cmp z x >? 0) eqn:Ezx; simpl;
      rewrite ?Ezy, ?Ezx.
    + destruct (cmp y x >? 0) eqn:E1, (cmp x y >? 0) eqn:E2;
        try reflexivity; rewrite ?gtb_pos, ?gtb_nonpos in E1, E2; lia.
    + apply gtb_pos in Ezy. apply gtb_nonpos in Ezx.
      assert (Hyx' : (cmp y x >? 0) = false).
      { apply gtb_nonpos. apply (cmp_trans y z x); [|exact Ezx].
        pose proof (cmp_flip z y). lia. }
      by rewrite Hyx'.
    + apply gtb_pos in Ezx. apply gtb_nonpos in Ezy.
      assert (Hxy' : (cmp x y >? 0) = false).
      { apply gtb_nonpos. apply (cmp_trans x z y); [|exact Ezy].
        pose proof (cmp_flip z x). lia. }
      by rewrite Hxy'.
    + by rewrite IH.
Qed.

Lemma insertSorted_sorted x l :
  StronglySorted (notAfter cmp) l -> StronglySorted (notAfter cmp) (insertSorted cmp x l).
Proof.
  intros Hs. induction Hs as [|y l Hs IH Hall]; simpl; [repeat constructor|].
  destruct (cmp y x >? 0) eqn:E.
  - apply gtb_pos in E. constructor; [by constructor|].
    assert (Hxy : notAfter cmp x y) by (unfold notAfter; pose proof (cmp_flip y x); lia).
    constructor; [exact Hxy|].
    eapply Forall_impl; [exact Hall|]. intros z Hz. by apply (cmp_trans x y z).
  - apply gtb_nonpos in E. constructor; [exact IH|].
    apply Forall_forall. intros z Hz. apply list_elem_of_In, insertSorted_In in Hz.
    destruct Hz as [->|Hz]; [exact E|].
    rewrite Forall_forall in Hall. by apply Hall, list_elem_of_In.
Qed.

Lemma jsSort_sorted l : StronglySorted (notAfter cmp) (jsSort cmp l).
Proof.
  induction l as [|x l IH] using rev_ind; [constructor|].
  rewrite jsSort_snoc. by apply insertSorted_sorted.
Qed.

Lemma insertSorted_last x l :
  Forall (fun y => notAfter cmp y x) l -> insertSorted cmp x l = (l ++ [x])%list.
Proof.
  induction 1 as [|y l Hy Hall IH]; simpl; [reflexivity|].
  apply gtb_nonpos in Hy. by rewrite Hy, IH.
Qed.

Lemma jsSort_sorted_id l : StronglySorted (notAfter cmp) l -> jsSort cmp l = l.
Proof.
  induction l as [|x l IH] using rev_ind; intros Hs; [reflexivity|].
  apply StronglySorted_app in Hs as (Hlx & Hl & _).
  rewrite jsSort_snoc, (IH Hl). apply insertSorted_last.
  apply Forall_forall. intros y Hy. apply Hlx; [exact Hy|by apply list_elem_of_singleton].
Qed.

End SortOrder.

(** Operations that commute pairwise can be folded in any order. *)
Lemma fold_left_permutation {A B} (op : A -> B -> A) (l l' : list B) :
  (forall a b, In a l -> In b l -> forall acc, op (op acc a) b = op (op acc b) a) ->
  Permutation l l' -> forall acc, fold_left op l acc = fold_left op l' acc.
Proof.
  intros Hcomm Hperm. induction Hperm as [|x l l' Hp IH|x y l|l l' l'' Hp1 IH1 Hp2 IH2];
    intros acc; simpl.
  - reflexivity.
  - apply IH. intros a b Ha Hb. apply Hcomm; by right.
  - rewrite (Hcomm y x); [reflexivity|by left|right; by left].
  - rewrite IH1 by exact Hcomm. apply IH2.
    intros a b Ha Hb. apply Hcomm; eapply Permutation_in; try eassumption;
      by apply Permutation_sym.
Qed.

(** ** The tree builder *)

Section TreeFacts.

Variable localeCompare : string -> string -> Z.
Hypothesis lc_total : totalOrderCompare localeCompare.

Abbreviation cmpN := (compareNodes localeCompare).
Abbreviation sortT := (sortTree localeCompare).
Abbreviation sortF := (sortForest localeCompare).
Abbreviation place := (placeParts localeCompare).
Abbreviation sortedC := (StronglySorted (notAfter cmpN)).

Lemma cmpN_flip a b : cmpN a b > 0 <-> cmpN b a < 0.
Proof.
  unfold compareNodes. destruct a, b; simpl; try lia; apply (lc_flip _ lc_total).
Qed.

Lemma cmpN_trans a b d : cmpN a b <= 0 -> cmpN b d <= 0 -> cmpN a d <= 0.
Proof.
  unfold compareNodes. destruct a, b, d; simpl; try lia; apply (lc_trans _ lc_total).
Qed.

Lemma cmpN_key_l a b z :
  isFolder a = isFolder b -> nodeName a = nodeName b -> cmpN a z = cmpN b z.
Proof. unfold compareNodes. by intros -> ->. Qed.

Lemma cmpN_key_r a b z :
  isFolder a = isFolder b -> nodeName a = nodeName b -> cmpN z a = cmpN z b.
Proof. unfold compareNodes. by intros -> ->. Qed.

Lemma cmpN_folder_file n c m p : cmpN (Folder n c) (FileLeaf m p) <> 0.
Proof. unfold compareNodes. simpl. lia. Qed.

Lemma cmpN_file_folder n c m p : cmpN (FileLeaf m p) (Folder n c) <> 0.
Proof. unfold compareNodes. simpl. lia. Qed.

Lemma cmpN_names_differ a b :
  isFolder a = isFolder b -> nodeName a <> nodeName b -> cmpN a b <> 0.
Proof.
  unfold compareNodes. intros -> Hne H. rewrite Bool.eqb_reflx in H.
  by apply (lc_eq _ lc_total) in H.
Qed.

Lemma cmpN_same_folder n c c' : cmpN (Folder n c) (Folder n c') = 0.
Proof. unfold compareNodes. simpl. apply (lc_refl _ lc_total). Qed.

Lemma sortT_isFolder t : isFolder (sortT t) = isFolder t.
Proof. by destruct t. Qed.

Lemma sortT_nodeName t : nodeName (sortT t) = nodeName t.
Proof. by destruct t. Qed.

Lemma cmpN_sortT a b : cmpN (sortT a) (sortT b) = cmpN a b.
Proof. unfold compareNodes. by rewrite !sortT_isFolder, !sortT_nodeName. Qed.

(** The source sorts the children and then descends into each: the
    same tree as descending first. *)
Lemma sortTree_unfold n children :
  sortT (Folder n children)
  = Folder n (List.map sortT (sortChildren localeCompare children)).
Proof.
  simpl. f_equal. unfold sortChildren. symmetry. apply jsSort_map, cmpN_sortT.
Qed.

(** *** [hasFolder] *)

Lemma hasFolder_app n l l' : hasFolder n (l ++ l') = hasFolder n l || hasFolder n l'.
Proof. apply existsb_app. Qed.

Lemma hasFolder_perm n l l' : Permutation l l' -> hasFolder n l = hasFolder n l'.
Proof.
  intros Hp. unfold hasFolder. apply eq_true_iff_eq. rewrite !existsb_exists.
  split; intros (x & Hx & E); exists x; (split; [|exact E]).
  - by apply (Permutation_in _ Hp).
  - by apply (Permutation_in _ (Permutation_sym Hp)).
Qed.

Lemma isFolderNamed_sortT n t : isFolderNamed n (sortT t) = isFolderNamed n t.
Proof. unfold isFolderNamed. by rewrite sortT_isFolder, sortT_nodeName. Qed.

Lemma hasFolder_map_sortT n l : hasFolder n (List.map sortT l) = hasFolder n l.
Proof.
  unfold hasFolder. induction l as [|x l IH]; simpl; [reflexivity|].
  by rewrite isFolderNamed_sortT, IH.
Qed.

Lemma hasFolder_insertSorted n x l :
  hasFolder n (insertSorted cmpN x l) = isFolderNamed n x || hasFolder n l.
Proof. by rewrite (hasFolder_perm _ _ _ (insertSorted_perm cmpN x l)). Qed.

Lemma hasFolder_jsSort n l : hasFolder n (jsSort cmpN l) = hasFolder n l.
Proof. apply hasFolder_perm, jsSort_perm. Qed.

Lemma hasFolder_sortForest n l : hasFolder n (sortF l) = hasFolder n l.
Proof. unfold sortForest, sortChildren. by rewrite hasFolder_jsSort, hasFolder_map_sortT. Qed.

Lemma hasFolder_inFolder n m g l : hasFolder n (inFolder m g l) = hasFolder n l.
Proof.
  unfold hasFolder. induction l as [|[k c|k p] l IH]; simpl; [reflexivity| |by rewrite IH].
  destruct (String.eqb k m); simpl; [reflexivity|by rewrite IH].
Qed.

Lemma isFolderNamed_folder n m c : isFolderNamed n (Folder m c) = String.eqb m n.
Proof. reflexivity. Qed.

(** *** [inFolder] *)

Lemma inFolder_none n g l : hasFolder n l = false -> inFolder n g l = l.
Proof.
  unfold hasFolder. induction l as [|[k c|k p] l IH]; simpl; [reflexivity| |].
  - rewrite isFolderNamed_folder. destruct (String.eqb k n); [discriminate|].
    simpl. intros H. by rewrite IH.
  - intros H. by rewrite IH.
Qed.

Lemma inFolder_app n g l l' :
  inFolder n g (l ++ l')
  = if hasFolder n l then (inFolder n g l ++ l')%list else (l ++ inFolder n g l')%list.
Proof.
  unfold hasFolder. induction l as [|[k c|k p] l IH]; simpl; [reflexivity| |].
  - rewrite isFolderNamed_folder. destruct (String.eqb k n); simpl; [reflexivity|].
    rewrite IH. by destruct (existsb (isFolderNamed n) l).
  - rewrite IH. by destruct (existsb (isFolderNamed n) l).
Qed.

Lemma inFolder_ext n g g' l :
  (forall c, g c = g' c) -> inFolder n g l = inFolder n g' l.
Proof.
  intros H. induction l as [|[k c|k p] l IH]; simpl; [reflexivity| |by rewrite IH].
  destruct (String.eqb k n); [by rewrite H|by rewrite IH].
Qed.

Lemma inFolder_twice n g1 g2 l :
  inFolder n g1 (inFolder n g2 l) = inFolder n (fun c => g1 (g2 c)) l.
Proof.
  induction l as [|[k c|k p] l IH]; simpl; [reflexivity| |by rewrite IH].
  destruct (String.eqb k n) eqn:E; simpl; rewrite E; [reflexivity|by rewrite IH].
Qed.

Lemma inFolder_swap n m g1 g2 l :
  n <> m ->
  inFolder n g1 (inFolder m g2 l) = inFolder m g2 (inFolder n g1 l).
Proof.
  intros Hne. induction l as [|[k c|k p] l IH]; simpl; [reflexivity| |by rewrite IH].
  destruct (String.eqb k m) eqn:Em, (String.eqb k n) eqn:En; simpl;
    rewrite ?Em, ?En; try reflexivity.
  - apply String.eqb_eq in Em, En. congruence.
  - by rewrite IH.
Qed.

(** A node that is not the folder looked for does not disturb the
    update. *)
Lemma inFolder_insertSorted_other n g x l :
  isFolderNamed n x = false ->
  inFolder n g (insertSorted cmpN x l) = insertSorted cmpN x (inFolder n g l).
Proof.
  intros Hx.
  assert (Hhead : forall t, inFolder n g (x :: t) = x :: inFolder n g t).
  { intros t. destruct x as [k c|k p]; simpl; [|reflexivity].
    rewrite isFolderNamed_folder in Hx. by rewrite Hx. }
  induction l as [|y l IH]; [simpl insertSorted; by rewrite Hhead|].
  destruct y as [k c|k p]; simpl.
  - destruct (String.eqb k n) eqn:Ek.
    + simpl. rewrite (cmpN_key_l (Folder k (g c)) (Folder k c)) by reflexivity.
      destruct (cmpN (Folder k c) x >? 0).
      * rewrite Hhead. simpl. by rewrite Ek.
      * simpl. by rewrite Ek.
    + simpl. destruct (cmpN (Folder k c) x >? 0).
      * rewrite Hhead. simpl. by rewrite Ek.
      * simpl. by rewrite Ek, IH.
  - destruct (cmpN (FileLeaf k p) x >? 0).
    + rewrite Hhead. reflexivity.
    + simpl. by rewrite IH.
Qed.

(** Creating the folder and then filling it is placing the filled
    folder. *)
Lemma inFolder_insertSorted_new n g c0 l :
  hasFolder n l = false ->
  inFolder n g (insertSorted cmpN (Folder n c0) l)
  = insertSorted cmpN (Folder n (g c0)) l.
Proof.
  unfold hasFolder. induction l as [|y l IH]; simpl.
  - by rewrite String.eqb_refl.
  - intros H. apply orb_false_elim in H as [Hy Hl].
    rewrite (cmpN_key_r (Folder n (g c0)) (Folder n c0)) by reflexivity.
    destruct (cmpN y (Folder n c0) >? 0); simpl.
    + by rewrite String.eqb_refl.
    + destruct y as [k c|k p]; [|by rewrite IH].
      rewrite isFolderNamed_folder in Hy. by rewrite Hy, IH.
Qed.

(** In sorted children that hold the folder looked for, a new node
    never lands in front of it under its name. *)
Lemma inFolder_insertSorted_has n g x l :
  sortedC l -> hasFolder n l = true ->
  inFolder n g (insertSorted cmpN x l) = insertSorted cmpN x (inFolder n g l).
Proof.
  destruct (isFolderNamed n x) eqn:Hx;
    [|intros _ _; by apply inFolder_insertSorted_other].
  assert (Hxn : exists c, x = Folder n c).
  { destruct x as [k c|k p]; [|discriminate].
    rewrite isFolderNamed_folder in Hx. apply String.eqb_eq in Hx as ->. eauto. }
  destruct Hxn as [cx ->]. clear Hx.
  intros Hs. induction Hs as [|y l Hs IH Hall]; [discriminate|].
  unfold hasFolder. simpl existsb. intros Hhas.
  destruct y as [k c|k p].
  - rewrite isFolderNamed_folder in Hhas. simpl inFolder at 2.
    destruct (String.eqb k n) eqn:Ek.
    + apply String.eqb_eq in Ek as ->. simpl insertSorted.
      rewrite (cmpN_key_l (Folder n (g c)) (Folder n c)) by reflexivity.
      assert (E : (cmpN (Folder n c) (Folder n cx) >? 0) = false).
      { apply gtb_nonpos. by rewrite cmpN_same_folder. }
      rewrite E. simpl. by rewrite String.eqb_refl.
    + simpl in Hhas. simpl insertSorted.
      destruct (cmpN (Folder k c) (Folder n cx) >? 0) eqn:E.
      * exfalso. apply gtb_pos in E.
        unfold hasFolder in IH. apply existsb_exists in Hhas as (e & He & Hen).
        rewrite Forall_forall in Hall. apply list_elem_of_In in He.
        specialize (Hall e He). unfold notAfter in Hall.
        destruct e as [m ce|m pe]; [|discriminate].
        rewrite isFolderNamed_folder in Hen. apply String.eqb_eq in Hen as ->.
        pose proof (cmpN_trans _ _ (Folder n cx) Hall) as Ht.
        rewrite cmpN_same_folder in Ht. lia.
      * simpl. rewrite Ek. f_equal. by apply IH.
  - exfalso. simpl in Hhas.
    apply existsb_exists in Hhas as (e & He & Hen).
    rewrite Forall_forall in Hall. apply list_elem_of_In in He.
    specialize (Hall e He). unfold notAfter in Hall.
    destruct e as [m ce|m pe]; [|discriminate].
    unfold compareNodes in Hall. simpl in Hall. lia.
Qed.

(** Sorting commutes with the update of the folder found. *)
Lemma jsSort_inFolder n g l :
  jsSort cmpN (inFolder n g l) = inFolder n g (jsSort cmpN l).
Proof.
  induction l as [|x l IH] using rev_ind; [reflexivity|].
  rewrite inFolder_app, (jsSort_snoc cmpN l x).
  destruct (hasFolder n l) eqn:Hhas.
  - rewrite jsSort_snoc, IH. symmetry. apply inFolder_insertSorted_has.
    + by apply jsSort_sorted; [apply cmpN_flip|apply cmpN_trans].
    + by rewrite hasFolder_jsSort.
  - destruct x as [k c|k p]; simpl inFolder.
    + destruct (String.eqb k n) eqn:Ek.
      * apply String.eqb_eq in Ek as ->. rewrite jsSort_snoc.
        symmetry. apply inFolder_insertSorted_new.
        by rewrite hasFolder_jsSort.
      * rewrite jsSort_snoc. symmetry.
        rewrite inFolder_insertSorted_other by (by rewrite isFolderNamed_folder).
        rewrite inFolder_none; [reflexivity|]. by rewrite hasFolder_jsSort.
    + rewrite jsSort_snoc. symmetry.
      rewrite inFolder_insertSorted_other by reflexivity.
      rewrite inFolder_none; [reflexivity|]. by rewrite hasFolder_jsSort.
Qed.

Lemma map_sortT_inFolder n g g' l :
  (forall c, sortF (g c) = g' (sortF c)) ->
  List.map sortT (inFolder n g l) = inFolder n g' (List.map sortT l).
Proof.
  intros H. induction l as [|[k c|k p] l IH]; simpl; [reflexivity| |by rewrite IH].
  destruct (String.eqb k n); simpl; [|by rewrite IH].
  f_equal. f_equal. apply H.
Qed.

Lemma sortF_inFolder n g g' l :
  (forall c, sortF (g c) = g' (sortF c)) ->
  sortF (inFolder n g l) = inFolder n g' (sortF l).
Proof.
  intros H. unfold sortForest, sortChildren.
  by rewrite (map_sortT_inFolder n g g' l H), jsSort_inFolder.
Qed.

Lemma sortF_snoc l x : sortF (l ++ [x]) = insertSorted cmpN (sortT x) (sortF l).
Proof.
  unfold sortForest, sortChildren. rewrite List.map_app. simpl List.map.
  apply jsSort_snoc.
Qed.

Lemma sortF_sorted l : sortedC (sortF l).
Proof. unfold sortForest, sortChildren. by apply jsSort_sorted; [apply cmpN_flip|apply cmpN_trans]. Qed.

Lemma sortF_insertSorted x l :
  sortedC l -> sortF (insertSorted cmpN x l) = insertSorted cmpN (sortT x) (sortF l).
Proof.
  intros Hs. unfold sortForest, sortChildren.
  rewrite (insertSorted_map cmpN sortT) by apply cmpN_sortT.
  rewrite <- (jsSort_map cmpN sortT) by apply cmpN_sortT.
  rewrite (jsSort_sorted_id cmpN l Hs).
  apply jsSort_sorted_id. apply insertSorted_sorted; [apply cmpN_flip|apply cmpN_trans|].
  rewrite <- (jsSort_sorted_id cmpN l Hs), (jsSort_map cmpN sortT) by apply cmpN_sortT.
  by apply jsSort_sorted; [apply cmpN_flip|apply cmpN_trans].
Qed.

Lemma sortT_folder n children : sortT (Folder n children) = Folder n (sortF children).
Proof. reflexivity. Qed.

(** The tree of the source, sorted, is the tree built in sorted
    order. *)
Lemma sortF_insertParts relPath parts children :
  sortF (insertParts localeCompare relPath parts children)
  = place relPath parts (sortF children).
Proof.
  revert children. induction parts as [|name rest IH]; intros children; [reflexivity|].
  destruct rest as [|name' rest'].
  - simpl. apply sortF_snoc.
  - change (insertParts localeCompare relPath (name :: name' :: rest') children)
      with (inFolder name (insertParts localeCompare relPath (name' :: rest'))
              (getOrCreateFolderNode localeCompare name children)).
    change (place relPath (name :: name' :: rest') (sortF children))
      with (if hasFolder name (sortF children)
            then inFolder name (place relPath (name' :: rest')) (sortF children)
            else insertSorted cmpN
                   (Folder name (place relPath (name' :: rest') [])) (sortF children)).
    rewrite hasFolder_sortForest. unfold getOrCreateFolderNode.
    destruct (hasFolder name children) eqn:Hhas.
    + apply sortF_inFolder, IH.
    + unfold sortChildren. rewrite jsSort_snoc.
      rewrite inFolder_insertSorted_new. 2:{ by rewrite hasFolder_jsSort. }
      rewrite sortF_insertSorted
        by (apply jsSort_sorted; [apply cmpN_flip|apply cmpN_trans]).
      rewrite sortT_folder, IH. change (sortF []) with (@nil TreeNode). f_equal.
      unfold sortForest, sortChildren.
      rewrite (jsSort_map cmpN sortT) by apply cmpN_sortT.
      apply jsSort_sorted_id, jsSort_sorted; [apply cmpN_flip|apply cmpN_trans].
Qed.

(** *** Placing two paths in either order *)

Lemma place_file_file n m r s l :
  (n = m -> r = s) ->
  insertSorted cmpN (FileLeaf n r) (insertSorted cmpN (FileLeaf m s) l)
  = insertSorted cmpN (FileLeaf m s) (insertSorted cmpN (FileLeaf n r) l).
Proof.
  intros H. destruct (string_dec n m) as [->|Hne]; [by rewrite (H eq_refl)|].
  apply insertSorted_comm; [apply cmpN_flip|apply cmpN_trans|].
  by apply cmpN_names_differ.
Qed.

Lemma place_comm r p s q l :
  (p = q -> r = s) ->
  place r p (place s q l) = place s q (place r p l).
Proof.
  revert q l. induction p as [|n p' IH]; intros q l Hpq; [reflexivity|].
  destruct q as [|m q']; [reflexivity|].
  destruct p' as [|n' p''], q' as [|m' q''].
  - (* file, file *)
    simpl. apply place_file_file. intros ->. by apply Hpq.
  - (* file, folder *)
    change (place s (m :: m' :: q'') ?c)
      with (if hasFolder m c then inFolder m (place s (m' :: q'')) c
            else insertSorted cmpN (Folder m (place s (m' :: q'') [])) c).
    change (place r [n] ?c) with (insertSorted cmpN (FileLeaf n r) c).
    rewrite hasFolder_insertSorted. simpl orb.
    destruct (hasFolder m l).
    + symmetry. by apply inFolder_insertSorted_other.
    + apply insertSorted_comm; [apply cmpN_flip|apply cmpN_trans|].
      apply cmpN_file_folder.
  - (* folder, file *)
    change (place r (n :: n' :: p'') ?c)
      with (if hasFolder n c then inFolder n (place r (n' :: p'')) c
            else insertSorted cmpN (Folder n (place r (n' :: p'') [])) c).
    change (place s [m] ?c) with (insertSorted cmpN (FileLeaf m s) c).
    rewrite hasFolder_insertSorted. simpl orb.
    destruct (hasFolder n l).
    + by apply inFolder_insertSorted_other.
    + apply insertSorted_comm; [apply cmpN_flip|apply cmpN_trans|].
      apply cmpN_folder_file.
  - (* folder, folder *)
    change (place r (n :: n' :: p'') ?c)
      with (if hasFolder n c then inFolder n (place r (n' :: p'')) c
            else insertSorted cmpN (Folder n (place r (n' :: p'') [])) c).
    change (place s (m :: m' :: q'') ?c)
      with (if hasFolder m c then inFolder m (place s (m' :: q'')) c
            else insertSorted cmpN (Folder m (place s (m' :: q'') [])) c).
    destruct (string_dec n m) as [->|Hne].
    + assert (Hrest : n' :: p'' = m' :: q'' -> r = s).
      { intros E. apply Hpq. by rewrite E. }
      destruct (hasFolder m l) eqn:Hm.
      * rewrite !hasFolder_inFolder, Hm, !inFolder_twice.
        apply inFolder_ext. intros c. by apply IH.
      * rewrite !hasFolder_insertSorted, !isFolderNamed_folder, String.eqb_refl.
        simpl orb. rewrite !inFolder_insertSorted_new by exact Hm.
        f_equal. f_equal. by apply IH.
    + assert (Enm : String.eqb n m = false) by (by apply String.eqb_neq).
      assert (Emn : String.eqb m n = false) by (apply String.eqb_neq; congruence).
      destruct (hasFolder n l) eqn:Hn, (hasFolder m l) eqn:Hm.
      * rewrite !hasFolder_inFolder, Hn, Hm. by apply inFolder_swap.
      * rewrite hasFolder_insertSorted, hasFolder_inFolder, Hn, Hm, orb_true_r.
        apply inFolder_insertSorted_other. by rewrite isFolderNamed_folder.
      * rewrite hasFolder_insertSorted, hasFolder_inFolder, Hn, Hm, orb_true_r.
        symmetry. apply inFolder_insertSorted_other. by rewrite isFolderNamed_folder.
      * rewrite !hasFolder_insertSorted, !isFolderNamed_folder, Hn, Hm, Enm, Emn.
        simpl orb. apply insertSorted_comm; [apply cmpN_flip|apply cmpN_trans|].
        by apply cmpN_names_differ.
Qed.

(** *** The whole builder *)

Variable cwd : string.

Lemma sortF_fold_insertPath rootDir paths children :
  sortF (fold_left (insertPath localeCompare cwd rootDir) paths children)
  = fold_left (placePath localeCompare cwd rootDir) paths (sortF children).
Proof.
  revert children. induction paths as [|p paths IH]; intros children; [reflexivity|].
  simpl. rewrite IH. f_equal. apply sortF_insertParts.
Qed.

Lemma buildFileTreeFromPaths_placed rootDir paths :
  buildFileTreeFromPaths localeCompare cwd rootDir paths
  = Folder "root" (fold_left (placePath localeCompare cwd rootDir) paths []).
Proof.
  unfold buildFileTreeFromPaths. by rewrite sortT_folder, sortF_fold_insertPath.
Qed.

Lemma sortT_sorted t : TreeSorted localeCompare (sortT t).
Proof.
  induction t as [n p|n children IH] using TreeNode_rect'; [constructor|].
  rewrite sortT_folder. constructor.
  - apply sortF_sorted.
  - unfold sortForest, sortChildren.
    apply Forall_forall. intros x Hx.
    apply list_elem_of_In, (Permutation_in _ (jsSort_perm cmpN _)) in Hx.
    apply in_map_iff in Hx as (y & <- & Hy).
    rewrite Forall_forall in IH. by apply IH, list_elem_of_In.
Qed.

End TreeFacts.

(** ** The code-unit order is a total order *)

Lemma compare_refl_string a : String.compare a a = Eq.
Proof.
  induction a as [|c a IH]; simpl; [reflexivity|].
  unfold Ascii.compare. by rewrite N.compare_refl.
Qed.

Lemma codeUnitCompare_le a b : codeUnitCompare a b <= 0 <-> String.le a b.
Proof.
  unfold codeUnitCompare, String.le, String.leb.
  destruct (String.compare a b); simpl; split; intros H; (lia || exact I || destruct H).
Qed.

Lemma codeUnitCompare_total : totalOrderCompare codeUnitCompare.
Proof.
  split.
  - intros a. unfold codeUnitCompare. by rewrite compare_refl_string.
  - intros a b. unfold codeUnitCompare.
    destruct (String.compare a b) eqn:E; try lia. intros _.
    by apply String.compare_eq_iff.
  - intros a b. unfold codeUnitCompare. rewrite (String.compare_antisym b a).
    destruct (String.compare a b); simpl; lia.
  - intros a b c. rewrite !codeUnitCompare_le. apply transitivity.
Qed.

(** ** Relative paths are canonical *)

Lemma replaceBackslashes_id s : noBackslash s = true -> Js.replaceBackslashes s = s.
Proof.
  induction s as [|c s IH]; simpl; [reflexivity|].
  intros H. apply andb_prop in H as [Hc Hs]. apply negb_true_iff in Hc.
  by rewrite Hc, (IH Hs).
Qed.

Lemma filterBoolean_id segs :
  Forall (fun p => Js.isEmpty p = false) segs -> Js.filterBoolean segs = segs.
Proof.
  induction 1 as [|p segs Hp _ IH]; simpl; [reflexivity|].
  by rewrite Hp, IH.
Qed.

Lemma partsOf_joinSlash segs :
  Forall (fun p => noSlash p = true) segs ->
  Forall (fun p => Js.isEmpty p = false) segs ->
  partsOf (Js.joinSlash segs) = segs.
Proof.
  intros Hns Hne. unfold partsOf. destruct segs as [|p segs]; [reflexivity|].
  rewrite splitSlash_joinSlash by (congruence || assumption).
  by apply filterBoolean_id.
Qed.

Lemma dropCommon_subset a b x :
  In x (path.dropCommon a b).2 -> In x b.
Proof.
  revert b. induction a as [|y a IH]; intros [|z b]; simpl; try tauto.
  destruct (String.eqb y z); simpl; [|tauto]. intros H. right. by apply IH.
Qed.

Lemma resolvedSegments_wellformed cwd p :
  Forall (fun s => noSlash s = true) (path.resolvedSegments cwd p)
  /\ Forall (fun s => Js.isEmpty s = false) (path.resolvedSegments cwd p).
Proof.
  unfold path.resolvedSegments, Js.filterBoolean. split.
  - apply Forall_forall. intros s Hs. apply list_elem_of_In, filter_In in Hs as [Hs _].
    pose proof (splitSlash_noSlash (path.resolve cwd p)) as H.
    rewrite Forall_forall in H. by apply H, list_elem_of_In.
  - apply Forall_forall. intros s Hs. apply list_elem_of_In, filter_In in Hs as [_ Hs].
    by apply negb_true_iff in Hs.
Qed.

(** What [path.relative] returns is made of non-empty segments with one
    "/" between them. *)
Lemma relative_canonical cwd from to :
  canonicalRelPath (path.relative cwd from to).
Proof.
  unfold canonicalRelPath, path.relative.
  destruct (String.eqb from to); [reflexivity|].
  destruct (path.dropCommon (path.resolvedSegments cwd from)
              (path.resolvedSegments cwd to)) as [f t] eqn:E.
  destruct (resolvedSegments_wellformed cwd to) as [Hns Hne].
  assert (Ht : forall x, In x t -> In x (path.resolvedSegments cwd to)).
  { intros x Hx. apply (dropCommon_subset (path.resolvedSegments cwd from)).
    by rewrite E. }
  rewrite partsOf_joinSlash; [reflexivity| |];
    apply Forall_forall; intros x Hx; apply list_elem_of_In, in_app_or in Hx;
    destruct Hx as [Hx|Hx];
    try (apply in_map_iff in Hx as (? & <- & _); reflexivity).
  - rewrite Forall_forall in Hns. by apply Hns, list_elem_of_In, Ht.
  - rewrite Forall_forall in Hne. by apply Hne, list_elem_of_In, Ht.
Qed.

(** A path whose relative form holds no backslash meets the condition
    of the order-independence theorem. *)
Lemma relPathOf_canonical cwd rootDir absPath :
  noBackslash (path.relative cwd rootDir absPath) = true ->
  canonicalRelPath (relPathOf cwd rootDir absPath).
Proof.
  intros H. unfold relPathOf. rewrite (replaceBackslashes_id _ H).
  apply relative_canonical.
Qed.

(** ** Order independence *)

(** Under a collation that is a total order on names, and with paths
    whose relative form is canonical, the tree does not depend on the
    order of the input list. *)
Lemma buildFileTreeFromPaths_permutation
  (localeCompare : string -> string -> Z) (cwd rootDir : string)
  (l1 l2 : list string) :
  totalOrderCompare localeCompare ->
  (forall p, In p l1 -> canonicalRelPath (relPathOf cwd rootDir p)) ->
  Permutation l1 l2 ->
  buildFileTreeFromPaths localeCompare cwd rootDir l1
  = buildFileTreeFromPaths localeCompare cwd rootDir l2.
Proof.
  intros Hlc Hcanon Hperm.
  rewrite !buildFileTreeFromPaths_placed by exact Hlc. f_equal.
  apply fold_left_permutation; [|exact Hperm].
  intros a b Ha Hb acc. unfold placePath.
  apply place_comm; [exact Hlc|].
  intros Hparts. rewrite <- (Hcanon a Ha), <- (Hcanon b Hb). by rewrite Hparts.
Qed.

(* ================================================================== *)
(** * Properties of the import resolver and the graph *)
(* ================================================================== *)

(** ** Lists: the first element found *)

Lemma find_Some_split {A} (p : A -> bool) (l : list A) (x : A) :
  List.find p l = Some x <->
  exists pre post, l = (pre ++ x :: post)%list /\ p x = true /\
                   Forall (fun y => p y = false) pre.
Proof.
  induction l as [|a l IH]; simpl.
  - split; [discriminate|].
    intros (pre & post & H & _). destruct pre; discriminate.
  - destruct (p a) eqn:Ha.
    + split.
      * intros [= <-]. exists [], l. auto.
      * intros (pre & post & H & Hx & Hpre).
        destruct pre as [|b pre]; simpl in H; injection H as <- ?; [reflexivity|].
        inversion Hpre; congruence.
    + rewrite IH. split.
      * intros (pre & post & -> & Hx & Hpre). exists (a :: pre), post. auto.
      * intros (pre & post & H & Hx & Hpre).
        destruct pre as [|b pre]; simpl in H; injection H as <- ?; [congruence|].
        exists pre, post. inversion Hpre; auto.
Qed.

Lemma find_None_Forall {A} (p : A -> bool) (l : list A) :
  List.find p l = None <-> Forall (fun y => p y = false) l.
Proof.
  induction l as [|a l IH]; simpl.
  - split; auto.
  - destruct (p a) eqn:Ha.
    + split; [discriminate|]. intros H. inversion H; congruence.
    + rewrite IH. split; [auto|]. intros H. inversion H; auto.
Qed.

Lemma addImport_unresolved from set st spec :
  resolveImportToRelativeFile from spec set = None ->
  addImport from set st spec = st.
Proof. intros H. unfold addImport. rewrite H. reflexivity. Qed.

(** C5. Resolution probes, in this order, the normalized literal path,
    the path with .js, .jsx, .ts, .tsx appended, and the path as a
    directory holding index.js, index.jsx, index.ts, index.tsx; the
    first probe that is in the analyzed set is the result; when none is,
    the result is null and the specifier adds no edge.  With a/b.js
    holding [import "./c"] next to a/c.js the graph has the single edge
    a/b.js -> a/c.js; with [import "./x"] it has none. *)
Theorem C5_probe_order_first_match :
  (forall (fromFile spec : string) (known : gset string),
     let base :=
       path.normalize (path.join (path.dirname (Js.replaceBackslashes fromFile))
                         (Js.replaceBackslashes spec)) in
     importCandidates fromFile spec =
       [base; base ++ ".js"; base ++ ".jsx"; base ++ ".ts"; base ++ ".tsx";
        path.join base "index.js"; path.join base "index.jsx";
        path.join base "index.ts"; path.join base "index.tsx"]
     /\ (forall t,
           resolveImportToRelativeFile fromFile spec known = Some t <->
           exists pre post,
             importCandidates fromFile spec = (pre ++ t :: post)%list /\
             t ∈ known /\ Forall (fun c => c ∉ known) pre)
     /\ (resolveImportToRelativeFile fromFile spec known = None <->
         Forall (fun c => c ∉ known) (importCandidates fromFile spec))
     /\ (resolveImportToRelativeFile fromFile spec known = None ->
         forall st, addImport fromFile known st spec = st))
  /\ edges (buildLocalImportsGraph "/" (exampleDisk (importBare "./c")) "/r"
              ["/r/a/b.js"; "/r/a/c.js"])
     = [{| source := "a/b.js"; target := "a/c.js" |}]
  /\ edges (buildLocalImportsGraph "/" (exampleDisk (importBare "./x")) "/r"
              ["/r/a/b.js"; "/r/a/c.js"])
     = [].
Proof.
  split; [|split; vm_compute; reflexivity].
  intros fromFile spec known base. split; [reflexivity|].
  unfold resolveImportToRelativeFile. split; [|split].
  - intros t. rewrite find_Some_split. split.
    + intros (pre & post & E & Ht & Hpre). exists pre, post.
      split; [exact E|]. split.
      * by apply bool_decide_eq_true in Ht.
      * eapply Forall_impl; [exact Hpre|]. intros c Hc.
        by apply bool_decide_eq_false in Hc.
    + intros (pre & post & E & Ht & Hpre). exists pre, post.
      split; [exact E|]. split.
      * by apply bool_decide_eq_true.
      * eapply Forall_impl; [exact Hpre|]. intros c Hc.
        by apply bool_decide_eq_false.
  - rewrite find_None_Forall. split; intros H; (eapply Forall_impl; [exact H|]);
      intros c Hc; simpl in *.
    + by apply bool_decide_eq_false in Hc.
    + by apply bool_decide_eq_false.
  - intros H st. by apply addImport_unresolved.
Qed.

(** From a/b.js, "./c" finds a/c.js at the second probe and "./x" finds
    nothing. *)
Lemma C5_probe_order_first_match_witness :
  let known : gset string := {["a/b.js"; "a/c.js"]} in
  resolveImportToRelativeFile "a/b.js" "./c" known = Some "a/c.js"
  /\ resolveImportToRelativeFile "a/b.js" "./x" known = None
  /\ addImport "a/b.js" known ([], ∅) "./x" = ([], ∅).
Proof.
  intros known.
  destruct (proj1 C5_probe_order_first_match "a/b.js" "./c" known)
    as (_ & Hfirst & _ & _).
  destruct (proj1 C5_probe_order_first_match "a/b.js" "./x" known)
    as (_ & _ & Hnone & Hskip).
  assert (Hx : resolveImportToRelativeFile "a/b.js" "./x" known = None).
  { apply Hnone. repeat constructor; vm_compute; intros H; discriminate H. }
  split; [|split; [exact Hx|exact (Hskip Hx _)]].
  apply Hfirst. exists ["a/c"], ["a/c.jsx"; "a/c.ts"; "a/c.tsx"; "a/c/index.js";
                              "a/c/index.jsx"; "a/c/index.ts"; "a/c/index.tsx"].
  split; [reflexivity|]. split; [set_solver|].
  repeat constructor. vm_compute. intros H. discriminate H.
Defined.

(** ** The result of a resolution is a probe that is in the set *)

Lemma resolve_Some_inv fromFile spec known t :
  resolveImportToRelativeFile fromFile spec known = Some t ->
  In t (importCandidates fromFile spec) /\ t ∈ known.
Proof.
  unfold resolveImportToRelativeFile. intros H.
  apply List.find_some in H as [Hin Hdec].
  split; [exact Hin|]. by apply bool_decide_eq_true in Hdec.
Qed.

(** C10. Probes are matched against the analyzed set by equality of the
    path strings: a file that equals none of the probes is never the
    result, whatever its spelling in lower case; and when no probe is in
    the set the specifier resolves to null and adds no edge. *)
Theorem C10_exact_case_sensitive_match
  (fromFile spec : string) (known : gset string) :
  (forall f, (forall c, In c (importCandidates fromFile spec) -> f <> c) ->
             resolveImportToRelativeFile fromFile spec known <> Some f)
  /\ ((forall c, In c (importCandidates fromFile spec) -> c ∉ known) ->
      resolveImportToRelativeFile fromFile spec known = None
      /\ forall st, addImport fromFile known st spec = st).
Proof.
  split.
  - intros f Hf Hres. apply resolve_Some_inv in Hres as [Hin _].
    exact (Hf f Hin eq_refl).
  - intros Hnone.
    assert (Hres : resolveImportToRelativeFile fromFile spec known = None).
    { destruct (resolveImportToRelativeFile fromFile spec known) as [t|] eqn:E;
        [|reflexivity].
      apply resolve_Some_inv in E as [Hin Hk]. destruct (Hnone t Hin Hk). }
    split; [exact Hres|]. intros st. by apply addImport_unresolved.
Qed.

(** a/C.js differs from the probe a/c.js in letter case only: the
    import of "./c" from a/b.js finds nothing. *)
Lemma C10_exact_case_sensitive_match_witness :
  Js.toLowerCase "a/C.js" = "a/c.js"
  /\ "a/C.js" ∈ ({["a/b.js"; "a/C.js"]} : gset string)
  /\ resolveImportToRelativeFile "a/b.js" "./c" {["a/b.js"; "a/C.js"]} = None
  /\ edges (buildLocalImportsGraph "/"
              (list_to_map [("/r/a/b.js", FileNode (importBare "./c"));
                            ("/r/a/C.js", FileNode "")])
              "/r" ["/r/a/b.js"; "/r/a/C.js"]) = [].
Proof.
  split; [reflexivity|]. split; [set_solver|]. split; [|vm_compute; reflexivity].
  apply (C10_exact_case_sensitive_match "a/b.js" "./c" {["a/b.js"; "a/C.js"]}).
  intros c Hc. simpl in Hc.
  repeat (destruct Hc as [<-|Hc]; [vm_compute; intros H; discriminate H|]).
  destruct Hc.
Defined.

(** ** The edge loop *)

Lemma edgesTracked_init : edgesTracked ([], ∅).
Proof. split; [constructor|]. intros e []. Qed.

Lemma addImport_tracked fromRel known st spec :
  edgesTracked st -> edgesTracked (addImport fromRel known st spec).
Proof.
  intros [Hnd Hkeys]. unfold addImport.
  destruct (resolveImportToRelativeFile fromRel spec known) as [t|]; [|by split].
  destruct (Js.isEmpty t); [by split|].
  case_bool_decide as Hkey; [by split|].
  split; simpl.
  - apply NoDup_app. split; [exact Hnd|]. split.
    + intros e He Hin. apply list_elem_of_In in He.
      apply list_elem_of_singleton in Hin as ->.
      apply Hkey. exact (Hkeys _ He).
    + apply NoDup_singleton.
  - intros e He. apply in_app_or in He as [He|[<-|[]]].
    + apply elem_of_union_r. by apply Hkeys.
    + apply elem_of_union_l. by apply elem_of_singleton.
Qed.

Lemma fold_addImport_tracked fromRel known specs st :
  edgesTracked st -> edgesTracked (fold_left (addImport fromRel known) specs st).
Proof.
  revert st. induction specs as [|s specs IH]; intros st H; simpl; [exact H|].
  apply IH. by apply addImport_tracked.
Qed.

Lemma scanFile_tracked cwd d known st file :
  edgesTracked st -> edgesTracked (scanFile cwd d known st file).
Proof.
  intros H. unfold scanFile. destruct file as [absPath fromRel].
  destruct (Fs.readFile cwd absPath d); [|exact H].
  by apply fold_addImport_tracked.
Qed.

Lemma fold_scanFile_tracked cwd d known files st :
  edgesTracked st -> edgesTracked (fold_left (scanFile cwd d known) files st).
Proof.
  revert st. induction files as [|f files IH]; intros st H; simpl; [exact H|].
  apply IH. by apply scanFile_tracked.
Qed.

(** ** The key of an edge *)

Lemma includes_tail c s sub : Js.includes (String c s) sub = false -> Js.includes s sub = false.
Proof. simpl. intros H. by apply orb_false_elim in H as [_ H]. Qed.

Lemma includes_not_prefix s sub : Js.includes s sub = false -> Js.startsWith s sub = false.
Proof. destruct s; simpl; intros H; by apply orb_false_elim in H as [H _]. Qed.

(** The key [source=>target] tells the source and the target when no
    source holds "=>". *)
Lemma edgeKeyOf_inj s t s' t' :
  noArrow s -> noArrow s' -> edgeKeyOf s t = edgeKeyOf s' t' -> s = s' /\ t = t'.
Proof.
  unfold noArrow, edgeKeyOf. revert s'.
  induction s as [|c s IH]; intros [|c' s'] Hs Hs' E.
  - change ("" ++ "=>" ++ t) with (String "="%char (String ">"%char t)) in E.
    change ("" ++ "=>" ++ t') with (String "="%char (String ">"%char t')) in E.
    injection E as E. by split.
  - exfalso. apply includes_not_prefix in Hs'.
    change ("" ++ "=>" ++ t) with (String "="%char (String ">"%char t)) in E.
    change (String c' s' ++ "=>" ++ t') with (String c' (s' ++ "=>" ++ t')) in E.
    injection E as <- E. destruct s' as [|c2 s'].
    + change ("" ++ "=>" ++ t') with (String "="%char (String ">"%char t')) in E.
      discriminate E.
    + change (String c2 s' ++ "=>" ++ t') with (String c2 (s' ++ "=>" ++ t')) in E.
      injection E as <- E. discriminate Hs'.
  - exfalso. apply includes_not_prefix in Hs.
    change ("" ++ "=>" ++ t') with (String "="%char (String ">"%char t')) in E.
    change (String c s ++ "=>" ++ t) with (String c (s ++ "=>" ++ t)) in E.
    injection E as -> E. destruct s as [|c2 s].
    + change ("" ++ "=>" ++ t) with (String "="%char (String ">"%char t)) in E.
      discriminate E.
    + change (String c2 s ++ "=>" ++ t) with (String c2 (s ++ "=>" ++ t)) in E.
      injection E as -> E. discriminate Hs.
  - change (String c s ++ "=>" ++ t) with (String c (s ++ "=>" ++ t)) in E.
    change (String c' s' ++ "=>" ++ t') with (String c' (s' ++ "=>" ++ t')) in E.
    injection E as -> E.
    destruct (IH s' (includes_tail _ _ _ Hs) (includes_tail _ _ _ Hs') E) as [-> ->].
    by split.
Qed.

Lemma sameEdge_eq e e' : sameEdge e e' = true <-> e = e'.
Proof.
  unfold sameEdge. destruct e as [s t], e' as [s' t']. simpl.
  rewrite andb_true_iff, !String.eqb_eq. split; [by intros [-> ->]|by intros [= -> ->]].
Qed.

Lemma existsb_sameEdge e l : existsb (sameEdge e) l = true <-> In e l.
Proof.
  rewrite existsb_exists. split.
  - intros (x & Hx & E). by apply sameEdge_eq in E as ->.
  - intros H. exists e. split; [exact H|by apply sameEdge_eq].
Qed.

(** ** The loops and the pairs *)

Lemma keysAreEdges_init : keysAreEdges ([], ∅).
Proof.
  split; [intros e []|]. split; [|intros e []].
  intros k Hk. by apply elem_of_empty in Hk.
Qed.

Lemma addImport_pairs fromRel known st spec :
  keysAreEdges st -> noArrow fromRel ->
  (addImport fromRel known st spec).1
  = fold_left addPair (resolvedImport known fromRel spec) st.1
  /\ keysAreEdges (addImport fromRel known st spec).
Proof.
  intros (Hkeys & Hedges & Hsrc) Hfrom. unfold addImport, resolvedImport.
  destruct (resolveImportToRelativeFile fromRel spec known) as [t|];
    [|by repeat split].
  destruct (Js.isEmpty t); [by repeat split|].
  simpl fold_left. unfold addPair.
  set (e := {| source := fromRel; target := t |}).
  case_bool_decide as Hin.
  - destruct (Hedges _ Hin) as (e' & He' & Hk).
    apply edgeKeyOf_inj in Hk as [Hs Ht]; [|by apply Hsrc|exact Hfrom].
    assert (e' = e) as -> by (destruct e'; simpl in *; by subst).
    rewrite (proj2 (existsb_sameEdge e st.1) He'). by repeat split.
  - destruct (existsb (sameEdge e) st.1) eqn:Ex.
    + apply existsb_sameEdge in Ex. destruct Hin. exact (Hkeys e Ex).
    + split; [reflexivity|]. simpl. split; [|split].
      * intros x Hx. apply in_app_or in Hx as [Hx|[<-|[]]].
        -- apply elem_of_union_r. by apply Hkeys.
        -- apply elem_of_union_l. by apply elem_of_singleton.
      * intros k Hk. simpl in Hk. apply elem_of_union in Hk as [Hk|Hk].
        -- apply elem_of_singleton in Hk as ->. exists e.
           split; [apply in_or_app; right; by left|reflexivity].
        -- destruct (Hedges k Hk) as (x & Hx & E). exists x.
           split; [apply in_or_app; by left|exact E].
      * intros x Hx. apply in_app_or in Hx as [Hx|[<-|[]]]; [by apply Hsrc|exact Hfrom].
Qed.

Lemma fold_addImport_pairs fromRel known specs st :
  keysAreEdges st -> noArrow fromRel ->
  (fold_left (addImport fromRel known) specs st).1
  = fold_left addPair (flat_map (resolvedImport known fromRel) specs) st.1
  /\ keysAreEdges (fold_left (addImport fromRel known) specs st).
Proof.
  revert st. induction specs as [|s specs IH]; intros st Hst Hfrom; simpl;
    [by split|].
  destruct (addImport_pairs fromRel known st s Hst Hfrom) as [E Hst'].
  rewrite fold_left_app, <- E. by apply IH.
Qed.

Lemma fold_scanFile_pairs cwd d known files st :
  keysAreEdges st ->
  (forall absPath fromRel, In (absPath, fromRel) files -> noArrow fromRel) ->
  (fold_left (scanFile cwd d known) files st).1
  = fold_left addPair
      (flat_map (fun '(absPath, fromRelPath) =>
                   match Fs.readFile cwd absPath d with
                   | Ok fileContent =>
                       flat_map (resolvedImport known fromRelPath)
                         (localImportSpecsOf fileContent)
                   | Throw _ => []
                   end) files) st.1.
Proof.
  revert st. induction files as [|[absPath fromRel] files IH]; intros st Hst Hfiles;
    simpl; [reflexivity|].
  rewrite fold_left_app.
  assert (Hfrom : noArrow fromRel) by (apply (Hfiles absPath); by left).
  destruct (Fs.readFile cwd absPath d) as [content|err].
  - destruct (fold_addImport_pairs fromRel known (localImportSpecsOf content) st
                Hst Hfrom) as [E Hst'].
    rewrite <- E. apply IH; [exact Hst'|].
    intros a f Hin. apply (Hfiles a). by right.
  - simpl. apply IH; [exact Hst|]. intros a f Hin. apply (Hfiles a). by right.
Qed.

Lemma in_combine_relPaths {A B} (f : A -> B) l a b :
  In (a, b) (combine l (List.map f l)) -> In a l /\ b = f a.
Proof.
  induction l as [|x l IH]; simpl; [tauto|].
  intros [[= <- <-]|H]; [auto|]. destruct (IH H). auto.
Qed.

(** C6.  The edge list is not the one the claim describes: the key
    that the loop keeps in edgeKeySet is the text source=>target, and
    two different pairs can have one key.  With the four files
    p.js, p.js=>q.js, q.js=>r.js and r.js, p.js importing
    ./q.js=>r.js and p.js=>q.js naming ./r.js in an import statement
    and in a require call, the specifier ./r.js is found once and
    resolves to the node r.js, its pair has the key of the edge from
    p.js to q.js=>r.js, and the graph has that edge only: no edge
    leaves p.js=>q.js, where the claim has exactly one.

    What does hold: no (source, target) pair is in the edge list twice,
    whatever the files hold; as long as no id of a source-code file
    holds "=>", the edge list is the one the claim describes, one edge
    for every pair among the imports that resolve, in the order of
    their first import; and a file that names one target through an
    import statement, a bare import and a require call gets one edge
    to it. *)
Theorem C6_edge_key_collision_drops_an_edge :
  (let g := buildLocalImportsGraph "/" collisionDisk "/r" collisionFiles in
   localImportSpecsOf collisionContent = ["./r.js"]
   /\ resolveImportToRelativeFile "p.js=>q.js" "./r.js" (list_to_set (nodeIds g))
      = Some "r.js"
   /\ In "r.js" (nodeIds g)
   /\ edgeKeyOf "p.js=>q.js" "r.js" = edgeKeyOf "p.js" "q.js=>r.js"
   /\ edges g = [{| source := "p.js"; target := "q.js=>r.js" |}]
   /\ onePerPair (resolvedImports "/" collisionDisk "/r" collisionFiles)
      = [{| source := "p.js"; target := "q.js=>r.js" |};
         {| source := "p.js=>q.js"; target := "r.js" |}])
  /\ (forall (cwd : string) (d : Disk) (rootDir : string) (filePathsAbs : list string),
        List.NoDup (edges (buildLocalImportsGraph cwd d rootDir filePathsAbs)))
  /\ (forall (cwd : string) (d : Disk) (rootDir : string) (filePathsAbs : list string),
        (forall p, In p filePathsAbs -> isCodeFile p = true ->
                   noArrow (relPathOf cwd rootDir p)) ->
        edges (buildLocalImportsGraph cwd d rootDir filePathsAbs)
        = onePerPair (resolvedImports cwd d rootDir filePathsAbs))
  /\ extractImportSpecifiers
       ("import c from './c'; " ++ importBare "./c.js" ++ "; const x = require('./c');")
     = ["./c"; "./c.js"]
  /\ edges (buildLocalImportsGraph "/"
              (exampleDisk
                 ("import c from './c'; " ++ importBare "./c.js"
                  ++ "; const x = require('./c');"))
              "/r" ["/r/a/b.js"; "/r/a/c.js"])
     = [{| source := "a/b.js"; target := "a/c.js" |}].
Proof.
  split; [|split; [|split; [|split; vm_compute; reflexivity]]].
  - vm_compute. repeat split; auto.
  - intros cwd d rootDir filePathsAbs. unfold buildLocalImportsGraph. simpl.
    apply NoDup_ListNoDup.
    apply (fold_scanFile_tracked cwd d), edgesTracked_init.
  - intros cwd d rootDir filePathsAbs Hids.
    unfold buildLocalImportsGraph, resolvedImports, onePerPair. simpl.
    apply (fold_scanFile_pairs cwd d _ _ ([], ∅) keysAreEdges_init).
    intros absPath fromRel Hin. apply in_combine_relPaths in Hin as [Hin ->].
    apply filter_In in Hin as [Hin Hcode]. by apply Hids.
Qed.

(** ** Where edges come from *)

Lemma addImport_sources fromRel known st spec e :
  In e (addImport fromRel known st spec).1 -> In e st.1 \/ source e = fromRel.
Proof.
  unfold addImport.
  destruct (resolveImportToRelativeFile fromRel spec known) as [t|]; [|auto].
  destruct (Js.isEmpty t); [auto|].
  case_bool_decide; [auto|]. simpl.
  intros He. apply in_app_or in He as [He|[<-|[]]]; auto.
Qed.

Lemma fold_addImport_sources fromRel known specs st e :
  In e (fold_left (addImport fromRel known) specs st).1 ->
  In e st.1 \/ source e = fromRel.
Proof.
  revert st. induction specs as [|s specs IH]; intros st He; simpl in He; [auto|].
  apply IH in He as [He|He]; [|auto]. by apply addImport_sources in He.
Qed.

Lemma fold_scanFile_sources cwd d known files all st :
  (forall f, In f files -> In f all) ->
  sourcesReadable cwd d all st ->
  sourcesReadable cwd d all (fold_left (scanFile cwd d known) files st).
Proof.
  revert st. induction files as [|[absPath fromRel] files IH];
    intros st Hsub H; simpl; [exact H|].
  apply IH; [intros f Hf; apply Hsub; by right|].
  destruct (Fs.readFile cwd absPath d) as [content|err] eqn:Hread; [|exact H].
  intros e He. apply fold_addImport_sources in He as [He|He]; [by apply H|].
  exists absPath, content. split; [|exact Hread].
  rewrite He. apply Hsub. by left.
Qed.

Lemma scanFile_unreadable cwd d known st absPath fromRel err :
  Fs.readFile cwd absPath d = Throw err ->
  scanFile cwd d known st (absPath, fromRel) = st.
Proof. intros H. unfold scanFile. by rewrite H. Qed.

(** C9. A source-code file of the analyzed list that cannot be read is
    still a node of the graph; its round of the scan leaves the edges as
    they were; and no edge of the graph leaves its id, as long as no
    readable file of the list has the same id.  The graph is built in
    any case: the failure is caught, not propagated. *)
Theorem C9_unreadable_file_is_node_without_edges
  (cwd : string) (d : Disk) (rootDir : string) (filePathsAbs : list string)
  (absPath : string) :
  In absPath filePathsAbs ->
  isCodeFile absPath = true ->
  unreadable cwd d absPath ->
  let g := buildLocalImportsGraph cwd d rootDir filePathsAbs in
  let fromRel := relPathOf cwd rootDir absPath in
  In {| id := fromRel |} (nodes g)
  /\ (forall known st, scanFile cwd d known st (absPath, fromRel) = st)
  /\ ((forall p, In p filePathsAbs -> relPathOf cwd rootDir p = fromRel ->
                 unreadable cwd d p) ->
      forall e, In e (edges g) -> source e <> fromRel).
Proof.
  intros Hin Hcode [err Herr] g fromRel. split; [|split].
  - unfold g, buildLocalImportsGraph. simpl.
    apply in_map with (f := fun i => {| id := i |}).
    apply in_map with (f := relPathOf cwd rootDir).
    apply filter_In. by split.
  - intros known st. by apply scanFile_unreadable with (err := err).
  - intros Hall e He Hsrc.
    unfold g, buildLocalImportsGraph in He. simpl in He.
    eapply fold_scanFile_sources in He; [| intros f Hf; exact Hf | intros e' []].
    destruct He as (p & content & Hp & Hread).
    assert (Hp' : In p filePathsAbs /\ relPathOf cwd rootDir p = source e).
    { clear -Hp. induction filePathsAbs as [|q l IH]; simpl in Hp; [destruct Hp|].
      destruct (isCodeFile q); simpl in Hp.
      - destruct Hp as [[= <- <-]|Hp]; [split; [by left|reflexivity]|].
        destruct (IH Hp) as [? ?]. split; [by right|assumption].
      - destruct (IH Hp) as [? ?]. split; [by right|assumption]. }
    destruct Hp' as [Hp1 Hp2]. rewrite Hsrc in Hp2.
    destruct (Hall p Hp1 Hp2) as [err' Herr']. congruence.
Qed.

(** a/b.js is listed but missing from the disk; a/c.js can be read. *)
Lemma C9_unreadable_file_is_node_without_edges_witness :
  let d : Disk := list_to_map [("/r/a/c.js", FileNode "require('./b')")] in
  let g := buildLocalImportsGraph "/" d "/r" ["/r/a/b.js"; "/r/a/c.js"] in
  In {| id := "a/b.js" |} (nodes g)
  /\ (forall e, In e (edges g) -> source e <> "a/b.js")
  /\ g = {| nodes := [{| id := "a/b.js" |}; {| id := "a/c.js" |}];
            edges := [{| source := "a/c.js"; target := "a/b.js" |}] |}.
Proof.
  intros d g.
  assert (Hun : unreadable "/" d "/r/a/b.js") by (eexists; vm_compute; reflexivity).
  destruct (C9_unreadable_file_is_node_without_edges "/" d "/r"
              ["/r/a/b.js"; "/r/a/c.js"] "/r/a/b.js")
    as (Hnode & _ & Hedges); [by left | vm_compute; reflexivity | exact Hun |].
  split; [exact Hnode|]. split; [|vm_compute; reflexivity].
  apply Hedges. intros p [<-|[<-|[]]] Hrel; [exact Hun|].
  vm_compute in Hrel. discriminate Hrel.
Defined.

(* ================================================================== *)
(** * Properties of the stats *)
(* ================================================================== *)

(** ** The degree map *)

Lemma mapGet_mapSet_eq k v m : mapGet k (mapSet k v m) = Some v.
Proof.
  induction m as [|[k' v'] m IH]; simpl.
  - by rewrite String.eqb_refl.
  - destruct (String.eqb k' k) eqn:E; simpl; rewrite E; [reflexivity|exact IH].
Qed.

Lemma mapGet_mapSet_ne k k' v m : k <> k' -> mapGet k' (mapSet k v m) = mapGet k' m.
Proof.
  intros Hne. induction m as [|[k0 v0] m IH]; simpl.
  - destruct (String.eqb k k') eqn:E; [|reflexivity].
    apply String.eqb_eq in E. contradiction.
  - destruct (String.eqb k0 k) eqn:E; simpl.
    + apply String.eqb_eq in E as ->.
      destruct (String.eqb k k') eqn:E'; [|reflexivity].
      apply String.eqb_eq in E'. contradiction.
    + by rewrite IH.
Qed.

Lemma keysOf_mapSet k v m : keysOf (mapSet k v m) = setAdd (keysOf m) k.
Proof.
  unfold setAdd. induction m as [|[k' v'] m IH]; simpl; [reflexivity|].
  rewrite (String.eqb_sym k k').
  destruct (String.eqb k' k) eqn:E; simpl; [reflexivity|].
  rewrite IH. by destruct (existsb (String.eqb k) (keysOf m)).
Qed.

Lemma existsb_eqb_In k l : existsb (String.eqb k) l = true <-> In k l.
Proof.
  rewrite existsb_exists. split.
  - intros (x & Hx & E). by apply String.eqb_eq in E as ->.
  - intros H. exists k. split; [exact H|apply String.eqb_refl].
Qed.

Lemma setAdd_present k l : In k l -> setAdd l k = l.
Proof. intros H. unfold setAdd. apply existsb_eqb_In in H. by rewrite H. Qed.

Lemma mapGet_Some_In k m : In k (keysOf m) -> exists v, mapGet k m = Some v.
Proof.
  induction m as [|[k' v'] m IH]; simpl; [intros []|].
  destruct (String.eqb k' k) eqn:E; [eauto|].
  intros [->|H]; [by rewrite String.eqb_refl in E|auto].
Qed.

Lemma getOrZero_bump_eq k m : getOrZero k (bump m k) = getOrZero k m + 1.
Proof. unfold bump, getOrZero at 1. by rewrite mapGet_mapSet_eq. Qed.

Lemma getOrZero_bump_ne k k' m : k <> k' -> getOrZero k' (bump m k) = getOrZero k' m.
Proof. intros H. unfold bump, getOrZero. by rewrite mapGet_mapSet_ne. Qed.

Lemma keysOf_bump k m : keysOf (bump m k) = setAdd (keysOf m) k.
Proof. apply keysOf_mapSet. Qed.

Lemma getOrZero_bumpEnds i m e :
  getOrZero i (bumpEnds m e) = getOrZero i m + endsAt i e.
Proof.
  destruct e as [s t]. unfold bumpEnds, endsAt. simpl.
  destruct (String.eqb t i) eqn:Et; destruct (String.eqb s i) eqn:Es;
    try (apply String.eqb_eq in Et; subst t);
    try (apply String.eqb_eq in Es; subst s);
    try apply String.eqb_neq in Et; try apply String.eqb_neq in Es;
    rewrite ?getOrZero_bump_eq, ?(getOrZero_bump_ne _ _ _ Et),
      ?getOrZero_bump_eq, ?(getOrZero_bump_ne _ _ _ Es); lia.
Qed.

Lemma firstSeen_lt_length ids i : In i ids -> (firstSeen ids i < List.length ids)%nat.
Proof.
  induction ids as [|x ids IH]; simpl; [intros []|].
  destruct (String.eqb x i) eqn:E; [lia|].
  intros [->|H]; [by rewrite String.eqb_refl in E|].
  specialize (IH H). lia.
Qed.

Lemma firstSeen_app_l ids k i : In i ids -> firstSeen (ids ++ [k]) i = firstSeen ids i.
Proof.
  induction ids as [|x ids IH]; simpl; [intros []|].
  destruct (String.eqb x i) eqn:E; [reflexivity|].
  intros [->|H]; [by rewrite String.eqb_refl in E|]. by rewrite IH.
Qed.

Lemma firstSeen_app_fresh ids k : ~ In k ids -> firstSeen (ids ++ [k]) k = List.length ids.
Proof.
  induction ids as [|x ids IH]; simpl; intros H.
  - by rewrite String.eqb_refl.
  - destruct (String.eqb x k) eqn:E.
    + apply String.eqb_eq in E. destruct H. by left.
    + rewrite IH; [reflexivity|]. intros Hk. apply H. by right.
Qed.

Lemma StronglySorted_mono_In {A} (R R' : A -> A -> Prop) (l : list A) :
  (forall a b, In a l -> In b l -> R a b -> R' a b) ->
  StronglySorted R l -> StronglySorted R' l.
Proof.
  intros Himp Hs. induction Hs as [|a l Hs IH Hall]; constructor.
  - apply IH. intros x y Hx Hy. apply Himp; by right.
  - apply Forall_forall. intros y Hy. apply list_elem_of_In in Hy.
    apply Himp; [by left|by right|].
    rewrite Forall_forall in Hall. apply Hall. by apply list_elem_of_In.
Qed.

(** The keys of a map filled from [ids] are the ids, each once, in the
    order they were first seen. *)
Lemma fold_setAdd_order ids :
  let keys := fold_left setAdd ids [] in
  (forall k, In k keys <-> In k ids) /\ StronglySorted (seenBefore ids) keys.
Proof.
  induction ids as [|k ids IH] using rev_ind; simpl.
  - split; [tauto|constructor].
  - destruct IH as [Hin Hsorted]. rewrite fold_left_app. simpl.
    set (keys := fold_left setAdd ids []) in *.
    assert (Hmono : StronglySorted (seenBefore (ids ++ [k])) keys).
    { eapply StronglySorted_mono_In; [|exact Hsorted].
      intros a b Ha Hb. unfold seenBefore.
      rewrite !firstSeen_app_l by (by apply Hin). auto. }
    unfold setAdd. destruct (existsb (String.eqb k) keys) eqn:E.
    + apply existsb_eqb_In in E. split; [|exact Hmono].
      intros x. rewrite in_app_iff, Hin. simpl. split; [auto|].
      intros [H|[<-|[]]]; [exact H|]. by apply Hin.
    + assert (Hk : ~ In k ids).
      { intros H. apply Hin, existsb_eqb_In in H. congruence. }
      split.
      * intros x. rewrite !in_app_iff, Hin. reflexivity.
      * apply StronglySorted_app. split; [|split].
        -- intros a b Ha Hb. apply list_elem_of_In, Hin in Ha.
           apply list_elem_of_singleton in Hb as ->. unfold seenBefore.
           rewrite firstSeen_app_l by exact Ha.
           rewrite firstSeen_app_fresh by exact Hk.
           by apply firstSeen_lt_length.
        -- exact Hmono.
        -- repeat constructor.
Qed.

Lemma fold_initDegrees_keys (ns : list GraphNode) (m : JsMap) :
  keysOf (fold_left (fun m node => mapSet (id node) 0 m) ns m)
  = fold_left setAdd (List.map id ns) (keysOf m).
Proof.
  revert m. induction ns as [|n ns IH]; intros m; simpl; [reflexivity|].
  by rewrite IH, keysOf_mapSet.
Qed.

Lemma getOrZero_mapSet_zero i k m :
  getOrZero i m = 0 -> getOrZero i (mapSet k 0 m) = 0.
Proof.
  intros H. unfold getOrZero. destruct (string_dec k i) as [->|Hne].
  - by rewrite mapGet_mapSet_eq.
  - by rewrite mapGet_mapSet_ne.
Qed.

Lemma fold_initDegrees_zero (ns : list GraphNode) (m : JsMap) i :
  getOrZero i m = 0 ->
  getOrZero i (fold_left (fun m node => mapSet (id node) 0 m) ns m) = 0.
Proof.
  revert m. induction ns as [|n ns IH]; intros m H; simpl; [exact H|].
  apply IH. by apply getOrZero_mapSet_zero.
Qed.

Lemma fold_bumpEnds_degree es m i :
  getOrZero i (fold_left bumpEnds es m)
  = getOrZero i m + fold_right Z.add 0 (List.map (endsAt i) es).
Proof.
  revert m. induction es as [|e es IH]; intros m; simpl; [lia|].
  rewrite IH, getOrZero_bumpEnds. lia.
Qed.

Lemma fold_bumpEnds_keys es m :
  (forall e, In e es -> In (source e) (keysOf m) /\ In (target e) (keysOf m)) ->
  keysOf (fold_left bumpEnds es m) = keysOf m.
Proof.
  revert m. induction es as [|e es IH]; intros m H; simpl; [reflexivity|].
  assert (Hk : keysOf (bumpEnds m e) = keysOf m).
  { unfold bumpEnds. destruct (H e (or_introl eq_refl)) as [Hs Ht].
    rewrite keysOf_bump, keysOf_bump, (setAdd_present _ _ Hs).
    by apply setAdd_present. }
  rewrite IH; [exact Hk|]. intros e' He'. rewrite Hk. apply H. by right.
Qed.

Lemma sum_endsAt g i :
  fold_right Z.add 0 (List.map (endsAt i) (edges g)) = inDegree g i + outDegree g i.
Proof.
  unfold inDegree, outDegree. induction (edges g) as [|e es IH]; simpl; [reflexivity|].
  rewrite IH. unfold endsAt.
  destruct (String.eqb (source e) i), (String.eqb (target e) i); simpl length; lia.
Qed.

Lemma degreeByNodeOf_keys g :
  graphClosed g -> keysOf (degreeByNodeOf g) = fold_left setAdd (nodeIds g) [].
Proof.
  intros Hclosed. unfold degreeByNodeOf.
  change (fun m edge => bump (bump m (source edge)) (target edge)) with bumpEnds.
  rewrite fold_bumpEnds_keys; [apply fold_initDegrees_keys|].
  intros e He. rewrite fold_initDegrees_keys. simpl.
  destruct (Hclosed e He) as [Hs Ht].
  split; by apply (fold_setAdd_order (nodeIds g)).
Qed.

Lemma degreeByNodeOf_getOrZero g i :
  getOrZero i (degreeByNodeOf g) = inDegree g i + outDegree g i.
Proof.
  unfold degreeByNodeOf.
  change (fun m edge => bump (bump m (source edge)) (target edge)) with bumpEnds.
  rewrite fold_bumpEnds_degree, sum_endsAt, fold_initDegrees_zero; reflexivity.
Qed.

Lemma In_mapGet_keys k v (m : JsMap) :
  NoDup (keysOf m) -> In (k, v) m -> mapGet k m = Some v.
Proof.
  induction m as [|[k' v'] m IH]; simpl; [intros _ []|].
  intros Hnd Hin. apply NoDup_cons in Hnd as [Hk' Hnd].
  destruct Hin as [[= -> ->]|Hin]; [by rewrite String.eqb_refl|].
  destruct (String.eqb k' k) eqn:E; [|auto].
  apply String.eqb_eq in E as ->. destruct Hk'.
  apply list_elem_of_In. by apply (in_map fst _ (k, v)).
Qed.

Lemma StronglySorted_irrefl_NoDup {A} (R : A -> A -> Prop) (l : list A) :
  (forall a, ~ R a a) -> StronglySorted R l -> NoDup l.
Proof.
  intros Hirr Hs. induction Hs as [|a l Hs IH Hall]; constructor; [|exact IH].
  intros Ha. rewrite Forall_forall in Hall. exact (Hirr a (Hall a Ha)).
Qed.

Lemma StronglySorted_keys {B} (R : string -> string -> Prop) (m : list (string * B)) :
  StronglySorted R (List.map fst m) -> StronglySorted (fun a b => R a.1 b.1) m.
Proof.
  induction m as [|a m IH]; simpl; intros H; [constructor|].
  apply StronglySorted_inv in H as [Hs Hall]. constructor; [by apply IH|].
  apply Forall_forall. intros b Hb. rewrite Forall_forall in Hall.
  apply Hall. apply list_elem_of_In. apply list_elem_of_In in Hb.
  by apply (in_map fst).
Qed.

(** Inserting an entry seen after all the entries of a ranked list
    keeps the list ranked: the sort is stable. *)
Lemma insertSorted_ranked (pos : string -> nat) (x : string * Z) (acc : list (string * Z)) :
  let R := fun a b : string * Z => a.2 > b.2 \/ (a.2 = b.2 /\ (pos a.1 < pos b.1)%nat) in
  StronglySorted R acc ->
  (forall y, In y acc -> (pos y.1 < pos x.1)%nat) ->
  StronglySorted R (insertSorted byDegreeDesc x acc).
Proof.
  intros R Hs Hpos. induction Hs as [|y acc Hs IH Hall]; simpl.
  - repeat constructor.
  - rewrite Forall_forall in Hall. unfold byDegreeDesc at 1.
    destruct (x.2 - y.2 >? 0) eqn:E.
    + apply Z.gtb_lt in E. constructor; [by constructor; [|apply Forall_forall]|].
      apply Forall_forall. intros z Hz. apply list_elem_of_In in Hz.
      destruct Hz as [<-|Hz]; [left; lia|].
      apply list_elem_of_In in Hz. specialize (Hall z Hz).
      left. unfold R in Hall. lia.
    + assert (Hle : x.2 <= y.2).
      { destruct (Z.gtb_spec (x.2 - y.2) 0); [discriminate|lia]. }
      constructor.
      * apply IH. intros z Hz. apply Hpos. by right.
      * apply Forall_forall. intros z Hz. apply list_elem_of_In in Hz.
        apply insertSorted_In in Hz as [->|Hz].
        -- specialize (Hpos y (or_introl eq_refl)). unfold R. lia.
        -- apply Hall. by apply list_elem_of_In.
Qed.

Lemma jsSort_ranked (pos : string -> nat) (m : list (string * Z)) :
  let R := fun a b : string * Z => a.2 > b.2 \/ (a.2 = b.2 /\ (pos a.1 < pos b.1)%nat) in
  StronglySorted (fun a b : string * Z => (pos a.1 < pos b.1)%nat) m ->
  StronglySorted R (jsSort byDegreeDesc m).
Proof.
  intros R. induction m as [|x m IH] using rev_ind; intros Hs.
  - constructor.
  - rewrite jsSort_snoc. apply StronglySorted_app in Hs as (Hlt & Hm & _).
    apply insertSorted_ranked; [by apply IH|].
    intros y Hy. apply (Permutation_in _ (jsSort_perm byDegreeDesc m)) in Hy.
    apply Hlt; [by apply list_elem_of_In|by apply list_elem_of_singleton].
Qed.

Lemma addImport_targets fromRel known st spec :
  targetsKnown known st -> targetsKnown known (addImport fromRel known st spec).
Proof.
  intros H. unfold addImport.
  destruct (resolveImportToRelativeFile fromRel spec known) as [t|] eqn:E; [|exact H].
  destruct (Js.isEmpty t); [exact H|]. case_bool_decide; [exact H|].
  intros e He. simpl in He. apply in_app_or in He as [He|[<-|[]]]; [by apply H|].
  simpl. by apply resolve_Some_inv in E as [_ ?].
Qed.

Lemma fold_scanFile_targets cwd d known files st :
  targetsKnown known st ->
  targetsKnown known (fold_left (scanFile cwd d known) files st).
Proof.
  revert st. induction files as [|[absPath fromRel] files IH]; intros st H; simpl;
    [exact H|].
  apply IH. destruct (Fs.readFile cwd absPath d) as [content|err]; [|exact H].
  generalize (localImportSpecsOf content). intros specs. revert st H.
  induction specs as [|s specs IHs]; intros st H; simpl; [exact H|].
  by apply IHs, addImport_targets.
Qed.

(** The graphs that the server builds have their edges between their
    nodes. *)
Lemma buildLocalImportsGraph_closed cwd d rootDir filePathsAbs :
  graphClosed (buildLocalImportsGraph cwd d rootDir filePathsAbs).
Proof.
  intros e He. unfold buildLocalImportsGraph, nodeIds in *. simpl in *.
  rewrite List.map_map. simpl. rewrite List.map_id. split.
  - eapply fold_scanFile_sources in He; [| intros f Hf; exact Hf | intros e' []].
    destruct He as (p & content & Hp & _). by apply in_combine_r in Hp.
  - eapply (fold_scanFile_targets cwd d) in He; [|intros e' []].
    apply elem_of_list_to_set in He. by apply list_elem_of_In.
Qed.

(** C8. For a graph whose edges run between its nodes, as every graph
    built by buildLocalImportsGraph is, the stats that
    buildAnalysisStats returns have as topDegree the first 8 entries
    of the ranking of the nodes: every node id once, with its incoming
    plus its outgoing edge count as degree, a greater degree first and
    equal degrees in the order the nodes were first seen; the degree
    map behind it gives every node that count and has no other entry;
    and nodes and edges are the lengths of the two lists.  For the
    nodes A, B, C with the edges A->B, B->C, A->C the stats list A, B,
    C, each of degree 2. *)
Theorem C8_degree_ranking :
  (forall (cwd rootDir : string) (filePathsAbs : list string) (g : Graph),
     graphClosed g ->
     let stats := graph (buildAnalysisStats cwd rootDir filePathsAbs g) in
     (exists ranked,
        isDegreeRanking g ranked
        /\ topDegree stats = List.map degreeEntryOf (firstn 8 ranked))
     /\ (List.length (topDegree stats) <= 8)%nat
     /\ nodesCount stats = Z.of_nat (List.length (nodes g))
     /\ edgesCount stats = Z.of_nat (List.length (edges g)))
  /\ (forall g : Graph, graphClosed g ->
        (forall i, In i (nodeIds g) ->
           mapGet i (degreeByNodeOf g) = Some (inDegree g i + outDegree g i))
        /\ (forall i d, In (i, d) (degreeByNodeOf g) ->
              In i (nodeIds g) /\ d = inDegree g i + outDegree g i))
  /\ (forall cwd d rootDir filePathsAbs,
        graphClosed (buildLocalImportsGraph cwd d rootDir filePathsAbs))
  /\ topDegree (graph (buildAnalysisStats "/" "/r" [] threeNodeGraph))
     = [{| entryId := "A"; degree := 2 |}; {| entryId := "B"; degree := 2 |};
        {| entryId := "C"; degree := 2 |}].
Proof.
  assert (Hmap : forall g : Graph, graphClosed g ->
            NoDup (keysOf (degreeByNodeOf g))
            /\ (forall i, In i (keysOf (degreeByNodeOf g)) <-> In i (nodeIds g))
            /\ StronglySorted (seenBefore (nodeIds g)) (keysOf (degreeByNodeOf g))
            /\ (forall i, In i (nodeIds g) ->
                  mapGet i (degreeByNodeOf g) = Some (inDegree g i + outDegree g i))
            /\ (forall i d, In (i, d) (degreeByNodeOf g) ->
                  In i (nodeIds g) /\ d = inDegree g i + outDegree g i)).
  { intros g Hclosed.
    pose proof (degreeByNodeOf_keys g Hclosed) as Hkeys.
    destruct (fold_setAdd_order (nodeIds g)) as [Hin Hsorted].
    rewrite <- Hkeys in Hin, Hsorted.
    assert (Hnd : NoDup (keysOf (degreeByNodeOf g))).
    { eapply StronglySorted_irrefl_NoDup; [|exact Hsorted].
      intros a. unfold seenBefore. lia. }
    assert (Hget : forall i, In i (nodeIds g) ->
              mapGet i (degreeByNodeOf g) = Some (inDegree g i + outDegree g i)).
    { intros i Hi. apply Hin, mapGet_Some_In in Hi as [v Hv].
      pose proof (degreeByNodeOf_getOrZero g i) as Hd.
      unfold getOrZero in Hd. rewrite Hv in Hd. by rewrite Hv, Hd. }
    split; [exact Hnd|]. split; [exact Hin|]. split; [exact Hsorted|].
    split; [exact Hget|].
    intros i d Hid.
    assert (Hi : In i (nodeIds g)).
    { apply Hin. by apply (in_map fst _ (i, d)). }
    split; [exact Hi|].
    apply (In_mapGet_keys _ _ _ Hnd) in Hid. rewrite (Hget i Hi) in Hid. congruence. }
  split; [|split; [|split; [apply buildLocalImportsGraph_closed|vm_compute; reflexivity]]].
  - intros cwd rootDir filePathsAbs g Hclosed stats.
    destruct (Hmap g Hclosed) as (Hnd & Hin & Hsorted & _ & Hent).
    pose proof (jsSort_perm byDegreeDesc (degreeByNodeOf g)) as Hperm.
    split; [|split; [|split; reflexivity]].
    + exists (jsSort byDegreeDesc (degreeByNodeOf g)). split.
      * split; [|split; [|split]].
        -- intros i. rewrite <- Hin. unfold keysOf.
           split; apply Permutation_in; [|symmetry]; by apply Permutation_map.
        -- apply NoDup_ListNoDup.
           assert (Hp : List.map fst (jsSort byDegreeDesc (degreeByNodeOf g))
                        ≡ₚ keysOf (degreeByNodeOf g)) by (by apply Permutation_map).
           by rewrite Hp.
        -- intros i d Hid. apply (Permutation_in _ Hperm) in Hid. by apply Hent.
        -- apply (jsSort_ranked (firstSeen (nodeIds g))).
           by apply StronglySorted_keys in Hsorted.
      * unfold stats. simpl. unfold topDegreeOf. apply map_ext. by intros [i d].
    + unfold stats. simpl. unfold topDegreeOf. rewrite length_map. apply firstn_le_length.
  - intros g Hclosed. destruct (Hmap g Hclosed) as (_ & _ & _ & Hget & Hent). by split.
Qed.

Lemma C8_degree_ranking_witness :
  graphClosed threeNodeGraph
  /\ mapGet "B" (degreeByNodeOf threeNodeGraph)
     = Some (inDegree threeNodeGraph "B" + outDegree threeNodeGraph "B")
  /\ inDegree threeNodeGraph "B" + outDegree threeNodeGraph "B" = 2
  /\ (List.length (topDegree (graph (buildAnalysisStats "/" "/r" [] threeNodeGraph)))
      <= 8)%nat.
Proof.
  assert (H : graphClosed threeNodeGraph).
  { intros e He. simpl in He.
    repeat (destruct He as [<-|He]; [simpl; tauto|]). destruct He. }
  split; [exact H|]. split; [|split; [reflexivity|]].
  - apply (proj1 (proj1 (proj2 C8_degree_ranking) threeNodeGraph H)). simpl. tauto.
  - exact (proj1 (proj2 (proj1 C8_degree_ranking "/" "/r" [] threeNodeGraph H))).
Defined.

(* ================================================================== *)
(** * Further properties of the safe extraction *)
(* ================================================================== *)

(** ** What a successful round of the loop went through *)

Lemma extractEntry_directory cwd targetDir limits st entry :
  isDirectory entry = true ->
  extractEntry cwd targetDir limits st entry = ret st.
Proof. intros H. unfold extractEntry. by rewrite H. Qed.

Lemma isDirectory_false entry : isDirectory entry = false <-> type entry = File.
Proof. unfold isDirectory. destruct (type entry); split; congruence. Qed.

Lemma gtb_false_inv a b : (a >? b) = false -> a <= b.
Proof. intros H. destruct (Z.gtb_spec a b); [discriminate|lia]. Qed.

Lemma extractEntry_ok_inv cwd targetDir limits st entry (d d' : Disk) st' :
  isDirectory entry = false ->
  extractEntry cwd targetDir limits st entry d = (Ok st', d') ->
  passesLimitChecks limits st entry
  /\ passesPathGuards cwd targetDir entry
  /\ st' = countersAfter st entry
  /\ writeEntry cwd limits (destinationOf targetDir entry) entry
       (countersAfter st entry) d = (Ok st', d').
Proof.
  intros Hdir H.
  assert (Hlim : passesLimitChecks limits st entry).
  { revert H. unfold extractEntry. rewrite Hdir.
    destruct (_ >? maxFiles limits) eqn:E1; [discriminate|].
    destruct (_ >? maxFileBytes limits) eqn:E2; [discriminate|].
    destruct (_ >? maxTotalBytes limits) eqn:E3; [discriminate|].
    intros _. apply gtb_false_inv in E1, E2, E3. by repeat split. }
  apply isDirectory_false in Hdir.
  rewrite (extractEntry_guards cwd targetDir limits st entry Hdir Hlim) in H.
  unfold passesPathGuards, destinationOf.
  destruct (unsafeRelPath _) eqn:E4; [discriminate|].
  destruct (insideDir _ _) eqn:E5; simpl in H; [|discriminate].
  assert (Hst : st' = countersAfter st entry).
  { revert H. unfold writeEntry, bind.
    destruct (Fs.mkdirRecursive _ _ d) as [[[]|?] ?]; [|discriminate].
    destruct (Fs.openWrite _ _ _) as [[?|?] ?]; [|discriminate].
    destruct (pipeWithLimit _ _ _ _ _) as [[[]|?] ?]; [|discriminate].
    by intros [= <- _]. }
  split; [exact Hlim|]. split; [by split|]. split; [exact Hst|].
  subst st'. exact H.
Qed.

Lemma extractEntries_app cwd targetDir limits l1 l2 st (d d' : Disk) st' :
  extractEntries cwd targetDir limits st (l1 ++ l2)%list d = (Ok st', d') ->
  exists st1 d1,
    extractEntries cwd targetDir limits st l1 d = (Ok st1, d1)
    /\ extractEntries cwd targetDir limits st1 l2 d1 = (Ok st', d').
Proof.
  revert st d. induction l1 as [|e l1 IH]; intros st d; simpl.
  - intros H. by exists st, d.
  - unfold bind. destruct (extractEntry cwd targetDir limits st e d) as [[st1|err] d1];
      [|discriminate]. apply IH.
Qed.

Lemma safeExtractZip_ok_inv cwd files targetDir limits (d0 d' : Disk) :
  safeExtractZip cwd (Ok files) targetDir limits d0 = (Ok tt, d') ->
  exists d1 st,
    Fs.mkdirRecursive cwd targetDir d0 = (Ok tt, d1)
    /\ extractEntries cwd targetDir limits zeroCounters files d1 = (Ok st, d').
Proof.
  unfold safeExtractZip, bind.
  destruct (Fs.mkdirRecursive cwd targetDir d0) as [[[]|e1] d1]; [|discriminate].
  fold zeroCounters.
  destruct (extractEntries cwd targetDir limits zeroCounters files d1)
    as [[st|e2] d2] eqn:E; [|discriminate].
  intros [= <-]. by exists d1, st.
Qed.

(** The counters after a successful run count the file entries and add
    up what they declared; every file entry went through the checks. *)
Lemma extractEntries_ok_counters cwd targetDir limits entries st (d d' : Disk) st' :
  extractEntries cwd targetDir limits st entries d = (Ok st', d') ->
  extractedFilesCount st' =
    extractedFilesCount st + Z.of_nat (List.length (fileEntries entries))
  /\ extractedTotalBytes st' = extractedTotalBytes st + declaredTotal entries
  /\ (fileEntries entries <> [] ->
      extractedFilesCount st' <= maxFiles limits
      /\ extractedTotalBytes st' <= maxTotalBytes limits)
  /\ Forall (fun e => declaredSize e <= maxFileBytes limits
                      /\ passesPathGuards cwd targetDir e) (fileEntries entries).
Proof.
  revert st d. unfold declaredTotal.
  induction entries as [|e entries IH]; intros st d; simpl.
  - intros [= <- _]. repeat split; (lia || congruence || constructor).
  - unfold bind.
    destruct (extractEntry cwd targetDir limits st e d) as [[st1|err] d1] eqn:E;
      [|discriminate].
    intros H. destruct (IH _ _ H) as (Hc & Ht & Hlim & Hall).
    destruct (isDirectory e) eqn:Hdir; simpl.
    + rewrite (extractEntry_directory _ _ _ _ _ Hdir) in E. injection E as <- <-.
      exact (conj Hc (conj Ht (conj Hlim Hall))).
    + apply (extractEntry_ok_inv _ _ _ _ _ _ _ _ Hdir) in E
        as ((Hl1 & Hl2 & Hl3) & Hguards & -> & _).
      simpl in *. split; [lia|]. split; [lia|]. split.
      * intros _. destruct (fileEntries entries) eqn:Ef.
        -- simpl in *. lia.
        -- apply Hlim. discriminate.
      * constructor; [by split|exact Hall].
Qed.

(** The totals of a run that succeeds, in the range without rounding. *)
Lemma extractEntries_ok_totals cwd targetDir limits entries st (d d' : Disk) st' :
  extractEntries cwd targetDir limits st entries d = (Ok st', d') ->
  Forall (fun entry => 0 <= declaredSize entry) (fileEntries entries) ->
  0 <= extractedTotalBytes st ->
  Forall (fun total => 0 <= total <= maxTotalBytes limits
                       /\ total <= maxTotalBytes limits + maxFileBytes limits)
    (runningTotals (extractedTotalBytes st) entries).
Proof.
  revert st d. induction entries as [|e entries IH]; intros st d; simpl;
    [constructor|].
  unfold bind.
  destruct (extractEntry cwd targetDir limits st e d) as [[st1|err] d1] eqn:E;
    [|discriminate].
  intros H Hsizes Hst. destruct (isDirectory e) eqn:Hdir; simpl in Hsizes.
  - rewrite (extractEntry_directory _ _ _ _ _ Hdir) in E. injection E as <- <-.
    by eapply IH.
  - apply (extractEntry_ok_inv _ _ _ _ _ _ _ _ Hdir) in E
      as ((_ & Hsize & Htotal) & _ & -> & _).
    apply Forall_cons in Hsizes as [He Hsizes].
    constructor; [lia|].
    apply (IH _ _ H Hsizes). simpl. lia.
Qed.

(** X1. In the range where JavaScript adds the sizes without rounding
    (no declared size negative, maxFileBytes + maxTotalBytes within
    2^53), a run of safeExtractZip that succeeds on an archive with at
    least one file entry had no more than maxFiles file entries, their
    declared sizes add up to no more than maxTotalBytes, none declares
    more than maxFileBytes, each went through both path guards, and
    every total that the loop formed is a non-negative integer within
    maxTotalBytes and within 2^53. *)
Theorem X1_success_within_declared_limits
  (cwd targetDir : string) (limits : Limits) (files : list Entry) (d0 d' : Disk) :
  addsWithoutRounding limits files ->
  safeExtractZip cwd (Ok files) targetDir limits d0 = (Ok tt, d') ->
  fileEntries files <> [] ->
  Z.of_nat (List.length (fileEntries files)) <= maxFiles limits
  /\ declaredTotal files <= maxTotalBytes limits
  /\ Forall (fun e => declaredSize e <= maxFileBytes limits
                      /\ passesPathGuards cwd targetDir e) (fileEntries files)
  /\ Forall (fun total => 0 <= total <= maxTotalBytes limits /\ total <= 2 ^ 53)
       (runningTotals 0 files).
Proof.
  intros [Hrange Hsizes] H Hne. apply safeExtractZip_ok_inv in H as (d1 & st & _ & H).
  pose proof (extractEntries_ok_totals _ _ _ _ _ _ _ _ H Hsizes ltac:(simpl; lia))
    as Htotals.
  apply extractEntries_ok_counters in H as (Hc & Ht & Hlim & Hall).
  destruct (Hlim Hne) as [Hc' Ht']. simpl in Hc, Ht.
  split; [lia|]. split; [lia|]. split; [exact Hall|].
  simpl in Htotals. eapply Forall_impl; [exact Htotals|].
  intros total. simpl. lia.
Qed.

Lemma X1_success_within_declared_limits_witness :
  Z.of_nat (List.length (fileEntries honestArchive)) <= 10
  /\ declaredTotal honestArchive = 5
  /\ declaredTotal honestArchive <= 6.
Proof.
  destruct (X1_success_within_declared_limits "/" "/x" tinyLimits honestArchive ∅
              (safeExtractZip "/" (Ok honestArchive) "/x" tinyLimits ∅).2)
    as (Hc & Ht & _).
  - split; [vm_compute; discriminate|].
    repeat constructor; vm_compute; discriminate.
  - vm_compute. reflexivity.
  - vm_compute. discriminate.
  - split; [exact Hc|]. split; [reflexivity|exact Ht].
Defined.

(** X2. Once maxFiles file entries have been extracted, the next file
    entry fails the run with ZIP_LIMITS_EXCEEDED before anything is
    written for it: the disk is as the entries before it left it. *)
Theorem X2_file_beyond_maxFiles_not_written
  (cwd targetDir : string) (limits : Limits) (before after : list Entry)
  (entry : Entry) (d0 d1 d : Disk) (st : Counters) :
  Fs.mkdirRecursive cwd targetDir d0 = (Ok tt, d1) ->
  extractEntries cwd targetDir limits zeroCounters before d1 = (Ok st, d) ->
  type entry = File ->
  maxFiles limits <= Z.of_nat (List.length (fileEntries before)) ->
  safeExtractZip cwd (Ok (before ++ entry :: after)%list) targetDir limits d0
  = (Throw (Error ZIP_LIMITS_EXCEEDED), d).
Proof.
  intros Hmk Hbefore Htype Hfull.
  eapply safeExtractZip_stops; [exact Hmk|exact Hbefore|].
  apply extractEntries_ok_counters in Hbefore as (Hc & _). simpl in Hc.
  unfold extractEntry, isDirectory. rewrite Htype.
  rewrite (gtb_true_gt (extractedFilesCount st + 1) (maxFiles limits)) by lia.
  reflexivity.
Qed.

Lemma X2_file_beyond_maxFiles_not_written_witness :
  let limits := {| maxFiles := 1; maxFileBytes := 4; maxTotalBytes := 6 |} in
  safeExtractZip "/" (Ok [sizeLiar "a.js" None ["ab"]; sizeLiar "b.js" None ["cd"]])
    "/x" limits ∅
  = (Throw (Error ZIP_LIMITS_EXCEEDED),
     <["/x/a.js" := FileNode "ab"]> (<["/x" := DirNode]> ∅)).
Proof.
  intros limits.
  apply (X2_file_beyond_maxFiles_not_written "/" "/x" limits
           [sizeLiar "a.js" None ["ab"]] [] (sizeLiar "b.js" None ["cd"]) ∅
           (<["/x" := DirNode]> ∅) _
           {| extractedTotalBytes := 0; extractedFilesCount := 1 |}).
  - vm_compute. reflexivity.
  - vm_compute. reflexivity.
  - reflexivity.
  - vm_compute. discriminate.
Defined.

Lemma extractEntries_skip_directories cwd targetDir limits entries st (d : Disk) :
  extractEntries cwd targetDir limits st entries d
  = extractEntries cwd targetDir limits st (fileEntries entries) d.
Proof.
  revert st d. induction entries as [|e entries IH]; intros st d; [reflexivity|].
  simpl. destruct (isDirectory e) eqn:Hdir; simpl.
  - rewrite (extractEntry_directory _ _ _ _ _ Hdir). unfold bind, ret. apply IH.
  - unfold bind. destruct (extractEntry cwd targetDir limits st e d) as [[st1|err] d1];
      [apply IH|reflexivity].
Qed.

(** X3. Directory entries take no part in the extraction: a run on an
    archive ends with the same result and the same disk as a run on its
    file entries alone (the directories of the files are created from
    the file paths). *)
Theorem X3_directory_entries_skipped
  (cwd targetDir : string) (limits : Limits) (files : list Entry) (d : Disk) :
  safeExtractZip cwd (Ok files) targetDir limits d
  = safeExtractZip cwd (Ok (fileEntries files)) targetDir limits d.
Proof.
  unfold safeExtractZip, bind.
  destruct (Fs.mkdirRecursive cwd targetDir d) as [[[]|e] d1]; [|reflexivity].
  by rewrite extractEntries_skip_directories.
Qed.

(** ** What a round writes *)

Lemma keptOrNewDir_file_back (d d' : Disk) k c :
  keptOrNewDir d d' k -> d' !! k = Some (FileNode c) -> d !! k = Some (FileNode c).
Proof. intros [H|[_ H]] Hc; congruence. Qed.

Lemma keptOrNewDir_file_on (d d' : Disk) k c :
  keptOrNewDir d d' k -> d !! k = Some (FileNode c) -> d' !! k = Some (FileNode c).
Proof. intros [H|[H _]] Hc; congruence. Qed.

Lemma append_assoc_string (a b c : string) : (a ++ b) ++ c = a ++ (b ++ c).
Proof.
  induction a as [|x a IH]; [reflexivity|].
  change ((String x a ++ b) ++ c) with (String x ((a ++ b) ++ c)).
  change (String x a ++ (b ++ c)) with (String x (a ++ (b ++ c))).
  by rewrite IH.
Qed.

Lemma append_empty_r (a : string) : a ++ "" = a.
Proof.
  induction a as [|x a IH]; [reflexivity|].
  change (String x a ++ "") with (String x (a ++ "")). by rewrite IH.
Qed.

(** A stream that is piped to its end has put its chunks, in order,
    after what the file held. *)
Lemma pipeWithLimit_ok limits key events w c (d d' : Disk) :
  d !! key = Some (FileNode c) ->
  pipeWithLimit limits key w events d = (Ok tt, d') ->
  d' !! key = Some (FileNode (c ++ streamedContent events)).
Proof.
  revert w c d. induction events as [|[chunk|e] events IH]; intros w c d Hc; simpl.
  - intros [= <-]. by rewrite append_empty_r.
  - destruct (w + bytes chunk >? maxFileBytes limits); [discriminate|].
    unfold bind, Fs.appendChunk. rewrite Hc. intros H.
    rewrite <- append_assoc_string. eapply IH; [|exact H].
    by rewrite lookup_insert_eq.
  - discriminate.
Qed.

(** The write of one entry: the keys other than its destination keep
    what they had, or become directories. *)
Lemma writeEntry_other_keys cwd limits dest entry next (d : Disk) r d' k :
  writeEntry cwd limits dest entry next d = (r, d') ->
  k <> path.resolve cwd dest -> keptOrNewDir d d' k.
Proof.
  unfold writeEntry, bind. intros H Hk.
  destruct (Fs.mkdirRecursive cwd (path.dirname dest) d) as [r1 d1] eqn:E1.
  pose proof (mkdirFrom_keeps _ _ _ _ _ k E1) as H1.
  destruct r1 as [[]|e1]; [|by injection H as _ <-].
  destruct (Fs.openWrite cwd dest d1) as [r2 d2] eqn:E2.
  apply openWrite_inv in E2 as [[-> ->]|[[e2 ->] ->]]; [|by injection H as _ <-].
  destruct (pipeWithLimit limits (path.resolve cwd dest) 0 (stream entry)
              (<[path.resolve cwd dest := FileNode ""]> d1)) as [r3 d3] eqn:E3.
  assert (d' = d3) as -> by (destruct r3; by injection H as _ <-).
  eapply keptOrNewDir_trans; [exact H1|]. left.
  rewrite (pipeWithLimit_only_key _ _ _ _ _ _ _ _ E3 Hk).
  by rewrite lookup_insert_ne.
Qed.

(** The write of one entry: its destination holds what it held, or no
    more than the cap. *)
Lemma writeEntry_capped cwd limits dest entry next (d : Disk) r d' :
  0 <= maxFileBytes limits ->
  writeEntry cwd limits dest entry next d = (r, d') ->
  filesKeptOrCapped (maxFileBytes limits) d d'.
Proof.
  intros Hcap H k c Hc.
  destruct (decide (k = path.resolve cwd dest)) as [->|Hk];
    [|left; exact (keptOrNewDir_file_back _ _ _ _ (writeEntry_other_keys _ _ _ _ _ _ _ _ _ H Hk) Hc)].
  revert H. unfold writeEntry, bind.
  destruct (Fs.mkdirRecursive cwd (path.dirname dest) d) as [r1 d1] eqn:E1.
  pose proof (mkdirFrom_keeps _ _ _ _ _ (path.resolve cwd dest) E1) as H1.
  destruct r1 as [[]|e1];
    [|intros [= _ <-]; left; exact (keptOrNewDir_file_back _ _ _ _ H1 Hc)].
  destruct (Fs.openWrite cwd dest d1) as [r2 d2] eqn:E2.
  apply openWrite_inv in E2 as [[-> ->]|[[e2 ->] ->]];
    [|intros [= _ <-]; left; exact (keptOrNewDir_file_back _ _ _ _ H1 Hc)].
  destruct (pipeWithLimit limits (path.resolve cwd dest) 0 (stream entry)
              (<[path.resolve cwd dest := FileNode ""]> d1)) as [r3 d3] eqn:E3.
  intros H. assert (d' = d3) as -> by (destruct r3; by injection H as _ <-).
  destruct (pipeWithLimit_bound limits _ _ 0 "" _ _ _
              (lookup_insert_eq _ _ _) eq_refl Hcap E3) as (c' & Hc' & Hb).
  right. congruence.
Qed.

Lemma filesKeptOrCapped_refl cap d : filesKeptOrCapped cap d d.
Proof. intros k c H. by left. Qed.

Lemma filesKeptOrCapped_trans cap d1 d2 d3 :
  filesKeptOrCapped cap d1 d2 -> filesKeptOrCapped cap d2 d3 ->
  filesKeptOrCapped cap d1 d3.
Proof.
  intros H12 H23 k c Hc. destruct (H23 k c Hc) as [H|H]; [by apply H12|by right].
Qed.

Lemma mkdirRecursive_files cap cwd p (d : Disk) r d' :
  Fs.mkdirRecursive cwd p d = (r, d') -> filesKeptOrCapped cap d d'.
Proof.
  intros H k c Hc. left.
  exact (keptOrNewDir_file_back _ _ _ _ (mkdirFrom_keeps _ _ _ _ _ k H) Hc).
Qed.

(** A round that stops at a check leaves the disk as it is. *)
Ltac round_stops := intros [= _ <-]; apply filesKeptOrCapped_refl.

Lemma extractEntry_capped cwd targetDir limits st entry (d : Disk) r d' :
  0 <= maxFileBytes limits ->
  extractEntry cwd targetDir limits st entry d = (r, d') ->
  filesKeptOrCapped (maxFileBytes limits) d d'.
Proof.
  intros Hcap. unfold extractEntry.
  destruct (isDirectory entry); [round_stops|].
  destruct (_ >? maxFiles limits); [round_stops|].
  destruct (_ >? maxFileBytes limits); [round_stops|].
  destruct (_ >? maxTotalBytes limits); [round_stops|].
  destruct (unsafeRelPath _); [round_stops|].
  destruct (insideDir _ _); simpl negb; cbv iota; [|round_stops].
  by apply writeEntry_capped.
Qed.

(** X4. With maxFileBytes not negative, whatever the archive and
    however the run ends, every file on the disk afterwards is a file
    that was there before with the same content, or holds no more than
    maxFileBytes bytes. *)
Theorem X4_written_files_capped
  (cwd targetDir : string) (limits : Limits) (zipDirectory : Result (list Entry))
  (d0 d' : Disk) (r : Result unit) :
  0 <= maxFileBytes limits ->
  safeExtractZip cwd zipDirectory targetDir limits d0 = (r, d') ->
  filesKeptOrCapped (maxFileBytes limits) d0 d'.
Proof.
  intros Hcap. unfold safeExtractZip, bind.
  destruct (Fs.mkdirRecursive cwd targetDir d0) as [r1 d1] eqn:E1.
  pose proof (mkdirRecursive_files (maxFileBytes limits) _ _ _ _ _ E1) as H1.
  destruct r1 as [[]|e1]; [|by intros [= _ <-]].
  destruct zipDirectory as [files|e]; [|by intros [= _ <-]].
  destruct (extractEntries cwd targetDir limits _ files d1) as [r2 d2] eqn:E2.
  intros H. assert (d' = d2) as -> by (destruct r2; by injection H as _ <-).
  eapply filesKeptOrCapped_trans; [exact H1|]. clear -Hcap E2.
  revert E2. generalize {| extractedTotalBytes := 0; extractedFilesCount := 0 |}.
  revert d1. induction files as [|e files IH]; intros d1 st; simpl.
  - round_stops.
  - unfold bind. destruct (extractEntry cwd targetDir limits st e d1) as [r1 dm] eqn:E.
    apply (extractEntry_capped _ _ _ _ _ _ _ _ Hcap) in E.
    destruct r1 as [st1|err]; [|by intros [= _ <-]].
    intros H. eapply filesKeptOrCapped_trans; [exact E|]. by eapply IH.
Qed.

Lemma X4_written_files_capped_witness :
  filesKeptOrCapped 4 ∅
    (safeExtractZip "/" (Ok [sizeLiar "b.js" (Some 1) ["abc"; "de"; "f"]])
       "/x" tinyLimits ∅).2.
Proof.
  apply (X4_written_files_capped "/" "/x" tinyLimits
           (Ok [sizeLiar "b.js" (Some 1) ["abc"; "de"; "f"]]) ∅ _
           (safeExtractZip "/" (Ok [sizeLiar "b.js" (Some 1) ["abc"; "de"; "f"]])
              "/x" tinyLimits ∅).1).
  - vm_compute. discriminate.
  - by destruct (safeExtractZip _ _ _ _ _).
Defined.

(** ** Reading back what was extracted *)

(** A round that succeeds on a file entry leaves the chunks of its
    stream, in order, at its destination. *)
Lemma extractEntry_ok_content cwd targetDir limits st entry (d d' : Disk) st' :
  type entry = File ->
  extractEntry cwd targetDir limits st entry d = (Ok st', d') ->
  d' !! path.resolve cwd (destinationOf targetDir entry)
  = Some (FileNode (streamedContent (stream entry))).
Proof.
  intros Ht H. apply isDirectory_false in Ht.
  apply (extractEntry_ok_inv _ _ _ _ _ _ _ _ Ht) in H as (_ & _ & _ & H).
  revert H. unfold writeEntry, bind.
  destruct (Fs.mkdirRecursive _ _ d) as [[[]|?] d1]; [|discriminate].
  destruct (Fs.openWrite _ _ d1) as [r2 d2] eqn:E2.
  apply openWrite_inv in E2 as [[-> ->]|[[e2 ->] ->]]; [|discriminate].
  destruct (pipeWithLimit _ _ _ _ _) as [[[]|?] d3] eqn:E3; [|discriminate].
  intros [= _ <-].
  exact (pipeWithLimit_ok _ _ _ _ _ _ _ (lookup_insert_eq _ _ _) E3).
Qed.

(** A round keeps the file at [k] unless it writes there. *)
Lemma extractEntry_keeps_file cwd targetDir limits st entry (d d' : Disk) r k c :
  (type entry = File -> path.resolve cwd (destinationOf targetDir entry) <> k) ->
  extractEntry cwd targetDir limits st entry d = (r, d') ->
  d !! k = Some (FileNode c) -> d' !! k = Some (FileNode c).
Proof.
  intros Hk. unfold extractEntry.
  destruct (isDirectory entry) eqn:Hdir; [by intros [= _ <-]|].
  apply isDirectory_false in Hdir.
  destruct (_ >? maxFiles limits); [by intros [= _ <-]|].
  destruct (_ >? maxFileBytes limits); [by intros [= _ <-]|].
  destruct (_ >? maxTotalBytes limits); [by intros [= _ <-]|].
  destruct (unsafeRelPath _); [by intros [= _ <-]|].
  destruct (insideDir _ _); simpl negb; cbv iota; [|by intros [= _ <-]].
  intros H. apply keptOrNewDir_file_on.
  eapply writeEntry_other_keys; [exact H|].
  intros ->. by apply Hk.
Qed.

Lemma extractEntries_keep_file cwd targetDir limits entry entries st
  (d d' : Disk) r c :
  notOverwrittenBy cwd targetDir entry entries ->
  extractEntries cwd targetDir limits st entries d = (r, d') ->
  d !! path.resolve cwd (destinationOf targetDir entry) = Some (FileNode c) ->
  d' !! path.resolve cwd (destinationOf targetDir entry) = Some (FileNode c).
Proof.
  unfold notOverwrittenBy. revert st d.
  induction entries as [|e entries IH]; intros st d Hno; simpl.
  - by intros [= _ <-].
  - unfold bind. destruct (extractEntry cwd targetDir limits st e d) as [r1 d1] eqn:E.
    intros H Hc.
    assert (Hc1 : d1 !! path.resolve cwd (destinationOf targetDir entry)
                  = Some (FileNode c)).
    { eapply extractEntry_keeps_file; [|exact E|exact Hc].
      intros Ht. apply isDirectory_false in Ht. simpl in Hno. rewrite Ht in Hno.
      simpl in Hno. by inversion Hno. }
    destruct r1 as [st1|err]; [|by injection H as _ <-].
    eapply IH; [|exact H|exact Hc1].
    simpl in Hno. destruct (isDirectory e); simpl in Hno; [exact Hno|by inversion Hno].
Qed.



Lemma filesKeptOrAt_refl keys cap d : filesKeptOrAt keys cap d d.
Proof. intros k c H. by left. Qed.

Lemma writeEntry_at cwd limits dest entry next (d : Disk) r d' :
  0 <= maxFileBytes limits ->
  writeEntry cwd limits dest entry next d = (r, d') ->
  filesKeptOrAt [path.resolve cwd dest] (maxFileBytes limits) d d'.
Proof.
  intros Hcap H k c Hc.
  destruct (decide (k = path.resolve cwd dest)) as [->|Hk].
  - destruct (writeEntry_capped _ _ _ _ _ _ _ _ Hcap H _ _ Hc) as [?|?];
      [by left|right; split; [by left|assumption]].
  - left. exact (keptOrNewDir_file_back _ _ _ _
                   (writeEntry_other_keys _ _ _ _ _ _ _ _ _ H Hk) Hc).
Qed.

Lemma writeEntry_result cwd limits dest entry next (d : Disk) r d' :
  writeEntry cwd limits dest entry next d = (r, d') ->
  r = Ok next \/ exists err, r = Throw err.
Proof.
  unfold writeEntry, bind.
  destruct (Fs.mkdirRecursive _ _ d) as [[[]|?] d1]; [|intros [= <- _]; eauto].
  destruct (Fs.openWrite _ _ d1) as [[?|?] d2]; [|intros [= <- _]; eauto].
  destruct (pipeWithLimit _ _ _ _ _) as [[[]|?] d3]; intros [= <- _]; eauto.
Qed.

(** One round: it leaves the disk alone, or it got past the count
    check and wrote at the destination of its entry. *)
Lemma extractEntry_step cwd targetDir limits st entry (d : Disk) r d' :
  0 <= maxFileBytes limits ->
  extractEntry cwd targetDir limits st entry d = (r, d') ->
  (d' = d /\ (r = Ok st \/ exists err, r = Throw err))
  \/ (extractedFilesCount st + 1 <= maxFiles limits
      /\ (r = Ok (countersAfter st entry) \/ exists err, r = Throw err)
      /\ filesKeptOrAt [path.resolve cwd (destinationOf targetDir entry)]
           (maxFileBytes limits) d d').
Proof.
  intros Hcap. unfold extractEntry.
  destruct (isDirectory entry); [intros [= <- <-]; left; auto|].
  destruct (_ >? maxFiles limits) eqn:E1; [intros [= <- <-]; left; eauto|].
  destruct (_ >? maxFileBytes limits); [intros [= <- <-]; left; eauto|].
  destruct (_ >? maxTotalBytes limits); [intros [= <- <-]; left; eauto|].
  destruct (unsafeRelPath _); [intros [= <- <-]; left; eauto|].
  destruct (insideDir _ _); cbv beta iota delta [negb];
    [|intros [= <- <-]; left; eauto].
  intros H. right. apply gtb_false_inv in E1. split; [exact E1|].
  change (writeEntry cwd limits (destinationOf targetDir entry) entry
            (countersAfter st entry) d = (r, d')) in H.
  split; [by eapply writeEntry_result|by eapply writeEntry_at].
Qed.

Lemma filesKeptOrAt_trans keys1 keys2 cap d1 d2 d3 :
  filesKeptOrAt keys1 cap d1 d2 -> filesKeptOrAt keys2 cap d2 d3 ->
  filesKeptOrAt (keys1 ++ keys2) cap d1 d3.
Proof.
  intros H12 H23 k c Hc. destruct (H23 k c Hc) as [H|[H Hb]].
  - destruct (H12 k c H) as [?|[? ?]]; [by left|].
    right. split; [apply in_or_app; by left|assumption].
  - right. split; [apply in_or_app; by right|assumption].
Qed.

Lemma extractEntries_at cwd targetDir limits entries st (d : Disk) r d' :
  0 <= maxFileBytes limits ->
  extractEntries cwd targetDir limits st entries d = (r, d') ->
  exists keys,
    (keys = [] \/ extractedFilesCount st + Z.of_nat (List.length keys) <= maxFiles limits)
    /\ filesKeptOrAt keys (maxFileBytes limits) d d'.
Proof.
  intros Hcap. revert st d. induction entries as [|e entries IH]; intros st d; simpl.
  - intros [= _ <-]. exists []. split; [by left|apply filesKeptOrAt_refl].
  - unfold bind. destruct (extractEntry cwd targetDir limits st e d) as [r1 d1] eqn:E.
    apply (extractEntry_step _ _ _ _ _ _ _ _ Hcap) in E
      as [[-> Hr]|(Hcount & Hr & Hat)].
    + destruct Hr as [->|[err ->]]; [apply IH|].
      intros [= _ <-]. exists []. split; [by left|apply filesKeptOrAt_refl].
    + destruct Hr as [->|[err ->]].
      * intros H. apply IH in H as (keys & Hlen & Hkeys).
        exists ((path.resolve cwd (destinationOf targetDir e)) :: keys). split.
        -- right. simpl extractedFilesCount in Hlen.
           destruct Hlen as [->|Hlen]; simpl length; lia.
        -- exact (filesKeptOrAt_trans _ _ _ _ _ _ Hat Hkeys).
      * intros [= _ <-]. exists [path.resolve cwd (destinationOf targetDir e)].
        split; [right; simpl length; lia|exact Hat].
Qed.

Lemma safeExtractZip_at cwd zipDirectory targetDir limits (d d' : Disk) r :
  0 <= maxFileBytes limits ->
  safeExtractZip cwd zipDirectory targetDir limits d = (r, d') ->
  exists keys,
    (keys = [] \/ Z.of_nat (List.length keys) <= maxFiles limits)
    /\ filesKeptOrAt keys (maxFileBytes limits) d d'.
Proof.
  intros Hcap. unfold safeExtractZip, bind.
  destruct (Fs.mkdirRecursive cwd targetDir d) as [r1 d1] eqn:E1.
  assert (H1 : filesKeptOrAt [] (maxFileBytes limits) d d1).
  { intros k c Hc. left.
    exact (keptOrNewDir_file_back _ _ _ _ (mkdirFrom_keeps _ _ _ _ _ k E1) Hc). }
  destruct r1 as [[]|e1];
    [|intros [= _ <-]; exists []; split; [by left|exact H1]].
  destruct zipDirectory as [files|e];
    [|intros [= _ <-]; exists []; split; [by left|exact H1]].
  destruct (extractEntries cwd targetDir limits _ files d1) as [r2 d2] eqn:E2.
  intros H. assert (d' = d2) as -> by (destruct r2; by injection H as _ <-).
  apply (extractEntries_at _ _ _ _ _ _ _ _ Hcap) in E2 as (keys & Hlen & Hkeys).
  exists keys. split; [exact Hlen|].
  exact (filesKeptOrAt_trans [] keys _ _ _ _ H1 Hkeys).
Qed.

(** ** The bytes below a directory *)

Lemma bytesUnder_bound resolvedRoot (l : list (string * DiskNode)) cap :
  0 <= cap ->
  (forall k c, In (k, FileNode c) l -> insideDir resolvedRoot k = true -> bytes c <= cap) ->
  foldr (uncurry (fun k n acc =>
           match n with
           | FileNode c => if insideDir resolvedRoot k then bytes c + acc else acc
           | DirNode => acc
           end)) 0 l
  <= cap * Z.of_nat (List.length (List.filter (isFileUnder resolvedRoot) l)).
Proof.
  intros Hcap. induction l as [|[k n] l IH]; intros H; simpl; [lia|].
  assert (IH' := IH (fun k c Hin => H k c (or_intror Hin))). clear IH.
  unfold isFileUnder at 1. simpl. destruct n as [|c]; [exact IH'|].
  destruct (insideDir resolvedRoot k) eqn:E; [|exact IH'].
  specialize (H k c (or_introl eq_refl) E). simpl length. lia.
Qed.

Lemma NoDup_fst_filter {A B} (p : A * B -> bool) (l : list (A * B)) :
  List.NoDup (List.map fst l) -> List.NoDup (List.map fst (List.filter p l)).
Proof.
  induction l as [|x l IH]; simpl; [constructor|].
  intros H. inversion H as [|? ? Hx Hl]; subst.
  destruct (p x); simpl; [|by apply IH]. constructor; [|by apply IH].
  intros Hin. apply Hx. apply in_map_iff in Hin as (y & Hy & Hin).
  apply filter_In in Hin as [Hin _]. apply in_map_iff. by exists y.
Qed.

(** X6. What a run can write at most, with maxFiles and maxFileBytes
    not negative: if no file lay below the target directory before, the
    files below it after the run, however the run ended, hold no more
    than maxFiles times maxFileBytes bytes.  (They can hold more than
    maxTotalBytes.) *)
Theorem X6_bytes_written_at_most
  (cwd targetDir : string) (limits : Limits) (zipDirectory : Result (list Entry))
  (d0 d' : Disk) (r : Result unit) :
  0 <= maxFiles limits ->
  0 <= maxFileBytes limits ->
  noFileUnder (path.resolve cwd targetDir) d0 ->
  safeExtractZip cwd zipDirectory targetDir limits d0 = (r, d') ->
  bytesUnder (path.resolve cwd targetDir) d' <= maxFiles limits * maxFileBytes limits.
Proof.
  intros Hfiles Hcap Hfresh Hrun.
  apply (safeExtractZip_at _ _ _ _ _ _ _ Hcap) in Hrun as (keys & Hlen & Hkeys).
  set (R := path.resolve cwd targetDir) in *.
  unfold bytesUnder. rewrite map_fold_foldr.
  assert (Hin : forall k c, In (k, FileNode c) (map_to_list d') ->
                  insideDir R k = true -> In k keys /\ bytes c <= maxFileBytes limits).
  { intros k c Hkc Hk. apply list_elem_of_In, elem_of_map_to_list in Hkc.
    destruct (Hkeys k c Hkc) as [H0|H]; [|exact H].
    apply Hfresh in H0. congruence. }
  etransitivity;
    [apply (bytesUnder_bound R (map_to_list d') (maxFileBytes limits) Hcap);
     intros k c Hkc Hk; by apply (Hin k c)|].
  assert (Hcount : (List.length (List.filter (isFileUnder R) (map_to_list d'))
                    <= List.length keys)%nat).
  { rewrite <- (length_map fst). apply NoDup_incl_length.
    - apply NoDup_fst_filter, NoDup_ListNoDup, NoDup_fst_map_to_list.
    - intros k Hk. apply in_map_iff in Hk as ([k' n] & <- & Hk).
      apply filter_In in Hk as [Hk Hp]. unfold isFileUnder in Hp. simpl in *.
      destruct n as [|c]; [discriminate|]. by apply (Hin k' c). }
  destruct Hlen as [->|Hlen]; simpl in *; nia.
Qed.

Lemma X6_bytes_written_at_most_witness :
  bytesUnder "/x" (safeExtractZip "/" (Ok spoofedArchive) "/x" tinyLimits ∅).2 <= 10 * 4.
Proof.
  apply (X6_bytes_written_at_most "/" "/x" tinyLimits (Ok spoofedArchive) ∅ _
           (safeExtractZip "/" (Ok spoofedArchive) "/x" tinyLimits ∅).1).
  - vm_compute. discriminate.
  - vm_compute. discriminate.
  - intros k c H. rewrite lookup_empty in H. discriminate.
  - by destruct (safeExtractZip _ _ _ _ _).
Defined.

(* ================================================================== *)
(** * Properties of the cleanup of a job *)
(* ================================================================== *)

(** ** Resolved paths and the keys of the disk *)

Lemma normStep_nonempty above stack p :
  Forall (fun s => Js.isEmpty s = false) stack ->
  Forall (fun s => Js.isEmpty s = false) (path.normStep above stack p).
Proof.
  intros H. unfold path.normStep, path.isSkipped.
  destruct (Js.isEmpty p) eqn:Ep; simpl; [exact H|].
  destruct (String.eqb p "."); [exact H|].
  destruct (path.isDotDot p).
  - destruct stack as [|top rest].
    + destruct above; [by repeat constructor|exact H].
    + destruct (path.isDotDot top).
      * destruct above; [by constructor|exact H].
      * by apply Forall_cons in H as [_ H].
  - by constructor.
Qed.

Lemma normSegments_nonempty above segs :
  Forall (fun s => Js.isEmpty s = false) (path.normSegments above segs).
Proof.
  unfold path.normSegments. apply Forall_rev.
  assert (G : forall stack, Forall (fun s => Js.isEmpty s = false) stack ->
    Forall (fun s => Js.isEmpty s = false) (fold_left (path.normStep above) segs stack)).
  { induction segs as [|p segs IH]; intros stack H; simpl; [exact H|].
    by apply IH, normStep_nonempty. }
  apply G. constructor.
Qed.

Lemma isAbsolute_nonempty p : path.isAbsolute p = true -> Js.isEmpty p = false.
Proof. by destruct p. Qed.

(** With an absolute working directory a resolved path is "/" followed
    by its segments. *)
Lemma resolve_absolute cwd p :
  path.isAbsolute cwd = true ->
  exists segs,
    path.resolve cwd p = Fs.absOf segs
    /\ Forall (fun s => noSlash s = true) segs
    /\ Forall (fun s => Js.isEmpty s = false) segs.
Proof.
  intros Habs. pose proof (isAbsolute_nonempty _ Habs) as Hne.
  unfold path.resolve, path.normalizeString, Fs.absOf.
  destruct (Js.isEmpty p); rewrite ?Hne, ?Habs.
  - eexists. split; [reflexivity|]. split;
      [apply normSegments_noSlash|apply normSegments_nonempty].
  - destruct (path.isAbsolute p).
    + eexists. split; [reflexivity|]. split;
        [apply normSegments_noSlash|apply normSegments_nonempty].
    + eexists. split; [reflexivity|]. split;
        [apply normSegments_noSlash|apply normSegments_nonempty].
Qed.

Lemma filterBoolean_split_absOf segs :
  Forall (fun s => noSlash s = true) segs ->
  Forall (fun s => Js.isEmpty s = false) segs ->
  Js.filterBoolean (Js.splitSlash (Fs.absOf segs)) = segs.
Proof.
  intros Hns Hne. unfold Fs.absOf.
  change ("/" ++ Js.joinSlash segs) with (String "/"%char (Js.joinSlash segs)).
  simpl Js.splitSlash. simpl Js.filterBoolean.
  by apply (partsOf_joinSlash segs).
Qed.

Lemma absOf_resolvedSegments cwd p :
  path.isAbsolute cwd = true ->
  Fs.absOf (path.resolvedSegments cwd p) = path.resolve cwd p.
Proof.
  intros Habs. destruct (resolve_absolute cwd p Habs) as (segs & E & Hns & Hne).
  unfold path.resolvedSegments. rewrite E.
  by rewrite filterBoolean_split_absOf.
Qed.

Lemma resolvedSegments_root cwd p :
  path.isAbsolute cwd = true ->
  path.resolvedSegments cwd p = [] -> path.resolve cwd p = "/".
Proof. intros Habs H. rewrite <- (absOf_resolvedSegments _ _ Habs), H. reflexivity. Qed.

(** ** The directory that [mkdir] was asked for exists afterwards *)

Lemma keptOrNewDir_dir_on (d d' : Disk) k :
  keptOrNewDir d d' k -> d !! k = Some DirNode -> d' !! k = Some DirNode.
Proof. intros [H|[H _]] Hc; congruence. Qed.

Lemma mkdirFrom_creates base segs (d d' : Disk) :
  segs <> [] ->
  Fs.mkdirFrom base segs d = (Ok tt, d') ->
  d' !! Fs.absOf (base ++ segs) = Some DirNode.
Proof.
  revert base d. induction segs as [|s segs IH]; intros base d Hne; [congruence|].
  simpl. destruct (d !! Fs.absOf (base ++ [s])) as [[|c]|] eqn:E; try discriminate.
  all: intros H; destruct segs as [|s' segs];
    [ simpl in H; injection H as <-; by rewrite lookup_insert_eq
    | rewrite (cons_middle s), app_assoc; by apply (IH _ _ ltac:(discriminate) H) ].
Qed.

Lemma mkdirRecursive_creates cwd p (d d' : Disk) :
  path.isAbsolute cwd = true -> path.resolve cwd p <> "/" ->
  Fs.mkdirRecursive cwd p d = (Ok tt, d') ->
  d' !! path.resolve cwd p = Some DirNode.
Proof.
  intros Habs Hroot H. rewrite <- (absOf_resolvedSegments _ _ Habs).
  apply (mkdirFrom_creates [] _ d); [|exact H].
  intros E. by apply Hroot, resolvedSegments_root.
Qed.

Lemma openWrite_not_dir cwd p (d d' : Disk) key :
  Fs.openWrite cwd p d = (Ok key, d') -> d !! path.resolve cwd p <> Some DirNode.
Proof.
  unfold Fs.openWrite. destruct (path.hasTrailingSep p); [discriminate|].
  destruct (d !! path.resolve cwd p) as [[|c]|]; [discriminate| |]; congruence.
Qed.

(** A round of the loop leaves the directories in place. *)
Lemma extractEntry_keeps_dir cwd targetDir limits st entry (d d' : Disk) r k :
  extractEntry cwd targetDir limits st entry d = (r, d') ->
  d !! k = Some DirNode -> d' !! k = Some DirNode.
Proof.
  unfold extractEntry.
  destruct (isDirectory entry); [by intros [= _ <-]|].
  destruct (_ >? maxFiles limits); [by intros [= _ <-]|].
  destruct (_ >? maxFileBytes limits); [by intros [= _ <-]|].
  destruct (_ >? maxTotalBytes limits); [by intros [= _ <-]|].
  destruct (unsafeRelPath _); [by intros [= _ <-]|].
  destruct (insideDir _ _); cbv beta iota delta [negb]; [|by intros [= _ <-]].
  unfold bind. set (dest := path.join targetDir (normalizedRelPathOf entry)).
  destruct (Fs.mkdirRecursive cwd (path.dirname dest) d) as [r1 d1] eqn:E1.
  pose proof (mkdirFrom_keeps _ _ _ _ _ k E1) as H1.
  intros H Hk. pose proof (keptOrNewDir_dir_on _ _ _ H1 Hk) as Hk1.
  destruct r1 as [[]|e1]; [|by injection H as _ <-].
  destruct (Fs.openWrite cwd dest d1) as [r2 d2] eqn:E2.
  pose proof E2 as E2'. apply openWrite_inv in E2' as [[-> ->]|[[e2 ->] ->]];
    [|by injection H as _ <-].
  pose proof (openWrite_not_dir _ _ _ _ _ E2) as Hnd.
  destruct (pipeWithLimit limits (path.resolve cwd dest) 0 (stream entry)
              (<[path.resolve cwd dest := FileNode ""]> d1)) as [r3 d3] eqn:E3.
  assert (d' = d3) as -> by (destruct r3; by injection H as _ <-).
  assert (Hne : k <> path.resolve cwd dest) by congruence.
  rewrite (pipeWithLimit_only_key _ _ _ _ _ _ _ _ E3 Hne).
  by rewrite lookup_insert_ne.
Qed.

Lemma extractEntries_keep_dir cwd targetDir limits entries st (d d' : Disk) r k :
  extractEntries cwd targetDir limits st entries d = (r, d') ->
  d !! k = Some DirNode -> d' !! k = Some DirNode.
Proof.
  revert st d. induction entries as [|e entries IH]; intros st d; simpl.
  - by intros [= _ <-].
  - unfold bind. destruct (extractEntry cwd targetDir limits st e d) as [r1 d1] eqn:E.
    intros H Hk. pose proof (extractEntry_keeps_dir _ _ _ _ _ _ _ _ _ E Hk) as Hk1.
    destruct r1 as [st1|err]; [by eapply IH|by injection H as _ <-].
Qed.

(** After a run that succeeds the target directory exists. *)
Lemma safeExtractZip_creates_target cwd zipDirectory targetDir limits (d d' : Disk) :
  path.isAbsolute cwd = true -> path.resolve cwd targetDir <> "/" ->
  safeExtractZip cwd zipDirectory targetDir limits d = (Ok tt, d') ->
  d' !! path.resolve cwd targetDir = Some DirNode.
Proof.
  intros Habs Hroot. unfold safeExtractZip, bind.
  destruct (Fs.mkdirRecursive cwd targetDir d) as [[[]|e1] d1] eqn:E1; [|discriminate].
  apply (mkdirRecursive_creates _ _ _ _ Habs Hroot) in E1.
  destruct zipDirectory as [files|e]; [|discriminate].
  destruct (extractEntries cwd targetDir limits _ files d1) as [[st|e2] d2] eqn:E2;
    [|discriminate].
  intros [= <-]. by eapply extractEntries_keep_dir.
Qed.

(** ** Removal *)

Lemma startsWith_trans k t a :
  Js.startsWith k t = true -> Js.startsWith t a = true -> Js.startsWith k a = true.
Proof.
  revert k t. induction a as [|x a IH]; intros k t; [reflexivity|].
  destruct t as [|y t]; [discriminate|]. destruct k as [|z k]; [discriminate|].
  simpl. intros H1 H2. apply andb_prop in H1 as [H1 H1'], H2 as [H2 H2'].
  apply Ascii.eqb_eq in H1, H2. subst. rewrite Ascii.eqb_refl. simpl. by eapply IH.
Qed.

Lemma atOrBelow_insideDir p k :
  p <> "/" -> atOrBelow p k = insideDir p k.
Proof.
  intros Hp. unfold atOrBelow, insideDir.
  apply String.eqb_neq in Hp. rewrite Hp. apply orb_comm.
Qed.

(** What lies below a path that is at or below [a] is below [a]. *)
Lemma atOrBelow_trans a t k :
  atOrBelow a t = true -> insideDir t k = true -> atOrBelow a k = true.
Proof.
  unfold atOrBelow, insideDir. intros Ha Hk.
  apply orb_true_iff in Hk as [Hk|Hk]; [|apply String.eqb_eq in Hk; by subst].
  apply orb_true_iff. right.
  apply orb_true_iff in Ha as [Ha|Ha].
  - apply String.eqb_eq in Ha. subst t.
    destruct (String.eqb a "/") eqn:E; [|exact Hk].
    apply String.eqb_eq in E. subst a. eapply startsWith_trans; [exact Hk|reflexivity].
  - eapply startsWith_trans; [exact Hk|]. by apply startsWith_app.
Qed.

Lemma rmRecursive_lookup cwd p (d : Disk) k :
  (rmRecursive cwd p d).2 !! k
  = if atOrBelow (path.resolve cwd p) k then None else d !! k.
Proof.
  unfold rmRecursive. simpl.
  destruct (atOrBelow (path.resolve cwd p) k) eqn:E.
  - apply map_lookup_filter_None. right. intros x _. simpl. rewrite E. auto.
  - destruct (d !! k) as [x|] eqn:Ek.
    + apply map_lookup_filter_Some. split; [exact Ek|]. simpl. by rewrite E.
    + apply map_lookup_filter_None. by left.
Qed.

Lemma safeRemovePath_ok cwd p (d : Disk) : (safeRemovePath cwd p d).1 = Ok tt.
Proof.
  unfold safeRemovePath. destruct (Js.isEmpty p); [reflexivity|].
  by destruct (existsSync cwd p d).
Qed.

Lemma safeRemovePath_outside cwd p (d : Disk) k :
  atOrBelow (path.resolve cwd p) k = false ->
  (safeRemovePath cwd p d).2 !! k = d !! k.
Proof.
  intros Hk. unfold safeRemovePath. destruct (Js.isEmpty p); [reflexivity|].
  destruct (existsSync cwd p d); simpl; [|reflexivity].
  pose proof (rmRecursive_lookup cwd p d k) as H. by rewrite Hk in H.
Qed.

Lemma safeRemovePath_onlyRemoves cwd p (d : Disk) :
  onlyRemoves d (safeRemovePath cwd p d).2.
Proof.
  intros k. unfold safeRemovePath. destruct (Js.isEmpty p); [by left|].
  destruct (existsSync cwd p d); simpl; [|by left].
  pose proof (rmRecursive_lookup cwd p d k) as H.
  destruct (atOrBelow _ k); [by right|by left].
Qed.

Lemma safeRemovePath_removes cwd p (d : Disk) k :
  Js.isEmpty p = false -> existsSync cwd p d = true ->
  atOrBelow (path.resolve cwd p) k = true ->
  (safeRemovePath cwd p d).2 !! k = None.
Proof.
  intros Hp He Hk. unfold safeRemovePath. rewrite Hp, He. simpl.
  pose proof (rmRecursive_lookup cwd p d k) as H. by rewrite Hk in H.
Qed.

Lemma cleanupJob_unfold cwd a t (d : Disk) :
  cleanupJob cwd (a, t) d
  = (safeRemovePath cwd t (safeRemovePath cwd a d).2).2.
Proof.
  unfold cleanupJob, bind.
  pose proof (safeRemovePath_ok cwd a d) as H.
  destruct (safeRemovePath cwd a d) as [r d1]. simpl in *. by subst r.
Qed.

(** X7. The callback that scheduleJobCleanup sets up removes nodes at
    or below the archive path and the extraction directory and nothing
    else: every other path of the disk keeps its node, and no node is
    created or changed. *)
Theorem X7_cleanup_touches_only_the_job
  (cwd archivePath extractionTargetDir : string) (d : Disk) :
  onlyRemoves d (cleanupJob cwd (archivePath, extractionTargetDir) d)
  /\ forall k,
       atOrBelow (path.resolve cwd archivePath) k = false ->
       atOrBelow (path.resolve cwd extractionTargetDir) k = false ->
       cleanupJob cwd (archivePath, extractionTargetDir) d !! k = d !! k.
Proof.
  rewrite cleanupJob_unfold. split.
  - intros k.
    destruct (safeRemovePath_onlyRemoves cwd extractionTargetDir
                (safeRemovePath cwd archivePath d).2 k) as [H|H]; [|by right].
    rewrite H. apply safeRemovePath_onlyRemoves.
  - intros k Ha Ht. by rewrite !safeRemovePath_outside.
Qed.

Lemma join_nonempty a b : Js.isEmpty (path.join a b) = false.
Proof.
  assert (N : forall p, Js.isEmpty (path.normalize p) = false).
  { intros p. unfold path.normalize. destruct (Js.isEmpty p); [reflexivity|].
    destruct (Js.isEmpty (path.normalizeString p _)) eqn:E.
    - by destruct (path.isAbsolute p), (path.hasTrailingSep p).
    - destruct (path.isAbsolute p); [reflexivity|].
      destruct (path.hasTrailingSep p); [|exact E].
      by destruct (path.normalizeString p _). }
  unfold path.join. destruct (Js.isEmpty a), (Js.isEmpty b); auto.
Qed.

(** X8. A ZIP upload whose extraction succeeds schedules the cleanup
    of its archive and its extraction directory, and when that cleanup
    runs on the disk the upload left, nothing stays at or below the
    extraction directory (the working directory being absolute and the
    extraction directory not the root of the file system). *)
Theorem X8_cleanup_empties_extraction_directory
  (localeCompare : string -> string -> Z) (cwd dirname__ : string)
  (openZip : string -> Result (list Entry)) (f : UploadedFile) (jobId : string)
  (w : World) (d' : Disk) :
  let extractionTargetDir := path.join (EXTRACTED_DIR dirname__) jobId in
  let w' := (uploadRoute localeCompare cwd dirname__ openZip (Some f) jobId w).2 in
  path.isAbsolute cwd = true ->
  path.resolve cwd extractionTargetDir <> "/" ->
  isZipUpload f ->
  safeExtractZip cwd (openZip (filePath f)) extractionTargetDir serverLimits (disk w)
  = (Ok tt, d') ->
  timers w' = (timers w ++ [(filePath f, extractionTargetDir)])%list
  /\ forall k,
       insideDir (path.resolve cwd extractionTargetDir) k = true ->
       cleanupJob cwd (filePath f, extractionTargetDir) (disk w') !! k = None.
Proof.
  intros T w' Habs Hroot Hzip Hok.
  assert (Hw : w' = {| disk := d'; timers := (timers w ++ [(filePath f, T)])%list |}).
  { unfold w', uploadRoute. unfold isZipUpload in Hzip. rewrite Hzip. simpl.
    fold T. by rewrite Hok. }
  rewrite Hw. cbn [disk timers]. split; [reflexivity|]. intros k Hk.
  rewrite cleanupJob_unfold.
  pose proof (safeExtractZip_creates_target _ _ _ _ _ _ Habs Hroot Hok) as Hdir.
  set (d1 := (safeRemovePath cwd (filePath f) d').2).
  destruct (safeRemovePath_onlyRemoves cwd (filePath f) d' (path.resolve cwd T))
    as [Hkept|Hgone]; fold d1 in Hkept || fold d1 in Hgone.
  - apply safeRemovePath_removes.
    + apply join_nonempty.
    + unfold existsSync. rewrite Hkept, Hdir. apply orb_true_r.
    + by rewrite atOrBelow_insideDir.
  - (* the archive path lies at or above the directory *)
    destruct (safeRemovePath_onlyRemoves cwd T d1 k) as [H|H]; [|exact H].
    rewrite H. clear H.
    destruct (atOrBelow (path.resolve cwd (filePath f)) (path.resolve cwd T)) eqn:Ea.
    + assert (Hex : Js.isEmpty (filePath f) = false /\ existsSync cwd (filePath f) d' = true).
      { unfold d1, safeRemovePath in Hgone.
        destruct (Js.isEmpty (filePath f)); [simpl in Hgone; congruence|].
        destruct (existsSync cwd (filePath f) d'); [done|simpl in Hgone; congruence]. }
      destruct Hex as [Hne Hex].
      apply safeRemovePath_removes; [exact Hne|exact Hex|].
      by eapply atOrBelow_trans.
    + unfold d1 in Hgone. rewrite safeRemovePath_outside in Hgone by exact Ea.
      congruence.
Qed.

Lemma X8_cleanup_empties_extraction_directory_witness :
  let up := {| originalname := "a.zip"; size := 10; filename := "1-a.zip";
               filePath := "/srv/uploads/1-a.zip" |} in
  let w' := (uploadRoute codeUnitCompare "/srv" "/srv"
               (fun _ => Ok [sizeLiar "src/a.js" None ["x"]]) (Some up) "job" emptyWorld).2 in
  cleanupJob "/srv" ("/srv/uploads/1-a.zip", "/srv/extracted/job") (disk w')
    !! "/srv/extracted/job/src/a.js" = None.
Proof.
  intros up w'.
  refine (proj2 (X8_cleanup_empties_extraction_directory codeUnitCompare "/srv" "/srv"
           (fun _ => Ok [sizeLiar "src/a.js" None ["x"]]) up "job" emptyWorld
           _ _ _ _ _) "/srv/extracted/job/src/a.js" _).
  - reflexivity.
  - vm_compute. discriminate.
  - reflexivity.
  - vm_compute. reflexivity.
  - vm_compute. reflexivity.
Defined.

(* ================================================================== *)
(** * Properties of the upload filter and the answers of the route *)
(* ================================================================== *)

(** ** The upload filter and the answers of the route *)

Lemma errorHandler_answer err : isErrorAnswer (errorHandler err).
Proof.
  unfold errorHandler, isErrorAnswer.
  repeat match goal with
         | |- context [if ?b then _ else _] => destruct b
         end; simpl; (split; [tauto|eexists; split; [reflexivity|simpl; tauto]]).
Qed.

(** X9. The upload filter accepts a name exactly when its extension,
    lowercased, is .zip, .rar or .7z; the error it gives otherwise is
    the one that the central handler answers with 400 and the text
    about allowed types. *)
Theorem X9_filter_accepts_archive_extensions (originalname : string) :
  let ext := Js.toLowerCase (path.extname originalname) in
  (In ext ALLOWED_ARCHIVE_EXTENSIONS -> fileFilter originalname = Ok true)
  /\ (~ In ext ALLOWED_ARCHIVE_EXTENSIONS ->
      exists err, fileFilter originalname = Throw err
        /\ errorHandler err
           = {| status := 400;
                body := ErrorBody "Only ZIP / RAR / 7Z files are allowed." |}).
Proof.
  intros ext. unfold fileFilter. fold ext.
  destruct (existsb (String.eqb ext) ALLOWED_ARCHIVE_EXTENSIONS) eqn:E; simpl.
  - split; [reflexivity|]. intros H.
    apply (proj1 (existsb_eqb_In ext ALLOWED_ARCHIVE_EXTENSIONS)) in E. tauto.
  - split.
    + intros H. apply (proj2 (existsb_eqb_In ext ALLOWED_ARCHIVE_EXTENSIONS)) in H.
      congruence.
    + intros _. eexists. split; reflexivity.
Qed.



(** X11. Whatever is uploaded, the route answers 200 with a result, or
    400, 413 or 500 with one of six fixed texts: the message of an
    error raised during the extraction never reaches the client. *)
Theorem X11_answers_are_fixed
  (localeCompare : string -> string -> Z) (cwd dirname__ : string)
  (openZip : string -> Result (list Entry)) (file : option UploadedFile)
  (jobId : string) (w : World) :
  let answer := (uploadRoute localeCompare cwd dirname__ openZip file jobId w).1 in
  isSuccessAnswer answer \/ isErrorAnswer answer.
Proof.
  unfold uploadRoute. destruct file as [f|]; simpl.
  - destruct (String.eqb _ ".zip"); simpl.
    + destruct (safeExtractZip _ _ _ _ _) as [[[]|err] d']; simpl.
      * left. by split.
      * right. apply errorHandler_answer.
    + left. by split.
  - right. split; [simpl; tauto|]. eexists. split; [reflexivity|simpl; tauto].
Qed.

(* ================================================================== *)
(** * Further properties of the tree builder *)
(* ================================================================== *)

Section TreeLeaves.

Variable localeCompare : string -> string -> Z.

(** ** Every file is a leaf, at the place its path names *)

Lemma flat_map_pointwise {A B} (f g : A -> list B) (l : list A) :
  Forall (fun x => Permutation (f x) (g x)) l ->
  Permutation (flat_map f l) (flat_map g l).
Proof.
  induction 1 as [|x l Hx _ IH]; simpl; [constructor|].
  by apply Permutation_app.
Qed.

Lemma located_sortTree t :
  forall prefix,
    Permutation (located prefix (sortTree localeCompare t)) (located prefix t).
Proof.
  induction t as [n p|n children IH] using TreeNode_rect'; intros prefix;
    [reflexivity|].
  simpl. unfold sortChildren.
  etransitivity; [apply Permutation_flat_map, jsSort_perm|].
  rewrite flat_map_concat_map, List.map_map, <- flat_map_concat_map.
  apply flat_map_pointwise. eapply Forall_impl; [exact IH|]. intros t Ht. apply Ht.
Qed.

Lemma located_inFolder name g (x : list string * string) prefix children :
  hasFolder name children = true ->
  (forall c, Permutation (flat_map (located (prefix ++ [name])%list) (g c))
               (x :: flat_map (located (prefix ++ [name])%list) c)) ->
  Permutation (flat_map (located prefix) (inFolder name g children))
    (x :: flat_map (located prefix) children).
Proof.
  intros Hhas Hg. induction children as [|[n c|n p] rest IH]; simpl in *;
    [discriminate| |].
  - rewrite isFolderNamed_folder in Hhas.
    destruct (String.eqb_spec n name) as [->|Hne]; simpl.
    + rewrite Hg. reflexivity.
    + rewrite (IH Hhas). symmetry. apply Permutation_middle.
  - rewrite (IH Hhas). apply perm_swap.
Qed.

Lemma getOrCreateFolderNode_has name children :
  hasFolder name (getOrCreateFolderNode localeCompare name children) = true.
Proof.
  unfold getOrCreateFolderNode, sortChildren.
  destruct (hasFolder name children) eqn:E; [exact E|].
  rewrite hasFolder_jsSort, hasFolder_app. simpl.
  rewrite isFolderNamed_folder, String.eqb_refl. apply orb_true_r.
Qed.

Lemma getOrCreateFolderNode_located name prefix children :
  Permutation
    (flat_map (located prefix) (getOrCreateFolderNode localeCompare name children))
    (flat_map (located prefix) children).
Proof.
  unfold getOrCreateFolderNode, sortChildren.
  destruct (hasFolder name children); [reflexivity|].
  etransitivity; [apply Permutation_flat_map, jsSort_perm|].
  rewrite flat_map_app. simpl. by rewrite !app_nil_r.
Qed.

Lemma located_insertParts relPath parts :
  parts <> [] ->
  forall prefix children,
    Permutation
      (flat_map (located prefix) (insertParts localeCompare relPath parts children))
      (((prefix ++ parts)%list, relPath) :: flat_map (located prefix) children).
Proof.
  induction parts as [|name rest IH]; [congruence|]. intros _ prefix children.
  destruct rest as [|next rest].
  - simpl. rewrite flat_map_app. simpl.
    symmetry. apply Permutation_cons_append.
  - change (insertParts localeCompare relPath (name :: next :: rest) children)
      with (inFolder name (insertParts localeCompare relPath (next :: rest))
              (getOrCreateFolderNode localeCompare name children)).
    rewrite located_inFolder
      with (x := ((prefix ++ name :: next :: rest)%list, relPath)).
    + by rewrite getOrCreateFolderNode_located.
    + apply getOrCreateFolderNode_has.
    + intros c. rewrite (IH ltac:(discriminate)).
      by rewrite <- app_assoc.
Qed.

Variable cwd : string.

Lemma located_fold_insertPath rootDir paths children :
  Permutation
    (flat_map (located [])
       (fold_left (insertPath localeCompare cwd rootDir) paths children))
    (List.map (fun r => (partsOf r, r)) (placedRelPaths cwd rootDir paths)
     ++ flat_map (located []) children).
Proof.
  revert children. induction paths as [|p paths IH]; intros children; [reflexivity|].
  simpl fold_left. rewrite IH. unfold placedRelPaths. simpl List.map. simpl List.filter.
  unfold insertPath at 1.
  destruct (partsOf (relPathOf cwd rootDir p)) as [|a l] eqn:E; [reflexivity|].
  rewrite located_insertParts by discriminate. simpl.
  rewrite E. symmetry. apply Permutation_middle.
Qed.

Lemma leavesOf_buildFileTreeFromPaths rootDir filePathsAbs :
  Permutation
    (leavesOf (buildFileTreeFromPaths localeCompare cwd rootDir filePathsAbs))
    (List.map (fun r => (partsOf r, r)) (placedRelPaths cwd rootDir filePathsAbs)).
Proof.
  unfold buildFileTreeFromPaths. simpl sortTree. unfold leavesOf, sortChildren.
  etransitivity; [apply Permutation_flat_map, jsSort_perm|].
  rewrite flat_map_concat_map, List.map_map, <- flat_map_concat_map.
  etransitivity;
    [apply flat_map_pointwise, Forall_forall; intros t _; apply located_sortTree|].
  rewrite located_fold_insertPath. simpl. by rewrite app_nil_r.
Qed.

(** ** Folder names among siblings *)

Lemma folderNames_perm l l' :
  Permutation l l' -> Permutation (folderNames l) (folderNames l').
Proof.
  intros H. unfold folderNames. apply Permutation_map.
  induction H as [|a l1 l2 _ IH|a b l1|l1 l2 l3 _ IH1 _ IH2]; simpl.
  - constructor.
  - destruct (isFolder a); [by constructor|exact IH].
  - destruct (isFolder a), (isFolder b); try reflexivity. apply perm_swap.
  - etransitivity; eassumption.
Qed.

Lemma hasFolder_folderNames name l :
  hasFolder name l = true <-> In name (folderNames l).
Proof.
  unfold hasFolder, folderNames, isFolderNamed.
  induction l as [|t l IH]; simpl; [split; [discriminate|tauto]|].
  destruct (isFolder t); simpl.
  - rewrite orb_true_iff, IH, String.eqb_eq. tauto.
  - exact IH.
Qed.

Lemma folderNames_inFolder name g l : folderNames (inFolder name g l) = folderNames l.
Proof.
  unfold folderNames. induction l as [|[n c|n p] l IH]; simpl; [reflexivity| |].
  - destruct (String.eqb n name); simpl; [reflexivity|by rewrite IH].
  - exact IH.
Qed.

Lemma folderNames_getOrCreate name l :
  List.NoDup (folderNames l) ->
  List.NoDup (folderNames (getOrCreateFolderNode localeCompare name l)).
Proof.
  intros H. unfold getOrCreateFolderNode, sortChildren.
  destruct (hasFolder name l) eqn:E; [exact H|].
  eapply Permutation_NoDup; [symmetry; apply folderNames_perm, jsSort_perm|].
  unfold folderNames. rewrite List.filter_app, List.map_app. simpl.
  eapply Permutation_NoDup; [apply Permutation_cons_append|].
  constructor; [|exact H].
  intros Hin. apply hasFolder_folderNames in Hin. congruence.
Qed.

Lemma Forall_inFolder (P : TreeNode -> Prop) name g l :
  (forall n c, P (Folder n c) -> P (Folder n (g c))) ->
  Forall P l -> Forall P (inFolder name g l).
Proof.
  intros Hg. induction 1 as [|[n c|n p] l Ht Hl IH]; simpl; [constructor| |].
  - destruct (String.eqb n name); constructor; auto.
  - by constructor.
Qed.

Lemma insertParts_unique relPath parts :
  forall n children,
    FoldersUnique (Folder n children) ->
    FoldersUnique (Folder n (insertParts localeCompare relPath parts children)).
Proof.
  induction parts as [|name rest IH]; intros n children H; [exact H|].
  destruct rest as [|next rest].
  - simpl. inversion H as [|? ? Hnd Hall]; subst. constructor.
    + unfold folderNames. rewrite List.filter_app, List.map_app. simpl. by rewrite app_nil_r.
    + apply Forall_app. split; [exact Hall|]. repeat constructor.
  - change (insertParts localeCompare relPath (name :: next :: rest) children)
      with (inFolder name (insertParts localeCompare relPath (next :: rest))
              (getOrCreateFolderNode localeCompare name children)).
    inversion H as [|? ? Hnd Hall]; subst. constructor.
    + rewrite folderNames_inFolder. by apply folderNames_getOrCreate.
    + apply Forall_inFolder; [intros m c; apply IH|].
      unfold getOrCreateFolderNode, sortChildren.
      destruct (hasFolder name children); [exact Hall|].
      eapply Permutation_Forall; [symmetry; apply jsSort_perm|].
      apply Forall_app. split; [exact Hall|].
      repeat constructor.
Qed.

Lemma sortTree_nodeName t : nodeName (sortTree localeCompare t) = nodeName t.
Proof. by destruct t. Qed.

Lemma sortTree_isFolder t : isFolder (sortTree localeCompare t) = isFolder t.
Proof. by destruct t. Qed.

Lemma folderNames_map_sortTree l :
  folderNames (List.map (sortTree localeCompare) l) = folderNames l.
Proof.
  unfold folderNames. induction l as [|t l IH]; simpl; [reflexivity|].
  rewrite sortTree_isFolder. destruct (isFolder t); simpl;
    [by rewrite sortTree_nodeName, IH|exact IH].
Qed.

Lemma sortTree_unique t : FoldersUnique t -> FoldersUnique (sortTree localeCompare t).
Proof.
  induction t as [n p|n children IH] using TreeNode_rect'; intros H; [exact H|].
  inversion H as [|? ? Hnd Hall]; subst. simpl. unfold sortChildren. constructor.
  - eapply Permutation_NoDup; [symmetry; apply folderNames_perm, jsSort_perm|].
    by rewrite folderNames_map_sortTree.
  - eapply Permutation_Forall; [symmetry; apply jsSort_perm|].
    apply Forall_map. rewrite Forall_forall in IH, Hall. apply Forall_forall.
    intros t Ht. apply IH; [exact Ht|by apply Hall].
Qed.

End TreeLeaves.

(** X12. The tree has one file leaf for every path of the list whose
    relative form has at least one part, no other leaf, and the names
    of the folders on the way down to a leaf, followed by its own name,
    are the parts of its path: no file is lost, invented or misplaced,
    whatever the collation. *)
Theorem X12_tree_leaves_are_the_files
  (localeCompare : string -> string -> Z) (cwd rootDir : string)
  (filePathsAbs : list string) :
  Permutation
    (leavesOf (buildFileTreeFromPaths localeCompare cwd rootDir filePathsAbs))
    (List.map (fun r => (partsOf r, r)) (placedRelPaths cwd rootDir filePathsAbs)).
Proof. apply leavesOf_buildFileTreeFromPaths. Qed.

(** X13. In the tree no folder has two folders of one name among its
    children, at any depth: paths through the same folder names share
    the folder nodes, whatever the collation.  (Two files of one name
    can stand side by side.) *)
Theorem X13_sibling_folders_have_distinct_names
  (localeCompare : string -> string -> Z) (cwd rootDir : string)
  (filePathsAbs : list string) :
  FoldersUnique (buildFileTreeFromPaths localeCompare cwd rootDir filePathsAbs).
Proof.
  unfold buildFileTreeFromPaths. apply sortTree_unique.
  assert (G : forall children, FoldersUnique (Folder "root" children) ->
            FoldersUnique (Folder "root"
              (fold_left (insertPath localeCompare cwd rootDir) filePathsAbs children))).
  { induction filePathsAbs as [|p paths IH]; intros children H; [exact H|].
    simpl. apply IH. unfold insertPath. by apply insertParts_unique. }
  apply G. constructor; constructor.
Qed.

(** ** Sorting under a collation *)

Lemma weightlessCompare_collation : collation weightlessCompare.
Proof.
  destruct codeUnitCompare_total as [Hr _ Hf Ht].
  split; unfold weightlessCompare; auto.
  intros a b c. apply Ht.
Qed.

Lemma tieBroken_total lc : collation lc -> totalOrderCompare (tieBroken lc).
Proof.
  intros [Hr Hf Ht]. destruct codeUnitCompare_total as [Cr Ce Cf Ct].
  split; unfold tieBroken.
  - intros a. rewrite Hr. simpl. apply Cr.
  - intros a b. destruct (Z.eqb_spec (lc a b) 0); [apply Ce|congruence].
  - intros a b. pose proof (Hf a b). pose proof (Hf b a). pose proof (Cf a b).
    destruct (Z.eqb_spec (lc a b) 0), (Z.eqb_spec (lc b a) 0); lia.
  - intros a b c.
    pose proof (Hf a b). pose proof (Hf b a). pose proof (Hf b c).
    pose proof (Hf c b). pose proof (Hf a c). pose proof (Hf c a).
    pose proof (Ht a b c). pose proof (Ht c a b). pose proof (Ht b c a).
    pose proof (Ct a b c).
    destruct (Z.eqb_spec (lc a b) 0), (Z.eqb_spec (lc b c) 0),
      (Z.eqb_spec (lc a c) 0); lia.
Qed.

Lemma tieBroken_agrees lc a b :
  collation lc -> (lc a b = 0 -> a = b) -> tieBroken lc a b = lc a b.
Proof.
  intros Hco Hab. unfold tieBroken. destruct (Z.eqb_spec (lc a b) 0) as [E|E];
    [|reflexivity].
  rewrite E, (Hab E). destruct codeUnitCompare_total as [Cr _ _ _]. apply Cr.
Qed.

Section CollationFacts.

Variable localeCompare : string -> string -> Z.
Hypothesis lc_collation : collation localeCompare.

Lemma compareNodes_flip a b :
  compareNodes localeCompare a b > 0 <-> compareNodes localeCompare b a < 0.
Proof.
  unfold compareNodes. destruct a, b; simpl; try lia; apply (co_flip _ lc_collation).
Qed.

Lemma compareNodes_trans a b d :
  compareNodes localeCompare a b <= 0 -> compareNodes localeCompare b d <= 0 ->
  compareNodes localeCompare a d <= 0.
Proof.
  unfold compareNodes. destruct a, b, d; simpl; try lia;
    apply (co_trans _ lc_collation).
Qed.

(** What [sortTree] returns is sorted at every level, ties allowed. *)
Lemma sortTree_sorted t : TreeSorted localeCompare (sortTree localeCompare t).
Proof.
  induction t as [n p|n children IH] using TreeNode_rect'; [constructor|].
  simpl. constructor.
  - unfold childrenSorted, sortChildren.
    apply (jsSort_sorted _ compareNodes_flip compareNodes_trans).
  - unfold sortChildren.
    apply Forall_forall. intros x Hx.
    apply list_elem_of_In, (Permutation_in _ (jsSort_perm _ _)) in Hx.
    apply in_map_iff in Hx as (y & <- & Hy).
    rewrite Forall_forall in IH. by apply IH, list_elem_of_In.
Qed.

End CollationFacts.

(** ** Two comparators that order the siblings alike build one tree *)

Lemma insertSorted_agree {A} (cmp cmp' : A -> A -> Z) (x : A) (l : list A) :
  (forall y, In y l -> cmp y x = cmp' y x) ->
  insertSorted cmp x l = insertSorted cmp' x l.
Proof.
  induction l as [|y l IH]; intros H; simpl; [reflexivity|].
  rewrite <- (H y (or_introl eq_refl)).
  destruct (cmp y x >? 0); [reflexivity|].
  f_equal. apply IH. intros z Hz. apply H. by right.
Qed.

Lemma jsSort_agree {A} (cmp cmp' : A -> A -> Z) (l : list A) :
  (forall x y, In x l -> In y l -> cmp x y = cmp' x y) ->
  jsSort cmp l = jsSort cmp' l.
Proof.
  induction l as [|x l IH] using rev_ind; intros H; [reflexivity|].
  rewrite !jsSort_snoc, IH.
  - apply insertSorted_agree. intros y Hy.
    apply (Permutation_in _ (jsSort_perm cmp' l)) in Hy.
    apply H; apply in_or_app; [by left|right; by left].
  - intros a b Ha Hb. apply H; apply in_or_app; by left.
Qed.

Section SameTree.

Variables localeCompare localeCompare' : string -> string -> Z.
Variable allParts : list (list string).

(** The two comparators agree wherever the sort can compare: on the
    nodes that stand for paths of [allParts] under one parent. *)
Hypothesis agree_on_siblings :
  forall above children,
    Forall (Covers allParts above) children ->
    siblingsAgree localeCompare localeCompare' children.

Lemma sortChildren_same above children :
  Forall (Covers allParts above) children ->
  sortChildren localeCompare children = sortChildren localeCompare' children.
Proof.
  intros H. unfold sortChildren. apply jsSort_agree.
  by apply (agree_on_siblings above).
Qed.

Lemma Covers_new_folder above name rest :
  rest <> [] -> In (above ++ name :: rest)%list allParts ->
  Covers allParts above (Folder name []).
Proof. intros Hne Hin. constructor; [by exists rest|constructor]. Qed.

Lemma getOrCreateFolderNode_covers lc above name rest children :
  rest <> [] -> In (above ++ name :: rest)%list allParts ->
  Forall (Covers allParts above) children ->
  Forall (Covers allParts above) (getOrCreateFolderNode lc name children).
Proof.
  intros Hne Hin H. unfold getOrCreateFolderNode, sortChildren.
  destruct (hasFolder name children); [exact H|].
  eapply Permutation_Forall; [symmetry; apply jsSort_perm|].
  apply Forall_app. split; [exact H|].
  constructor; [by eapply Covers_new_folder|constructor].
Qed.

Lemma getOrCreateFolderNode_same above name rest children :
  rest <> [] -> In (above ++ name :: rest)%list allParts ->
  Forall (Covers allParts above) children ->
  getOrCreateFolderNode localeCompare name children
  = getOrCreateFolderNode localeCompare' name children.
Proof.
  intros Hne Hin H. unfold getOrCreateFolderNode.
  destruct (hasFolder name children); [reflexivity|].
  apply (sortChildren_same above). apply Forall_app. split; [exact H|].
  constructor; [by eapply Covers_new_folder|constructor].
Qed.

Lemma inFolder_covers above name g children :
  (forall c, Forall (Covers allParts (above ++ [name])%list) c ->
             Forall (Covers allParts (above ++ [name])%list) (g c)) ->
  Forall (Covers allParts above) children ->
  Forall (Covers allParts above) (inFolder name g children).
Proof.
  intros Hg. induction 1 as [|[n c|n p] l Ht Hl IH]; simpl; [constructor| |].
  - destruct (String.eqb_spec n name) as [->|Hne]; constructor; auto.
    inversion Ht as [|? ? ? Hex Hc]; subst. constructor; [exact Hex|by apply Hg].
  - by constructor.
Qed.

Lemma inFolder_same above name g g' children :
  (forall c, Forall (Covers allParts (above ++ [name])%list) c -> g c = g' c) ->
  Forall (Covers allParts above) children ->
  inFolder name g children = inFolder name g' children.
Proof.
  intros Hg. induction 1 as [|[n c|n p] l Ht Hl IH]; simpl; [reflexivity| |].
  - destruct (String.eqb_spec n name) as [->|Hne]; [|by rewrite IH].
    inversion Ht as [|? ? ? Hex Hc]; subst. by rewrite (Hg c Hc).
  - by rewrite IH.
Qed.

Lemma insertParts_covers lc relPath parts :
  forall above children,
    parts <> [] -> In (above ++ parts)%list allParts ->
    Forall (Covers allParts above) children ->
    Forall (Covers allParts above) (insertParts lc relPath parts children).
Proof.
  induction parts as [|name rest IH]; intros above children Hne Hin H; [congruence|].
  destruct rest as [|next rest].
  - simpl. apply Forall_app. split; [exact H|].
    constructor; [by constructor|constructor].
  - change (insertParts lc relPath (name :: next :: rest) children)
      with (inFolder name (insertParts lc relPath (next :: rest))
              (getOrCreateFolderNode lc name children)).
    apply inFolder_covers.
    + intros c Hc. apply IH; [discriminate| |exact Hc]. by rewrite <- app_assoc.
    + by apply (getOrCreateFolderNode_covers lc above name (next :: rest)).
Qed.

Lemma insertParts_same relPath parts :
  forall above children,
    parts <> [] -> In (above ++ parts)%list allParts ->
    Forall (Covers allParts above) children ->
    insertParts localeCompare relPath parts children
    = insertParts localeCompare' relPath parts children.
Proof.
  induction parts as [|name rest IH]; intros above children Hne Hin H; [congruence|].
  destruct rest as [|next rest]; [reflexivity|].
  change (insertParts localeCompare relPath (name :: next :: rest) children)
    with (inFolder name (insertParts localeCompare relPath (next :: rest))
            (getOrCreateFolderNode localeCompare name children)).
  change (insertParts localeCompare' relPath (name :: next :: rest) children)
    with (inFolder name (insertParts localeCompare' relPath (next :: rest))
            (getOrCreateFolderNode localeCompare' name children)).
  rewrite <- (getOrCreateFolderNode_same above name (next :: rest) children)
    by (discriminate || assumption).
  apply (inFolder_same above).
  - intros c Hc. apply (IH (above ++ [name])%list); [discriminate| |exact Hc].
    by rewrite <- app_assoc.
  - by apply (getOrCreateFolderNode_covers _ above name (next :: rest)).
Qed.

Variable cwd : string.

Lemma fold_insertPath_same rootDir paths :
  (forall p, In p paths -> In (partsOf (relPathOf cwd rootDir p)) allParts) ->
  forall children,
    Forall (Covers allParts []) children ->
    fold_left (insertPath localeCompare cwd rootDir) paths children
    = fold_left (insertPath localeCompare' cwd rootDir) paths children
    /\ Forall (Covers allParts [])
         (fold_left (insertPath localeCompare cwd rootDir) paths children).
Proof.
  induction paths as [|p paths IH]; intros Hin children H; [by split|].
  simpl.
  assert (Hp : In (partsOf (relPathOf cwd rootDir p)) allParts)
    by (apply Hin; by left).
  assert (Hstep : insertPath localeCompare cwd rootDir children p
                  = insertPath localeCompare' cwd rootDir children p
                  /\ Forall (Covers allParts [])
                       (insertPath localeCompare cwd rootDir children p)).
  { unfold insertPath.
    destruct (partsOf (relPathOf cwd rootDir p)) as [|a l] eqn:E; [by split|].
    split; [apply (insertParts_same _ _ []); [discriminate|exact Hp|exact H]|].
    apply insertParts_covers; [discriminate|exact Hp|exact H]. }
  destruct Hstep as [Hsame Hcov]. rewrite <- Hsame.
  apply IH; [intros q Hq; apply Hin; by right|exact Hcov].
Qed.

Lemma sortTree_same t :
  forall above, Covers allParts above t ->
                sortTree localeCompare t = sortTree localeCompare' t.
Proof.
  induction t as [n p|n children IH] using TreeNode_rect'; intros above H;
    [reflexivity|].
  inversion H as [|? ? ? Hex Hc]; subst. simpl. f_equal.
  assert (Hmap : List.map (sortTree localeCompare) children
                 = List.map (sortTree localeCompare') children).
  { apply map_ext_Forall. rewrite Forall_forall in IH, Hc. apply Forall_forall.
    intros t Ht. by apply (IH t Ht (above ++ [n])%list), Hc. }
  rewrite <- Hmap. unfold sortChildren. apply jsSort_agree.
  intros x y Hx Hy.
  apply in_map_iff in Hx as (x0 & <- & Hx0). apply in_map_iff in Hy as (y0 & <- & Hy0).
  unfold compareNodes. rewrite !sortTree_isFolder, !sortTree_nodeName.
  exact (agree_on_siblings _ _ Hc x0 y0 Hx0 Hy0).
Qed.

Lemma sortForest_same children :
  Forall (Covers allParts []) children ->
  sortChildren localeCompare (List.map (sortTree localeCompare) children)
  = sortChildren localeCompare' (List.map (sortTree localeCompare') children).
Proof.
  intros Hc.
  assert (Hmap : List.map (sortTree localeCompare) children
                 = List.map (sortTree localeCompare') children).
  { apply map_ext_Forall. rewrite Forall_forall in Hc. apply Forall_forall.
    intros t Ht. by apply (sortTree_same t []), Hc. }
  rewrite <- Hmap. unfold sortChildren. apply jsSort_agree.
  intros x y Hx Hy.
  apply in_map_iff in Hx as (x0 & <- & Hx0). apply in_map_iff in Hy as (y0 & <- & Hy0).
  unfold compareNodes. rewrite !sortTree_isFolder, !sortTree_nodeName.
  exact (agree_on_siblings _ _ Hc x0 y0 Hx0 Hy0).
Qed.

Lemma buildFileTreeFromPaths_same rootDir paths :
  (forall p, In p paths -> In (partsOf (relPathOf cwd rootDir p)) allParts) ->
  buildFileTreeFromPaths localeCompare cwd rootDir paths
  = buildFileTreeFromPaths localeCompare' cwd rootDir paths.
Proof.
  intros Hin. unfold buildFileTreeFromPaths. simpl.
  destruct (fold_insertPath_same rootDir paths Hin [] ltac:(constructor))
    as [Hsame Hcov].
  rewrite <- Hsame. f_equal. by apply sortForest_same.
Qed.

End SameTree.

(** ** Order independence under a collation *)

(** Where the collation separates the sibling names, breaking its ties
    changes nothing among the nodes that the sort compares. *)
Lemma separated_siblings_agree lc allParts above children :
  collation lc -> separatesSiblings lc allParts ->
  Forall (Covers allParts above) children ->
  siblingsAgree lc (tieBroken lc) children.
Proof.
  intros Hco Hsep Hc x y Hx Hy. rewrite Forall_forall in Hc.
  pose proof (Hc x (proj2 (list_elem_of_In _ _) Hx)) as Cx.
  pose proof (Hc y (proj2 (list_elem_of_In _ _) Hy)) as Cy.
  unfold compareNodes.
  inversion Cx as [? nx px Hnx|? nx cx [rx [Hrx Hnx]] _]; subst;
    inversion Cy as [? ny py Hny|? ny cy [ry [Hry Hny]] _]; subst; simpl;
    try reflexivity; symmetry; apply tieBroken_agrees; try exact Hco; apply Hsep.
  - exists above, [], []. by repeat split.
  - exists above, rx, ry. split; [exact Hnx|]. split; [exact Hny|]. by split.
Qed.




(** X14. With any collation (a consistent comparison; names that
    differ may compare equal, as under the engine's localeCompare) the
    children of every folder of the tree are in order: folders before
    files, and within each group no name before one that the collation
    puts ahead of it. *)
Theorem X14_tree_sorted_at_every_level
  (localeCompare : string -> string -> Z) (cwd rootDir : string)
  (filePathsAbs : list string) :
  collation localeCompare ->
  TreeSorted localeCompare
    (buildFileTreeFromPaths localeCompare cwd rootDir filePathsAbs).
Proof. intros H. unfold buildFileTreeFromPaths. by apply sortTree_sorted. Qed.

(** Sorted also where two sibling names compare equal. *)
Lemma X14_tree_sorted_at_every_level_witness :
  TreeSorted weightlessCompare
    (buildFileTreeFromPaths weightlessCompare "/" "/r"
       ["/r/b.js"; "/r/a" ++ ctrlA; "/r/src/a.js"; "/r/a"]).
Proof.
  apply (X14_tree_sorted_at_every_level weightlessCompare "/" "/r"
           ["/r/b.js"; "/r/a" ++ ctrlA; "/r/src/a.js"; "/r/a"]).
  exact weightlessCompare_collation.
Defined.

(* ================================================================== *)
(** * Further properties of the import scan *)
(* ================================================================== *)

(** ** What the expressions capture *)

Lemma runs_class p s run rest :
  In (run, rest) (Re.runs p s) -> everyChar p run = true.
Proof.
  revert run rest. induction s as [|c s IH]; intros run rest; simpl.
  - intros [[= <- _]|[]]. reflexivity.
  - intros [[= <- _]|H]; [reflexivity|].
    destruct (p c) eqn:Hc; [|destruct H].
    apply in_map_iff in H as ([r t] & [= <- _] & H). simpl.
    by rewrite Hc, (IH _ _ H).
Qed.

Lemma runs_tl_nonempty p s run rest :
  In (run, rest) (List.tl (Re.runs p s)) -> run <> EmptyString.
Proof.
  destruct s as [|c s]; simpl; [tauto|].
  destruct (p c); [|tauto].
  intros H. apply in_map_iff in H as ([r t] & [= <- _] & _). discriminate.
Qed.

Lemma in_tl {A} (x : A) l : In x (List.tl l) -> In x l.
Proof. destruct l; simpl; auto. Qed.

Lemma choices_plus p s run rest :
  In (run, rest) (Re.choices p Re.Plus s) ->
  run <> EmptyString /\ everyChar p run = true.
Proof.
  unfold Re.choices. intros H. apply in_rev in H. split.
  - by eapply runs_tl_nonempty.
  - eapply runs_class, in_tl, H.
Qed.

Lemma firstSome_Some {A B} (f : A -> option B) l b :
  Re.firstSome f l = Some b -> exists x, In x l /\ f x = Some b.
Proof.
  induction l as [|x l IH]; simpl; [discriminate|].
  destruct (f x) eqn:E.
  - intros [= <-]. exists x. auto.
  - intros H. destruct (IH H) as (y & Hy & Hf). exists y. auto.
Qed.

Lemma matchHere_capture r s cap c rest :
  capturesSpecifier r ->
  Re.matchHere r s cap = Some (c, rest) ->
  quoteFreeSpecifier cap \/ hasCapture r = true ->
  quoteFreeSpecifier c.
Proof.
  intros Hr. revert s cap. induction Hr as [|a r Ha Hr IH]; intros s cap; simpl.
  - intros [= <- _] [H|H]; [exact H|discriminate].
  - destruct a as [l|p q captured].
    + destruct (Re.stripPrefix l s) as [s'|]; [|discriminate]. apply IH.
    + intros H Hcap. apply firstSome_Some in H as ([run rest'] & Hin & H).
      destruct captured.
      * destruct Ha as [-> ->]. apply (IH _ _ H). left.
        by apply choices_plus in Hin.
      * apply (IH _ _ H). exact Hcap.
Qed.

Lemma execAll_captures r s skip :
  capturesSpecifier r -> hasCapture r = true ->
  Forall quoteFreeSpecifier (Re.execAll r s skip).
Proof.
  intros Hr Hc. revert skip. induction s as [|ch s IH]; intros skip.
  - destruct skip; simpl; [|constructor].
    destruct (Re.matchHere r EmptyString EmptyString) as [[cap rest]|] eqn:E; [|constructor].
    constructor; [|constructor]. eapply matchHere_capture; eauto.
  - destruct skip; simpl; [|apply IH].
    destruct (Re.matchHere r (String ch s) "") as [[cap rest]|] eqn:E; [|apply IH].
    constructor; [|apply IH]. eapply matchHere_capture; eauto.
Qed.

(** ** The set of specifiers *)

Lemma setAdd_In specs x y : In y (setAdd specs x) -> y = x \/ In y specs.
Proof.
  unfold setAdd. destruct (existsb _ specs); [auto|].
  intros H. apply in_app_or in H as [H|[<-|[]]]; auto.
Qed.

Lemma fold_setAdd_In l acc y : In y (fold_left setAdd l acc) -> In y l \/ In y acc.
Proof.
  revert acc. induction l as [|x l IH]; intros acc; simpl; [auto|].
  intros H. apply IH in H as [H|H]; [auto|].
  apply setAdd_In in H as [->|H]; auto.
Qed.

Lemma setAdd_NoDup specs x : List.NoDup specs -> List.NoDup (setAdd specs x).
Proof.
  intros H. unfold setAdd. destruct (existsb _ specs) eqn:E; [exact H|].
  apply NoDup_ListNoDup, NoDup_app. apply NoDup_ListNoDup in H.
  split; [exact H|]. split; [|apply NoDup_singleton].
  intros y Hy Hx. apply list_elem_of_singleton in Hx. subst y.
  apply list_elem_of_In, existsb_eqb_In in Hy. congruence.
Qed.

Lemma fold_setAdd_NoDup l acc : List.NoDup acc -> List.NoDup (fold_left setAdd l acc).
Proof.
  revert acc. induction l as [|x l IH]; intros acc H; simpl; [exact H|].
  by apply IH, setAdd_NoDup.
Qed.

(** X15. extractImportSpecifiers returns every specifier once, and
    each of them has at least one character and no quote character in
    it, whatever the content of the file. *)
Theorem X15_specifiers_distinct_and_quote_free (fileContent : string) :
  List.NoDup (extractImportSpecifiers fileContent)
  /\ Forall quoteFreeSpecifier (extractImportSpecifiers fileContent).
Proof.
  unfold extractImportSpecifiers. split.
  - repeat apply fold_setAdd_NoDup. constructor.
  - apply Forall_forall. intros x Hx. apply list_elem_of_In in Hx.
    assert (G : forall r, capturesSpecifier r -> hasCapture r = true ->
                          In x (Re.execAll r fileContent 0) -> quoteFreeSpecifier x).
    { intros r Hr Hc Hin. pose proof (execAll_captures r fileContent 0 Hr Hc) as H.
      rewrite Forall_forall in H. by apply H, list_elem_of_In. }
    apply fold_setAdd_In in Hx as [Hx|Hx];
      [apply (G Re.REQUIRE_RE); [repeat constructor; auto|reflexivity|exact Hx]|].
    apply fold_setAdd_In in Hx as [Hx|Hx];
      [apply (G Re.IMPORT_BARE_RE); [repeat constructor; auto|reflexivity|exact Hx]|].
    apply fold_setAdd_In in Hx as [Hx|[]].
    apply (G Re.IMPORT_FROM_RE); [repeat constructor; auto|reflexivity|exact Hx].
Qed.

(** ** Every edge is an import *)

Lemma fold_addImport_inv (Q : Edge -> Prop) fromRel known specs st :
  (forall e, In e st.1 -> Q e) ->
  (forall spec t, In spec specs ->
     resolveImportToRelativeFile fromRel spec known = Some t ->
     Q {| source := fromRel; target := t |}) ->
  forall e, In e (fold_left (addImport fromRel known) specs st).1 -> Q e.
Proof.
  revert st. induction specs as [|s specs IH]; intros st Hst Hnew; simpl; [exact Hst|].
  apply IH; [|intros spec t Hin; apply Hnew; by right].
  unfold addImport.
  destruct (resolveImportToRelativeFile fromRel s known) as [t|] eqn:E; [|exact Hst].
  destruct (Js.isEmpty t); [exact Hst|]. case_bool_decide; [exact Hst|].
  simpl. intros e He. apply in_app_or in He as [He|[<-|[]]]; [by apply Hst|].
  apply (Hnew s t); [by left|exact E].
Qed.

Lemma fold_scanFile_inv (Q : Edge -> Prop) cwd d known files st :
  (forall e, In e st.1 -> Q e) ->
  (forall absPath fromRel fileContent spec t,
     In (absPath, fromRel) files ->
     Fs.readFile cwd absPath d = Ok fileContent ->
     In spec (localImportSpecsOf fileContent) ->
     resolveImportToRelativeFile fromRel spec known = Some t ->
     Q {| source := fromRel; target := t |}) ->
  forall e, In e (fold_left (scanFile cwd d known) files st).1 -> Q e.
Proof.
  revert st. induction files as [|[absPath fromRel] files IH]; intros st Hst Hnew;
    simpl; [exact Hst|].
  apply IH; [|intros a f c s t Hin; apply Hnew; by right].
  destruct (Fs.readFile cwd absPath d) as [content|err] eqn:Hread; [|exact Hst].
  apply fold_addImport_inv; [exact Hst|].
  intros spec t Hs Hr. apply (Hnew absPath fromRel content spec t); auto. by left.
Qed.

Lemma in_combine_map {A B} (f : A -> B) l a b :
  In (a, b) (combine l (List.map f l)) -> In a l /\ b = f a.
Proof.
  induction l as [|x l IH]; simpl; [tauto|].
  intros [[= <- <-]|H]; [auto|]. destruct (IH H). auto.
Qed.

(** X16. Every edge of the graph stands for an import written in a
    file: a readable source-code file of the list has the id of the
    edge's source, and a specifier found in its content that starts
    with ./ or ../ resolves to the edge's target.  No edge comes from a
    package import or from a file that is not source code. *)
Theorem X16_every_edge_is_a_local_import
  (cwd : string) (d : Disk) (rootDir : string) (filePathsAbs : list string) :
  Forall (edgeFromImport cwd d rootDir filePathsAbs)
    (edges (buildLocalImportsGraph cwd d rootDir filePathsAbs)).
Proof.
  apply Forall_forall. intros e He. apply list_elem_of_In in He.
  unfold buildLocalImportsGraph in He. simpl in He. revert e He.
  apply fold_scanFile_inv; [intros e []|].
  intros absPath fromRel content spec t Hin Hread Hspec Hres.
  apply in_combine_map in Hin as [Hin ->]. apply filter_In in Hin as [Hin Hcode].
  apply filter_In in Hspec as [Hspec Hlocal].
  exists absPath, content, spec. simpl. auto 10.
Qed.

(* ================================================================== *)
(** * Further properties of the stats *)
(* ================================================================== *)

(** ** Counting with a map *)

Lemma sumValues_mapSet k v m :
  sumValues (mapSet k v m) = sumValues m - getOrZero k m + v.
Proof.
  unfold sumValues, getOrZero.
  induction m as [|[k' v'] m IH]; simpl; [lia|].
  destruct (String.eqb k' k); simpl; [lia|]. rewrite IH. lia.
Qed.

Lemma sumValues_bump k m : sumValues (bump m k) = sumValues m + 1.
Proof. unfold bump. rewrite sumValues_mapSet. lia. Qed.

Lemma fold_bump_count (labelOf : string -> string) paths m label :
  getOrZero label (fold_left (fun m p => bump m (labelOf p)) paths m)
  = getOrZero label m
    + Z.of_nat (List.length (List.filter (fun p => String.eqb (labelOf p) label) paths)).
Proof.
  revert m. induction paths as [|p paths IH]; intros m; simpl; [lia|].
  rewrite IH. destruct (String.eqb_spec (labelOf p) label) as [E|E].
  - rewrite <- E, getOrZero_bump_eq. simpl length. lia.
  - rewrite (getOrZero_bump_ne _ _ _ E). lia.
Qed.

Lemma fold_bump_keys (labelOf : string -> string) paths m :
  keysOf (fold_left (fun m p => bump m (labelOf p)) paths m)
  = fold_left setAdd (List.map labelOf paths) (keysOf m).
Proof.
  revert m. induction paths as [|p paths IH]; intros m; simpl; [reflexivity|].
  by rewrite IH, keysOf_bump.
Qed.

Lemma fold_bump_sum (labelOf : string -> string) paths m :
  sumValues (fold_left (fun m p => bump m (labelOf p)) paths m)
  = sumValues m + Z.of_nat (List.length paths).
Proof.
  revert m. induction paths as [|p paths IH]; intros m; simpl length; simpl fold_left;
    [lia|].
  rewrite IH, sumValues_bump. lia.
Qed.

(** X17. The extension counts of the stats: the count under a label is
    the number of files of the list with that label, a label is a key
    exactly when some file has it, no key appears twice, and the counts
    add up to the number of files.  The label of a file is its
    extension in small letters, or (none): two files whose extensions
    are the capital and the small e with acute accent are counted
    under one key. *)
Theorem X17_extension_counts
  (cwd rootDir : string) (filePathsAbs : list string) (g : Graph) :
  let counts := exts (buildAnalysisStats cwd rootDir filePathsAbs g) in
  (forall label,
     getOrZero label counts
     = Z.of_nat (List.length (filesLabelled cwd rootDir label filePathsAbs)))
  /\ (forall label,
        In label (keysOf counts)
        <-> exists p, In p filePathsAbs /\ extLabel (relPathOf cwd rootDir p) = label)
  /\ List.NoDup (keysOf counts)
  /\ sumValues counts = Z.of_nat (List.length filePathsAbs)
  /\ (forall relPath,
        extLabel relPath
        = if Js.isEmpty (path.extname relPath) then "(none)"
          else Js.toLowerCase (path.extname relPath))
  /\ exts (buildAnalysisStats "/" "/r"
             ["/r/x." ++ capitalEAcute; "/r/y." ++ smallEAcute; "/r/Makefile"] g)
     = [("." ++ smallEAcute, 2); ("(none)", 1)].
Proof.
  simpl.
  set (labelOf := fun p => extLabel (relPathOf cwd rootDir p)).
  change (fun m absPath => bump m (extLabel (relPathOf cwd rootDir absPath)))
    with (fun m p => bump m (labelOf p)).
  split; [|split; [|split; [|split; [|split]]]].
  - intros label. by rewrite fold_bump_count.
  - intros label. rewrite fold_bump_keys. simpl.
    rewrite (proj1 (fold_setAdd_order _)). rewrite in_map_iff.
    split; intros (p & H1 & H2); exists p; auto.
  - rewrite fold_bump_keys. simpl. apply fold_setAdd_NoDup. constructor.
  - by rewrite fold_bump_sum.
  - intros relPath. unfold extLabel. by destruct (path.extname relPath).
  - vm_compute. reflexivity.
Qed.

(** ** The degrees add up to twice the edges *)

Lemma sumValues_initDegrees (ns : list GraphNode) (m : JsMap) :
  (forall i, getOrZero i m = 0) -> sumValues m = 0 ->
  let m' := fold_left (fun m node => mapSet (id node) 0 m) ns m in
  (forall i, getOrZero i m' = 0) /\ sumValues m' = 0.
Proof.
  revert m. induction ns as [|n ns IH]; intros m Hz Hs; simpl; [auto|].
  apply IH.
  - intros i. by apply getOrZero_mapSet_zero.
  - rewrite sumValues_mapSet, Hz. lia.
Qed.

Lemma sumValues_bumpEnds es m :
  sumValues (fold_left bumpEnds es m) = sumValues m + 2 * Z.of_nat (List.length es).
Proof.
  revert m. induction es as [|e es IH]; intros m; simpl length; simpl fold_left; [lia|].
  rewrite IH. unfold bumpEnds. rewrite !sumValues_bump. lia.
Qed.

Lemma sumValues_degreeByNodeOf g :
  sumValues (degreeByNodeOf g) = 2 * Z.of_nat (List.length (edges g)).
Proof.
  unfold degreeByNodeOf.
  change (fun m edge => bump (bump m (source edge)) (target edge)) with bumpEnds.
  rewrite sumValues_bumpEnds.
  destruct (sumValues_initDegrees (nodes g) []) as [_ H]; [reflexivity..|].
  simpl in H. rewrite H. lia.
Qed.

Lemma In_getOrZero_nonneg (m : JsMap) :
  List.NoDup (keysOf m) -> (forall i, 0 <= getOrZero i m) ->
  Forall (fun kv => 0 <= kv.2) m.
Proof.
  intros Hnd H. apply Forall_forall. intros [k v] Hin. apply list_elem_of_In in Hin.
  apply NoDup_ListNoDup in Hnd.
  specialize (H k). unfold getOrZero in H.
  by rewrite (In_mapGet_keys _ _ _ Hnd Hin) in H.
Qed.

Lemma degreeByNodeOf_NoDup g : List.NoDup (keysOf (degreeByNodeOf g)).
Proof.
  unfold degreeByNodeOf.
  change (fun m edge => bump (bump m (source edge)) (target edge)) with bumpEnds.
  assert (G : forall es m, List.NoDup (keysOf m) ->
                           List.NoDup (keysOf (fold_left bumpEnds es m))).
  { induction es as [|e es IH]; intros m H; simpl; [exact H|].
    apply IH. unfold bumpEnds. rewrite !keysOf_bump. by repeat apply setAdd_NoDup. }
  apply G. rewrite fold_initDegrees_keys. apply fold_setAdd_NoDup. constructor.
Qed.

Lemma degreeByNodeOf_nonneg g : Forall (fun kv => 0 <= kv.2) (degreeByNodeOf g).
Proof.
  apply In_getOrZero_nonneg; [apply degreeByNodeOf_NoDup|].
  intros i. rewrite degreeByNodeOf_getOrZero. unfold inDegree, outDegree. lia.
Qed.

Lemma sum_firstn_le n (l : list (string * Z)) :
  Forall (fun kv => 0 <= kv.2) l -> sumValues (firstn n l) <= sumValues l.
Proof.
  unfold sumValues. intros H. revert n.
  induction H as [|x l Hx _ IH]; intros n; [by destruct n|].
  destruct n; simpl.
  - assert (0 <= fold_right Z.add 0 (List.map snd l)); [|lia].
    specialize (IH O). simpl in IH. exact IH.
  - specialize (IH n). lia.
Qed.

Lemma sumValues_perm l l' : Permutation l l' -> sumValues l = sumValues l'.
Proof. unfold sumValues. induction 1; simpl; lia. Qed.

Lemma sumDegrees_entries (l : list (string * Z)) :
  sumDegrees (List.map (fun '(i, d) => {| entryId := i; degree := d |}) l) = sumValues l.
Proof.
  unfold sumDegrees, sumValues. induction l as [|[i d] l IH]; simpl; [reflexivity|].
  by rewrite IH.
Qed.

(** X18. The degrees that the stats count add up to twice the number
    of edges.  The degrees listed in topDegree add up to no more than
    that, and to exactly that when the graph has at most 8 entries in
    its degree map. *)
Theorem X18_degrees_add_up (g : Graph) :
  sumValues (degreeByNodeOf g) = 2 * Z.of_nat (List.length (edges g))
  /\ sumDegrees (topDegreeOf g) <= 2 * Z.of_nat (List.length (edges g))
  /\ ((List.length (degreeByNodeOf g) <= 8)%nat ->
      sumDegrees (topDegreeOf g) = 2 * Z.of_nat (List.length (edges g))).
Proof.
  pose proof (sumValues_degreeByNodeOf g) as Hsum.
  pose proof (jsSort_perm byDegreeDesc (degreeByNodeOf g)) as Hperm.
  unfold topDegreeOf. rewrite sumDegrees_entries.
  split; [exact Hsum|]. split.
  - rewrite <- Hsum, <- (sumValues_perm _ _ Hperm). apply sum_firstn_le.
    eapply Permutation_Forall; [symmetry; exact Hperm|apply degreeByNodeOf_nonneg].
  - intros Hlen. rewrite firstn_all2.
    + by rewrite (sumValues_perm _ _ Hperm).
    + by rewrite (Permutation_length Hperm).
Qed.

(* ================================================================== *)
(** * Properties of the analysis that the route answers with *)
(* ================================================================== *)

Lemma isAnalyzed_segments cwd extractionTargetDir absPath :
  isAnalyzed cwd extractionTargetDir absPath = true ->
  noIgnoredFolder (Js.splitSlash (relPathOf cwd extractionTargetDir absPath)).
Proof.
  unfold isAnalyzed. intros H folder Hf Hin.
  apply negb_true_iff in H.
  assert (E : existsb (fun folder =>
                existsb (String.eqb folder)
                  (Js.splitSlash (relPathOf cwd extractionTargetDir absPath)))
                ignoredFolderNames = true); [|congruence].
  apply existsb_exists. exists folder. split; [exact Hf|].
  by apply existsb_eqb_In.
Qed.

Lemma filterBoolean_In x l : In x (Js.filterBoolean l) -> In x l.
Proof. unfold Js.filterBoolean. intros H. by apply filter_In in H as [H _]. Qed.

(** X19. In the analysis that the route answers with, no node of the
    graph and no file of the tree has node_modules, .git, dist, build,
    coverage, .next, .nuxt, .svelte-kit, .cache, .turbo, .vite or out
    among the segments of its path; the reported number of files is
    the sum of the extension counts; and the graph has no more nodes
    than there are files. *)
Theorem X19_analysis_leaves_out_ignored_folders
  (localeCompare : string -> string -> Z) (cwd dirname__ : string)
  (openZip : string -> Result (list Entry)) (file : option UploadedFile)
  (jobId : string) (w : World)
  (base : BaseResponse) (job : string) (filesCount : Z) (stats : AnalysisStats)
  (tree : TreeNode) (g : Graph) :
  body (uploadRoute localeCompare cwd dirname__ openZip file jobId w).1
  = AnalysisBody base job filesCount stats tree g ->
  (forall node, In node (nodes g) -> noIgnoredFolder (Js.splitSlash (id node)))
  /\ (forall parts relPath, In (parts, relPath) (leavesOf tree) ->
        noIgnoredFolder parts /\ noIgnoredFolder (Js.splitSlash relPath))
  /\ filesCount = sumValues (exts stats)
  /\ nodesCount (graph stats) <= filesCount.
Proof.
  unfold uploadRoute. destruct file as [f|]; [|discriminate].
  destruct (negb _); [discriminate|].
  set (T := path.join (EXTRACTED_DIR dirname__) jobId).
  destruct (safeExtractZip cwd (openZip (filePath f)) T serverLimits (disk w))
    as [[[]|err] d'].
  2: { unfold errorHandler.
       repeat match goal with
              | |- context [if ?b then _ else _] => destruct b
              end; discriminate. }
  set (analyzed := List.filter (isAnalyzed cwd T) (walkDirectoryFiles cwd T d')).
  simpl. intros [= _ _ <- <- <- <-].
  assert (Han : forall p, In p analyzed ->
                  noIgnoredFolder (Js.splitSlash (relPathOf cwd T p))).
  { intros p Hp. apply filter_In in Hp as [_ Hp]. by apply isAnalyzed_segments. }
  split; [|split; [|split]].
  - intros node Hn. simpl in Hn.
    apply in_map_iff in Hn as (i & <- & Hi). simpl.
    apply in_map_iff in Hi as (p & <- & Hp). apply filter_In in Hp as [Hp _].
    by apply Han.
  - intros parts relPath Hin.
    eapply Permutation_in in Hin; [|apply leavesOf_buildFileTreeFromPaths].
    apply in_map_iff in Hin as (r & [= <- <-] & Hr).
    apply filter_In in Hr as [Hr _]. apply in_map_iff in Hr as (p & <- & Hp).
    split; [|by apply Han].
    intros folder Hf Hin. apply (Han p Hp folder Hf). by apply filterBoolean_In.
  - simpl. by rewrite fold_bump_sum.
  - simpl. rewrite length_map, length_map. apply inj_le, filter_length_le.
Qed.

Lemma X19_analysis_leaves_out_ignored_folders_witness :
  let up := {| originalname := "a.zip"; size := 10; filename := "1-a.zip";
               filePath := "/srv/uploads/1-a.zip" |} in
  let archive := [sizeLiar "src/a.js" None ["x"];
                  sizeLiar "node_modules/m/index.js" None ["y"]] in
  exists base job stats tree g,
    body (uploadRoute codeUnitCompare "/srv" "/srv" (fun _ => Ok archive)
            (Some up) "job" emptyWorld).1
    = AnalysisBody base job 1 stats tree g
    /\ 1 = sumValues (exts stats).
Proof.
  intros up archive. eexists _, _, _, _, _.
  assert (E : forall b j n s t g,
            body (uploadRoute codeUnitCompare "/srv" "/srv" (fun _ => Ok archive)
                    (Some up) "job" emptyWorld).1 = AnalysisBody b j n s t g ->
            body (uploadRoute codeUnitCompare "/srv" "/srv" (fun _ => Ok archive)
                    (Some up) "job" emptyWorld).1 = AnalysisBody b j n s t g
            /\ n = sumValues (exts s)).
  { intros b j n s t g H. split; [exact H|].
    exact (proj1 (proj2 (proj2
             (X19_analysis_leaves_out_ignored_folders codeUnitCompare "/srv" "/srv"
                (fun _ => Ok archive) (Some up) "job" emptyWorld b j n s t g H)))). }
  apply E. vm_compute. reflexivity.
Defined.
